(** * Go-App: the session tick engine and its loop supervisor

    A shallow embedding of [internal/domain/game.go],
    [internal/service/game_service.go], the in-memory [GameRepository],
    the handlers of [internal/handler/http/game_handler.go] and package
    [config], followed by the properties of the tick engine, of the
    requests, of the loop registry, of the handlers and of the
    configuration.

    Conventions of the embedding:
    - Go's [int] is a 64-bit two's-complement integer: a [Z] kept in
      range by [wrap] after every arithmetic operation;
    - a [rune] is its code point, a [Z];
    - a run-time panic (index out of range, nil dereference) is the
      [None] of an [option]; Go's [error] results are values of [error];
    - [*domain.Game] pointers are locations of a heap, so that the
      repository and the service share one object per session;
    - [time.Now()] is an argument [now]; [*rand.Rand] is a tape of the
      raw draws still to come. *)

From Stdlib Require Import ZArith Lia Ascii.
From stdpp Require Import gmap strings list pretty.

Local Open Scope Z_scope.

(** ** Machine integers *)

Definition min_int : Z := - 2 ^ 63.
Definition max_int : Z := 2 ^ 63 - 1.

(** Two's-complement wrap-around of Go's [int]. *)
Definition wrap (z : Z) : Z := (z + 2 ^ 63) mod 2 ^ 64 - 2 ^ 63.

Definition is_int (z : Z) : Prop := min_int <= z <= max_int.

(** [s[i]] on a slice: [None] is the index-out-of-range panic. *)
Definition index {A : Type} (s : list A) (i : Z) : option A :=
  if decide (0 <= i) then s !! Z.to_nat i else None.

(** ** internal/domain/game.go *)

Inductive Direction : Set :=
| DirectionUp
| DirectionDown
| DirectionLeft
| DirectionRight
| DirectionNone.

#[global] Instance Direction_eq_dec : EqDecision Direction.
Proof. solve_decision. Defined.

(** [domain.Direction(n)]: the constants are [iota] 0..4.  The code only
    converts the result of [Intn(4)]; every other integer behaves as "no
    movement" in [Move], like [DirectionNone]. *)
Definition Direction_of_int (n : Z) : Direction :=
  if n =? 0 then DirectionUp
  else if n =? 1 then DirectionDown
  else if n =? 2 then DirectionLeft
  else if n =? 3 then DirectionRight
  else DirectionNone.

Record Position : Set := mkPosition { X : Z; Y : Z }.

#[global] Instance Position_eq_dec : EqDecision Position.
Proof. solve_decision. Defined.

Definition Move (p : Position) (dir : Direction) : Position :=
  match dir with
  | DirectionUp => mkPosition (X p) (wrap (Y p - 1))
  | DirectionDown => mkPosition (X p) (wrap (Y p + 1))
  | DirectionLeft => mkPosition (wrap (X p - 1)) (Y p)
  | DirectionRight => mkPosition (wrap (X p + 1)) (Y p)
  | DirectionNone => p
  end.

Definition Equals (p other : Position) : bool :=
  (X p =? X other) && (Y p =? Y other).

Record Ghost : Set := mkGhost { GhostPosition : Position; GhostDirection : Direction }.

Definition rune : Set := Z.

Definition rune_of_ascii (c : Ascii.ascii) : rune := Z.of_nat (Ascii.nat_of_ascii c).

Definition wall : rune := Eval cbv in rune_of_ascii "#"%char.
Definition dot : rune := Eval cbv in rune_of_ascii "."%char.
Definition empty_cell : rune := Eval cbv in rune_of_ascii " "%char.

Record Game : Set := mkGame {
  ID : string;
  Board : list (list rune);
  Player : Position;
  Ghosts : list Ghost;
  Score : Z;
  DotsLeft : Z;
  GameOver : bool;
  PlayerDir : Direction;
  CreatedAt : Z;
  UpdatedAt : Z
}.

(** [g.Board[pos.Y][pos.X]]. *)
Definition cell (g : Game) (pos : Position) : option rune :=
  row ← index (Board g) (Y pos); index row (X pos).

Definition IsValidPosition (g : Game) (pos : Position) (width height : Z) : option bool :=
  if (X pos <? 0) || (X pos >=? width) || (Y pos <? 0) || (Y pos >=? height)
  then Some false
  else c ← cell g pos; Some (negb (c =? wall)).

(** ** internal/service/game_service.go: constants and the random source *)

Definition GameWidth : Z := 20.
Definition GameHeight : Z := 15.
Definition ScorePerDot : Z := 10.

(** [*rand.Rand]: the tape of raw draws still to come.  [Intn n] consumes
    one draw and reduces it into [0, n); an exhausted tape keeps
    answering 0.  Every sequence of answers the generator can give is
    the image of some tape. *)
Definition Rng : Set := list Z.

Definition Intn (n : Z) (r : Rng) : Z * Rng :=
  match r with
  | [] => (0, [])
  | x :: r' => (x mod n, r')
  end.

(** The [swap] closure handed to [Shuffle]: [dirs[i], dirs[j] = dirs[j], dirs[i]]. *)
Definition swap {A : Type} (s : list A) (i j : nat) : list A :=
  match s !! i, s !! j with
  | Some a, Some b => <[j := a]> (<[i := b]> s)
  | _, _ => s
  end.

(** [rng.Shuffle(n, swap)] is the Fisher-Yates loop of math/rand:
    [for i := n-1; i > 0; i-- { j := Intn(i+1); swap(i, j) }].
    [shuffleFrom i] runs the loop from index [i] down to 1. *)
Fixpoint shuffleFrom {A : Type} (i : nat) (r : Rng) (s : list A) : Rng * list A :=
  match i with
  | O => (r, s)
  | S i' =>
      let '(j, r') := Intn (Z.of_nat (S i)) r in
      shuffleFrom i' r' (swap s i (Z.to_nat j))
  end.

Definition Shuffle {A : Type} (r : Rng) (s : list A) : Rng * list A :=
  shuffleFrom (length s - 1)%nat r s.

(** [abs] of the service, with the wrap-around of [-x]. *)
Definition abs (x : Z) : Z := if x <? 0 then wrap (- x) else x.

(** ** The tick's three steps *)

Definition setCell (board : list (list rune)) (pos : Position) (c : rune) : list (list rune) :=
  match board !! Z.to_nat (Y pos) with
  | Some row => <[Z.to_nat (Y pos) := <[Z.to_nat (X pos) := c]> row]> board
  | None => board
  end.

(** [game.Player = newPos]. *)
Definition setPlayer (newPos : Position) (game : Game) : Game :=
  mkGame (ID game) (Board game) newPos (Ghosts game) (Score game)
    (DotsLeft game) (GameOver game) (PlayerDir game)
    (CreatedAt game) (UpdatedAt game).

(** The body of the "collect dot" branch: the player's cell becomes
    [' '], the score grows by [ScorePerDot], [DotsLeft--]. *)
Definition collectDot (game : Game) : Game :=
  mkGame (ID game) (setCell (Board game) (Player game) empty_cell) (Player game)
    (Ghosts game) (wrap (Score game + ScorePerDot)) (wrap (DotsLeft game - 1))
    (GameOver game) (PlayerDir game) (CreatedAt game) (UpdatedAt game).

Definition movePlayer (game : Game) : option Game :=
  if decide (PlayerDir game = DirectionNone) then Some game
  else
    let newPos := Move (Player game) (PlayerDir game) in
    ok ← IsValidPosition game newPos GameWidth GameHeight;
    if ok : bool then
      let game := setPlayer newPos game in
      c ← cell game (Player game);
      if c =? dot then Some (collectDot game) else Some game
    else Some game.

(** The "move towards player" branch of [moveGhosts]. *)
Definition chaseDir (player : Position) (ghost : Ghost) : Direction :=
  let dx := wrap (X player - X (GhostPosition ghost)) in
  let dy := wrap (Y player - Y (GhostPosition ghost)) in
  if abs dx >? abs dy then
    if dx >? 0 then DirectionRight else DirectionLeft
  else
    if dy >? 0 then DirectionDown else DirectionUp.

(** The first half of the loop body: the heading the ghost tries. *)
Definition pickDir (game : Game) (r : Rng) (ghost : Ghost) : Direction * Rng :=
  let '(n, r1) := Intn 100 r in
  if n <? 30 then
    let '(d, r2) := Intn 4 r1 in (Direction_of_int d, r2)
  else (chaseDir (Player game) ghost, r1).

(** The [for _, d := range dirs] scan: the first heading with a valid
    destination is taken, none leaves the ghost where it is. *)
Fixpoint tryDirs (game : Game) (ghost : Ghost) (dirs : list Direction) : option Ghost :=
  match dirs with
  | [] => Some ghost
  | d :: dirs' =>
      let newPos := Move (GhostPosition ghost) d in
      ok ← IsValidPosition game newPos GameWidth GameHeight;
      if ok : bool then Some (mkGhost newPos d) else tryDirs game ghost dirs'
  end.

(** One iteration of the loop of [moveGhosts]. *)
Definition moveGhost (game : Game) (r : Rng) (ghost : Ghost) : option (Rng * Ghost) :=
  let '(dir, r1) := pickDir game r ghost in
  let newPos := Move (GhostPosition ghost) dir in
  ok ← IsValidPosition game newPos GameWidth GameHeight;
  if ok : bool then Some (r1, mkGhost newPos dir)
  else
    let '(r2, dirs) :=
      Shuffle r1 [DirectionUp; DirectionDown; DirectionLeft; DirectionRight] in
    ghost' ← tryDirs game ghost dirs;
    Some (r2, ghost').

(** [for i := range game.Ghosts]: the board and the player are only read,
    each ghost is rewritten in place. *)
Fixpoint moveGhostList (game : Game) (r : Rng) (ghosts : list Ghost) : option (Rng * list Ghost) :=
  match ghosts with
  | [] => Some (r, [])
  | ghost :: rest =>
      '(r1, ghost') ← moveGhost game r ghost;
      '(r2, rest') ← moveGhostList game r1 rest;
      Some (r2, ghost' :: rest')
  end.

(** [game.Ghosts] after the loop has rewritten its elements. *)
Definition withGhosts (ghosts : list Ghost) (g : Game) : Game :=
  mkGame (ID g) (Board g) (Player g) ghosts (Score g) (DotsLeft g)
    (GameOver g) (PlayerDir g) (CreatedAt g) (UpdatedAt g).

Definition moveGhosts (game : Game) (r : Rng) : option (Rng * Game) :=
  '(r', ghosts') ← moveGhostList game r (Ghosts game);
  Some (r', withGhosts ghosts' game).

(** [game.GameOver = true]. *)
Definition setGameOver (game : Game) : Game :=
  mkGame (ID game) (Board game) (Player game) (Ghosts game) (Score game)
    (DotsLeft game) true (PlayerDir game) (CreatedAt game) (UpdatedAt game).

Definition checkCollisions (game : Game) : Game :=
  if existsb (fun ghost => Equals (Player game) (GhostPosition ghost)) (Ghosts game)
  then setGameOver game
  else game.

Definition setUpdatedAt (now : Z) (game : Game) : Game :=
  mkGame (ID game) (Board game) (Player game) (Ghosts game) (Score game)
    (DotsLeft game) (GameOver game) (PlayerDir game) (CreatedAt game) now.

(** The mutations of [gameTick] between its terminal check and its
    [Save], in the code's order. *)
Definition tickBody (now : Z) (r : Rng) (game : Game) : option (Rng * Game) :=
  g1 ← movePlayer game;
  '(r', g2) ← moveGhosts g1 r;
  Some (r', setUpdatedAt now (checkCollisions g2)).

(** ** The in-memory repository and the service state *)

Inductive error : Set :=
| ErrSessionIDEmpty             (* "session ID cannot be empty" *)
| ErrGameIDEmpty                (* "game ID cannot be empty" *)
| ErrGameNotFound (id : string) (* "game not found: <id>" *)
| ErrGameEnded                  (* "game ended" *)
| ErrWrap (msg : string) (cause : error). (* fmt.Errorf("<msg>: %w", cause) *)

(** A [*domain.Game]. *)
Definition loc : Set := nat.

(** [games] is the repository's map, [heap] holds the objects its
    pointers lead to, [next] is the allocator's next fresh address and
    [rng] the service's random source. *)
Record Service : Type := mkService {
  games : gmap string loc;
  heap : gmap loc Game;
  next : loc;
  rng : Rng
}.

(** A step of the service: [None] is a panic, otherwise the new state
    and the returned value. *)
Abbreviation Step A := (option (Service * A)).

Definition Save (game : loc) (s : Service) : Step (option error) :=
  g ← heap s !! game;
  if decide (ID g = EmptyString) then Some (s, Some ErrGameIDEmpty)
  else Some (mkService (<[ID g := game]> (games s)) (heap s) (next s) (rng s), None).

Definition FindByID (id : string) (s : Service) : loc + error :=
  if decide (id = EmptyString) then inr ErrGameIDEmpty
  else match games s !! id with
       | Some game => inl game
       | None => inr (ErrGameNotFound id)
       end.

Definition Delete (id : string) (s : Service) : Service * option error :=
  if decide (id = EmptyString) then (s, Some ErrGameIDEmpty)
  else (mkService (delete id (games s)) (heap s) (next s) (rng s), None).

Definition Exists (id : string) (s : Service) : bool :=
  if decide (id = EmptyString) then false
  else bool_decide (is_Some (games s !! id)).

(** What a reader of the session [id] sees. *)
Definition session (s : Service) (id : string) : option Game :=
  game ← games s !! id; heap s !! game.

(** ** gameTick and SetPlayerDirection *)

Definition gameTick (now : Z) (sessionID : string) (s : Service) : Step (option error) :=
  match FindByID sessionID s with
  | inr err => Some (s, Some (ErrWrap "game not found" err))
  | inl game =>
      g ← heap s !! game;
      if GameOver g || (DotsLeft g =? 0) then Some (s, Some ErrGameEnded)
      else
        '(r', g') ← tickBody now (rng s) g;
        '(s', err) ← Save game (mkService (games s) (<[game := g']> (heap s)) (next s) r');
        match err with
        | Some e => Some (s', Some (ErrWrap "failed to save game" e))
        | None => Some (s', None)
        end
  end.

(** [runGameLoop] goes on exactly when [gameTick] returned no error. *)
Definition continue (err : option error) : bool :=
  match err with None => true | Some _ => false end.

Definition setPlayerDir (dir : Direction) (now : Z) (game : Game) : Game :=
  mkGame (ID game) (Board game) (Player game) (Ghosts game) (Score game)
    (DotsLeft game) (GameOver game) dir (CreatedAt game) now.

Definition SetPlayerDirection (now : Z) (sessionID : string) (dir : Direction)
    (s : Service) : Step (option error) :=
  match FindByID sessionID s with
  | inr err => Some (s, Some (ErrWrap "game not found" err))
  | inl game =>
      g ← heap s !! game;
      '(s', err) ← Save game (mkService (games s)
                                (<[game := setPlayerDir dir now g]> (heap s))
                                (next s) (rng s));
      match err with
      | Some e => Some (s', Some (ErrWrap "failed to update game" e))
      | None => Some (s', None)
      end
  end.

(** ** initializeGame and CreateGame *)

Definition maze : list string :=
  [ "####################";
    "#..................#";
    "#.##.##.##.##.##.###";
    "#..................#";
    "#.##.##....##.##.###";
    "#......##.##......##";
    "#.##.##....##.##.###";
    "#..................#";
    "#.##.##.##.##.##.###";
    "#..................#";
    "#.##....##....##.###";
    "#......##.##......##";
    "#.##....##....##.###";
    "#..................#";
    "####################" ]%string.

(** The inner loop over [j]: the cell of column [j] and whether it
    counts as a dot. *)
Definition mazeCell (mazeRow : string) (j : nat) : rune * bool :=
  match String.get j mazeRow with
  | Some c => (rune_of_ascii c, bool_decide (rune_of_ascii c = dot))
  | None => (wall, false)
  end.

Definition columns : list nat := seq 0 (Z.to_nat GameWidth).

(** The outer loop over [i]: [None] is [maze[i]] out of range. *)
Fixpoint buildBoard (i : nat) (height : nat) : option (list (list rune) * Z) :=
  match height with
  | O => Some ([], 0)
  | S height' =>
      mazeRow ← maze !! i;
      '(rows, dots) ← buildBoard (S i) height';
      let cells := map (mazeCell mazeRow) columns in
      Some (map fst cells :: rows,
            Z.of_nat (length (filter (fun c => snd c = true) cells)) + dots)
  end.

Definition initializeGame (now : Z) (sessionID : string) : option Game :=
  '(board, dots) ← buildBoard 0 (Z.to_nat GameHeight);
  Some (mkGame sessionID board (mkPosition 1 1)
          [ mkGhost (mkPosition (GameWidth - 2) (GameHeight - 2)) DirectionLeft;
            mkGhost (mkPosition (GameWidth - 2) 1) DirectionLeft;
            mkGhost (mkPosition 1 (GameHeight - 2)) DirectionRight ]
          0 dots false DirectionNone now now).

Definition CreateGame (now : Z) (sessionID : string) (s : Service) : Step (option error) :=
  if decide (sessionID = EmptyString) then Some (s, Some ErrSessionIDEmpty)
  else
    g ← initializeGame now sessionID;
    '(s', err) ← Save (next s) (mkService (games s) (<[next s := g]> (heap s))
                                  (S (next s)) (rng s));
    match err with
    | Some e => Some (s', Some (ErrWrap "failed to save game" e))
    | None => Some (s', None)
    end.

(** ** The loop registry: StartGameLoop, runGameLoop, stopGameLoop

    A goroutine of [runGameLoop] is named by a number; the cancel
    function stored in [gameLoops] is named by the goroutine whose
    context it cancels.  Each critical section of [gameLoopMu] is one
    atomic step. *)

Record Loop : Set := mkLoop {
  loopSession : string;  (* the sessionID the goroutine was started with *)
  loopCancelled : bool;  (* [ctx.Done()] is closed *)
  loopTicking : bool     (* the goroutine is inside [gameTick] *)
}.

Record System : Type := mkSystem {
  service : Service;
  gameLoops : gmap string nat;  (* [s.gameLoops] *)
  loops : gmap nat Loop;        (* goroutines of [runGameLoop] that have not returned *)
  spawned : nat                 (* goroutines started so far *)
}.

(** Calling a cancel function; cancelling a context whose goroutine has
    returned changes nothing. *)
Definition cancel (h : nat) (ls : gmap nat Loop) : gmap nat Loop :=
  alter (fun l => mkLoop (loopSession l) true (loopTicking l)) h ls.

Definition StartGameLoop (sessionID : string) (sys : System) : System * option error :=
  if negb (Exists sessionID (service sys)) then (sys, Some (ErrGameNotFound sessionID))
  else
    let h := spawned sys in
    let ls :=
      match gameLoops sys !! sessionID with
      | Some existingCancel => cancel existingCancel (loops sys)
      | None => loops sys
      end in
    (mkSystem (service sys) (<[sessionID := h]> (gameLoops sys))
       (<[h := mkLoop sessionID false false]> ls) (S h), None).

Definition stopGameLoop (sessionID : string) (sys : System) : System :=
  match gameLoops sys !! sessionID with
  | Some h =>
      mkSystem (service sys) (delete sessionID (gameLoops sys))
        (cancel h (loops sys)) (spawned sys)
  | None => sys
  end.

Definition cleanupGameLoop (sessionID : string) (sys : System) : System :=
  mkSystem (service sys) (delete sessionID (gameLoops sys)) (loops sys) (spawned sys).

(** Goroutine [h] returns from [runGameLoop]: its deferred
    [cleanupGameLoop(sessionID)] runs. *)
Definition loopReturns (h : nat) (l : Loop) (sys : System) : System :=
  cleanupGameLoop (loopSession l)
    (mkSystem (service sys) (gameLoops sys) (delete h (loops sys)) (spawned sys)).

(** What can happen to the system; [None] below is "not enabled" (or a
    panic inside [gameTick]). *)
Inductive event : Type :=
| EvCreate (now : Z) (sessionID : string)  (* CreateGame *)
| EvStart (sessionID : string)             (* StartGameLoop *)
| EvStop (sessionID : string)              (* stopGameLoop *)
| EvTickBegin (h : nat)     (* [select] takes [ticker.C]: [gameTick] starts *)
| EvTickEnd (now : Z) (h : nat) (* [gameTick] returns *)
| EvDone (h : nat).         (* [select] takes [ctx.Done()] *)

Definition step (ev : event) (sys : System) : option System :=
  match ev with
  | EvCreate now sessionID =>
      '(s', _) ← CreateGame now sessionID (service sys);
      Some (mkSystem s' (gameLoops sys) (loops sys) (spawned sys))
  | EvStart sessionID => Some (fst (StartGameLoop sessionID sys))
  | EvStop sessionID => Some (stopGameLoop sessionID sys)
  | EvTickBegin h =>
      l ← loops sys !! h;
      if loopTicking l then None
      else Some (mkSystem (service sys) (gameLoops sys)
                   (<[h := mkLoop (loopSession l) (loopCancelled l) true]> (loops sys))
                   (spawned sys))
  | EvTickEnd now h =>
      l ← loops sys !! h;
      if loopTicking l then
        '(s', err) ← gameTick now (loopSession l) (service sys);
        let sys' := mkSystem s' (gameLoops sys) (loops sys) (spawned sys) in
        if continue err then
          Some (mkSystem s' (gameLoops sys)
                  (<[h := mkLoop (loopSession l) (loopCancelled l) false]> (loops sys))
                  (spawned sys))
        else Some (loopReturns h l sys')
      else None
  | EvDone h =>
      l ← loops sys !! h;
      if loopCancelled l && negb (loopTicking l) then Some (loopReturns h l sys)
      else None
  end.

Fixpoint steps (evs : list event) (sys : System) : option System :=
  match evs with
  | [] => Some sys
  | ev :: evs' => sys' ← step ev sys; steps evs' sys'
  end.

(** The goroutines of [sessionID] that are inside [gameTick] and whose
    context has not been cancelled. *)
Definition ticking (sessionID : string) (sys : System) : list nat :=
  (map_to_list (loops sys)
     ≫= fun hl : nat * Loop =>
          if bool_decide (loopSession (snd hl) = sessionID)
             && loopTicking (snd hl) && negb (loopCancelled (snd hl))
          then [fst hl] else []).

(** ** The rest of internal/domain/game.go *)

(** [Direction.String]. *)
Definition DirectionString (d : Direction) : string :=
  match d with
  | DirectionUp => "up"
  | DirectionDown => "down"
  | DirectionLeft => "left"
  | DirectionRight => "right"
  | DirectionNone => "none"
  end.

Definition ParseDirection (s : string) : Direction * bool :=
  if decide (s = "up"%string) then (DirectionUp, true)
  else if decide (s = "down"%string) then (DirectionDown, true)
  else if decide (s = "left"%string) then (DirectionLeft, true)
  else if decide (s = "right"%string) then (DirectionRight, true)
  else (DirectionNone, false).

Record GameState : Set := mkGameState {
  StateBoard : list (list string);
  StatePlayer : Position;
  StateGhosts : list Position;
  StateScore : Z;
  StateDotsLeft : Z;
  StateGameOver : bool;
  StateWon : bool
}.

Definition byte (n : Z) : Ascii.ascii := Ascii.ascii_of_N (Z.to_N n).

(** [string(r)] for a rune: its UTF-8 encoding, and the encoding of
    U+FFFD for what is not a code point (negative, above U+10FFFF, a
    surrogate). *)
Definition encodeRune (r : rune) : string :=
  if (r <? 0) || (1114111 <? r) || ((55296 <=? r) && (r <=? 57343)) then
    String (byte 239) (String (byte 191) (String (byte 189) EmptyString))
  else if r <? 128 then
    String (byte r) EmptyString
  else if r <? 2048 then
    String (byte (192 + r / 64)) (String (byte (128 + r mod 64)) EmptyString)
  else if r <? 65536 then
    String (byte (224 + r / 4096))
      (String (byte (128 + (r / 64) mod 64))
         (String (byte (128 + r mod 64)) EmptyString))
  else
    String (byte (240 + r / 262144))
      (String (byte (128 + (r / 4096) mod 64))
         (String (byte (128 + (r / 64) mod 64))
            (String (byte (128 + r mod 64)) EmptyString))).

(** The inner loop of [ToGameState] for row [i]: [make([]string, width)]
    panics on a negative width, [g.Board[i][j]] on a missing cell. *)
Definition stateRow (g : Game) (width : Z) (i : nat) : option (list string) :=
  if width <? 0 then None
  else mapM (fun j : nat => row ← Board g !! i; encodeRune <$> row !! j)
            (seq 0 (Z.to_nat width)).

Definition ToGameState (g : Game) (width height : Z) : option GameState :=
  if height <? 0 then None
  else
    board ← mapM (stateRow g width) (seq 0 (Z.to_nat height));
    Some (mkGameState board (Player g) (map GhostPosition (Ghosts g))
            (Score g) (DotsLeft g) (GameOver g) (DotsLeft g =? 0)).

(** ** The rest of the service: GetGame, GetGameState, RestartGame, DeleteGame *)

Definition GetGame (sessionID : string) (s : Service) : loc + error :=
  if decide (sessionID = EmptyString) then inr ErrSessionIDEmpty
  else match FindByID sessionID s with
       | inl game => inl game
       | inr err => inr (ErrWrap "game not found" err)
       end.

(** [None] is a panic of [ToGameState]. *)
Definition GetGameState (sessionID : string) (s : Service) : option (GameState + error) :=
  match FindByID sessionID s with
  | inr err => Some (inr (ErrWrap "game not found" err))
  | inl game =>
      g ← heap s !! game;
      state ← ToGameState g GameWidth GameHeight;
      Some (inl state)
  end.

(** The loop of the session is stopped, the old session is deleted (a
    failure of the deletion is only logged) and a new one is created. *)
Definition RestartGame (now : Z) (sessionID : string) (sys : System)
    : option (System * option error) :=
  let sys1 := stopGameLoop sessionID sys in
  let s2 := fst (Delete sessionID (service sys1)) in
  '(s3, err) ← CreateGame now sessionID s2;
  Some (mkSystem s3 (gameLoops sys1) (loops sys1) (spawned sys1), err).

Definition DeleteGame (sessionID : string) (sys : System) : System * option error :=
  let sys1 := stopGameLoop sessionID sys in
  match Delete sessionID (service sys1) with
  | (s2, Some e) =>
      (mkSystem s2 (gameLoops sys1) (loops sys1) (spawned sys1),
       Some (ErrWrap "failed to delete game" e))
  | (s2, None) => (mkSystem s2 (gameLoops sys1) (loops sys1) (spawned sys1), None)
  end.

(** ** internal/handler/http/game_handler.go

    Of the [gin.Context] a handler reads the [X-Session-ID] header, the
    argument [header] (empty when the header is absent), and the JSON
    body, the argument [body] of [MovePlayer]: [None] when it does not
    decode into a [MoveRequest], the [Direction] field otherwise (empty
    when the key is missing).  What it sends with [c.JSON] is its
    [response]; the [Error] field of an [ErrorResponse] is the text of
    the status code.  [time.Now().UnixNano()] is the argument [nanos]. *)

Module GameHandler.

Inductive payload : Set :=
| StartGameResponse (SessionID : string) (State : GameState)
| StateResponse (State : GameState)   (* [c.JSON(http.StatusOK, state)] *)
| OkResponse                          (* [gin.H{"status": "ok"}] *)
| ErrorResponse (Message : string).

Record response : Set := mkResponse { statusCode : Z; sent : payload }.

Definition StatusOK : Z := 200.
Definition StatusBadRequest : Z := 400.
Definition StatusNotFound : Z := 404.
Definition StatusInternalServerError : Z := 500.

Definition respondError (statusCode : Z) (message : string) : response :=
  mkResponse statusCode (ErrorResponse message).

(** [c.ShouldBindJSON(&req)] under the tag
    [binding:"required,oneof=up down left right"] of
    [MoveRequest.Direction]. *)
Definition bindMove (body : option string) : option string :=
  direction ← body;
  if decide (direction = EmptyString) then None
  else if decide (direction ∈ ["up"; "down"; "left"; "right"]%string)
       then Some direction else None.

(** The session ID of [StartGame] and [RestartGame]: the header, or
    [fmt.Sprintf("session-%d", time.Now().UnixNano())] without one. *)
Definition sessionOf (header : string) (nanos : Z) : string :=
  if decide (header = EmptyString) then "session-" +:+ pretty nanos else header.

(** The [*domain.Game] that [CreateGame] returns is the object it has
    just allocated, at [next]; [ToGameState] reads it after
    [StartGameLoop]. *)
Definition StartGame (nanos now : Z) (header : string) (sys : System)
    : option (System * response) :=
  let sessionID := sessionOf header nanos in
  let game := next (service sys) in
  '(s1, err) ← CreateGame now sessionID (service sys);
  let sys1 := mkSystem s1 (gameLoops sys) (loops sys) (spawned sys) in
  match err with
  | Some _ =>
      Some (sys1, respondError StatusInternalServerError "Failed to create game")
  | None =>
      match StartGameLoop sessionID sys1 with
      | (sys2, Some _) =>
          Some (sys2, respondError StatusInternalServerError "Failed to start game loop")
      | (sys2, None) =>
          g ← heap (service sys2) !! game;
          state ← ToGameState g 20 15;
          Some (sys2, mkResponse StatusOK (StartGameResponse sessionID state))
      end
  end.

Definition GetGameState (header : string) (s : Service) : option response :=
  if decide (header = EmptyString)
  then Some (respondError StatusBadRequest "Session ID required")
  else
    result ← GetGameState header s;
    match result with
    | inr _ => Some (respondError StatusNotFound "Game not found")
    | inl state => Some (mkResponse StatusOK (StateResponse state))
    end.

Definition MovePlayer (now : Z) (header : string) (body : option string) (s : Service)
    : option (Service * response) :=
  if decide (header = EmptyString)
  then Some (s, respondError StatusBadRequest "Session ID required")
  else
    match bindMove body with
    | None => Some (s, respondError StatusBadRequest "Invalid request body")
    | Some direction =>
        let '(dir, ok) := ParseDirection direction in
        if negb ok then Some (s, respondError StatusBadRequest "Invalid direction")
        else
          '(s', err) ← SetPlayerDirection now header dir s;
          match err with
          | Some _ => Some (s', respondError StatusNotFound "Game not found")
          | None => Some (s', mkResponse StatusOK OkResponse)
          end
    end.

Definition RestartGame (nanos now : Z) (header : string) (sys : System)
    : option (System * response) :=
  let sessionID := sessionOf header nanos in
  let game := next (service sys) in
  '(sys1, err) ← RestartGame now sessionID sys;
  match err with
  | Some _ =>
      Some (sys1, respondError StatusInternalServerError "Failed to restart game")
  | None =>
      match StartGameLoop sessionID sys1 with
      | (sys2, Some _) =>
          Some (sys2, respondError StatusInternalServerError "Failed to start game loop")
      | (sys2, None) =>
          g ← heap (service sys2) !! game;
          state ← ToGameState g 20 15;
          Some (sys2, mkResponse StatusOK (StartGameResponse sessionID state))
      end
  end.

End GameHandler.

(** ** package config

    The environment is a map of the variables that are set;
    [time.ParseDuration], whose grammar plays no part here, is a
    parameter; a [time.Duration] is its number of nanoseconds. *)

Module Config.

Record ServerConfig : Set := mkServerConfig {
  Port : string;
  ReadTimeout : Z;
  WriteTimeout : Z;
  ShutdownTimeout : Z;
  Mode : string
}.

Record LoggingConfig : Set := mkLoggingConfig {
  Level : string;
  Format : string
}.

Record ObservabilityConfig : Set := mkObservabilityConfig {
  ServiceName : string;
  ServiceVersion : string;
  Environment : string;
  TracingEnabled : bool;
  TracingEndpoint : string;
  MetricsEnabled : bool
}.

Record Config : Set := mkConfig {
  Server : ServerConfig;
  Logging : LoggingConfig;
  Observability : ObservabilityConfig
}.

Inductive error : Set :=
| ErrPortEmpty                  (* "server port cannot be empty" *)
| ErrLogLevel (level : string)  (* "invalid log level: <level>" *)
| ErrLogFormat (format : string) (* "invalid log format: <format>" *)
| ErrServerMode (mode : string) (* "invalid server mode: <mode>" *)
| ErrInvalid (cause : error).   (* "invalid configuration: %w" *)

Definition Second : Z := 1000000000.

(** [os.Getenv]: the empty string for a variable that is not set. *)
Definition Getenv (env : gmap string string) (key : string) : string :=
  default EmptyString (env !! key).

(** [strconv.ParseBool]. *)
Definition ParseBool (str : string) : option bool :=
  if decide (str ∈ ["1"; "t"; "T"; "TRUE"; "true"; "True"]%string) then Some true
  else if decide (str ∈ ["0"; "f"; "F"; "FALSE"; "false"; "False"]%string) then Some false
  else None.

Definition Validate (c : Config) : option error :=
  if decide (Port (Server c) = EmptyString) then Some ErrPortEmpty
  else if decide (Level (Logging c) <> "debug" /\ Level (Logging c) <> "info" /\
                  Level (Logging c) <> "warn" /\ Level (Logging c) <> "error")%string
  then Some (ErrLogLevel (Level (Logging c)))
  else if decide (Format (Logging c) <> "json" /\ Format (Logging c) <> "text")%string
  then Some (ErrLogFormat (Format (Logging c)))
  else if decide (Mode (Server c) <> "debug" /\ Mode (Server c) <> "release")%string
  then Some (ErrServerMode (Mode (Server c)))
  else None.

Definition getEnv (env : gmap string string) (key defaultValue : string) : string :=
  let value := Getenv env key in
  if decide (value <> EmptyString) then value else defaultValue.

Definition getBoolEnv (env : gmap string string) (key : string) (defaultValue : bool)
    : bool :=
  let value := Getenv env key in
  if decide (value <> EmptyString) then
    match ParseBool value with
    | None => defaultValue
    | Some boolVal => boolVal
    end
  else defaultValue.

Section Load.

Variable ParseDuration : string -> option Z.

Definition getDurationEnv (env : gmap string string) (key : string) (defaultValue : Z)
    : Z :=
  let value := Getenv env key in
  if decide (value <> EmptyString) then
    match ParseDuration value with
    | None => defaultValue
    | Some duration => duration
    end
  else defaultValue.

Definition Load (env : gmap string string) : Config + error :=
  let config :=
    mkConfig
      (mkServerConfig
         (getEnv env "PORT" "8080")
         (getDurationEnv env "READ_TIMEOUT" (30 * Second))
         (getDurationEnv env "WRITE_TIMEOUT" (30 * Second))
         (getDurationEnv env "SHUTDOWN_TIMEOUT" (10 * Second))
         (getEnv env "GIN_MODE" "release"))
      (mkLoggingConfig
         (getEnv env "LOG_LEVEL" "info")
         (getEnv env "LOG_FORMAT" "json"))
      (mkObservabilityConfig
         (getEnv env "SERVICE_NAME" "pacman-game")
         (getEnv env "SERVICE_VERSION" "1.0.0")
         (getEnv env "ENVIRONMENT" "development")
         (getBoolEnv env "TRACING_ENABLED" true)
         (getEnv env "TRACING_ENDPOINT" EmptyString)
         (getBoolEnv env "METRICS_ENABLED" true)) in
  match Validate config with
  | Some err => inr (ErrInvalid err)
  | None => inl config
  end.

End Load.

End Config.

(** ** Notions used to state the properties *)

(** The heading that undoes [dir]. *)
Definition opposite (dir : Direction) : Direction :=
  match dir with
  | DirectionUp => DirectionDown
  | DirectionDown => DirectionUp
  | DirectionLeft => DirectionRight
  | DirectionRight => DirectionLeft
  | DirectionNone => DirectionNone
  end.

Definition int_pos (p : Position) : Prop := is_int (X p) /\ is_int (Y p).

(** The board has the shape [initializeGame] gives it: [GameHeight]
    rows of [GameWidth] cells. *)
Definition board_ok (board : list (list rune)) : Prop :=
  length board = Z.to_nat GameHeight /\
  Forall (fun row : list rune => length row = Z.to_nat GameWidth) board.

(** [IsValidPosition] with the service's constants answers [true]. *)
Definition passable (g : Game) (pos : Position) : Prop :=
  IsValidPosition g pos GameWidth GameHeight = Some true.

(** A ghost after its turn: where it was, or on a passable cell. *)
Definition ghost_moved (game : Game) (ghost ghost' : Ghost) : Prop :=
  ghost' = ghost \/ passable game (GhostPosition ghost').

#[global] Instance passable_dec (g : Game) (pos : Position) : Decision (passable g pos).
Proof. unfold passable. apply _. Defined.

(** A ghost's turn on a board: it steps one cell in one of the four
    headings onto a passable cell and faces that way, or, when none of
    its four neighbours is passable, it stays as it is. *)
Definition ghost_turn (game : Game) (ghost ghost' : Ghost) : Prop :=
  (exists d, d <> DirectionNone /\
             passable game (Move (GhostPosition ghost) d) /\
             ghost' = mkGhost (Move (GhostPosition ghost) d) d) \/
  ((forall d, d <> DirectionNone ->
              ~ passable game (Move (GhostPosition ghost) d)) /\
   ghost' = ghost).

(** The number of cells between two positions, along the grid. *)
Definition distance (p q : Position) : Z :=
  Z.abs (X p - X q) + Z.abs (Y p - Y q).

(** The context of the goroutine [h] is cancelled. *)
Definition cancelled (l : Loop) : Loop :=
  mkLoop (loopSession l) true (loopTicking l).

(** The cells of a snapshot's row, and of its board, that show a dot. *)
Fixpoint shownDotsIn (row : list string) : Z :=
  match row with
  | [] => 0
  | c :: row' => (if decide (c = "."%string) then 1 else 0) + shownDotsIn row'
  end.

Fixpoint shownDots (board : list (list string)) : Z :=
  match board with
  | [] => 0
  | row :: board' => shownDotsIn row + shownDots board'
  end.

(** What a request can change of a session: its pending heading and its
    time stamp. *)
Definition same_play (g g' : Game) : Prop :=
  ID g' = ID g /\ Board g' = Board g /\ Player g' = Player g /\
  Ghosts g' = Ghosts g /\ Score g' = Score g /\ DotsLeft g' = DotsLeft g /\
  GameOver g' = GameOver g /\ CreatedAt g' = CreatedAt g.

(** The states of the whole system, its requests and the iterations of
    its loops taken one at a time: it starts with no session and no
    loop; sessions are created, loops are started, stopped, tick and
    return ([step]); headings are set; sessions are restarted and
    deleted. *)
Inductive running : System -> Prop :=
| run_idle (r : Rng) :
    running (mkSystem (mkService ∅ ∅ 0%nat r) ∅ ∅ 0%nat)
| run_step (sys sys' : System) (ev : event) :
    running sys -> step ev sys = Some sys' -> running sys'
| run_heading (sys : System) (now : Z) (id : string) (dir : Direction)
    (s' : Service) (err : option error) :
    running sys ->
    SetPlayerDirection now id dir (service sys) = Some (s', err) ->
    running (mkSystem s' (gameLoops sys) (loops sys) (spawned sys))
| run_restart (sys sys' : System) (now : Z) (id : string) (err : option error) :
    running sys -> RestartGame now id sys = Some (sys', err) -> running sys'
| run_delete (sys : System) (id : string) :
    running sys -> running (fst (DeleteGame id sys)).

(** The registry of loops is sound: an entry leads to a goroutine that
    has not returned, runs for the entry's session and is not cancelled;
    the session is stored; goroutines are named below [spawned]. *)
Record registry_ok (sys : System) : Prop := mkRegistryOk {
  reg_live : forall id h, gameLoops sys !! id = Some h ->
             exists l, loops sys !! h = Some l /\ loopSession l = id /\
                       loopCancelled l = false;
  reg_session : forall id h, gameLoops sys !! id = Some h ->
                is_Some (session (service sys) id);
  reg_spawned : forall h l, loops sys !! h = Some l -> (h < spawned sys)%nat
}.

(** An event can happen: a loop takes the ticker when it is not inside
    a tick, ends the tick it is inside, and takes [ctx.Done()] when
    cancelled and not inside a tick; requests can always be made. *)
Definition enabled (ev : event) (sys : System) : Prop :=
  match ev with
  | EvCreate _ _ | EvStart _ | EvStop _ => True
  | EvTickBegin h => exists l, loops sys !! h = Some l /\ loopTicking l = false
  | EvTickEnd _ h => exists l, loops sys !! h = Some l /\ loopTicking l = true
  | EvDone h => exists l, loops sys !! h = Some l /\
                          loopCancelled l = true /\ loopTicking l = false
  end.

(** The requests that reach a stored session after its creation. *)
Inductive request : Set :=
| ReqTick (now : Z) (sessionID : string)
| ReqSetDir (now : Z) (sessionID : string) (dir : Direction).

Definition serve (rq : request) (s : Service) : option Service :=
  match rq with
  | ReqTick now sessionID => fst <$> gameTick now sessionID s
  | ReqSetDir now sessionID dir => fst <$> SetPlayerDirection now sessionID dir s
  end.

Fixpoint serveAll (rqs : list request) (s : Service) : option Service :=
  match rqs with
  | [] => Some s
  | rq :: rqs' => s' ← serve rq s; serveAll rqs' s'
  end.

(** The dots of a row, and of a board. *)
Fixpoint dotsIn (row : list rune) : Z :=
  match row with
  | [] => 0
  | c :: row' => (if c =? dot then 1 else 0) + dotsIn row'
  end.

Fixpoint countDots (board : list (list rune)) : Z :=
  match board with
  | [] => 0
  | row :: board' => dotsIn row + countDots board'
  end.

(** What the service keeps true of every session it stores: the board
    has its shape, [DotsLeft] is the number of dots on it, the score and
    the dots still to collect add up to no more than a board can hold,
    and the player and the ghosts stand on passable cells. *)
Record consistent (g : Game) : Prop := mkConsistent {
  cons_board : board_ok (Board g);
  cons_dots : DotsLeft g = countDots (Board g);
  cons_score : 0 <= Score g;
  cons_total : Score g + ScorePerDot * DotsLeft g <= ScorePerDot * (GameWidth * GameHeight);
  cons_player : passable g (Player g);
  cons_ghosts : Forall (fun ghost => passable g (GhostPosition ghost)) (Ghosts g)
}.

(** The repository's keys are the IDs of the objects they lead to, every
    object is [consistent], and addresses from [next] on are free. *)
Record wf_service (s : Service) : Prop := mkWfService {
  wf_keys : forall id l, games s !! id = Some l ->
            id <> EmptyString /\ exists g, heap s !! l = Some g /\ ID g = id;
  wf_heap : forall l g, heap s !! l = Some g -> consistent g;
  wf_next : forall l, (next s <= l)%nat -> heap s !! l = None
}.

(** The states of the service: it starts empty, and sessions are
    created, ticked, steered and deleted, one request at a time. *)
Inductive reachable : Service -> Prop :=
| reach_empty (r : Rng) :
    reachable (mkService ∅ ∅ 0%nat r)
| reach_create (s s' : Service) (now : Z) (id : string) (err : option error) :
    reachable s -> CreateGame now id s = Some (s', err) -> reachable s'
| reach_serve (s s' : Service) (rq : request) :
    reachable s -> serve rq s = Some s' -> reachable s'
| reach_delete (s : Service) (id : string) :
    reachable s -> reachable (fst (Delete id s)).

(** Two positions whose coordinate differences fit Go's [int] with room
    for [-x]; any two positions of a board are. *)
Definition near (p q : Position) : Prop :=
  (min_int < X p - X q <= max_int) /\ (min_int < Y p - Y q <= max_int).

(** The dots of the maze. *)
Definition mazeDots : Z := 164.

(** The score is [ScorePerDot] for each dot collected so far. *)
Definition accounted (g : Game) : Prop :=
  Score g = ScorePerDot * (mazeDots - DotsLeft g).

Definition target (rq : request) : string :=
  match rq with
  | ReqTick _ sessionID => sessionID
  | ReqSetDir _ sessionID _ => sessionID
  end.

(** ** Sample sessions *)

Definition noGame : Game :=
  mkGame EmptyString [] (mkPosition 0 0) [] 0 0 false DirectionNone 0 0.

(** The session [initializeGame] builds for ["s"] at time 0. *)
Definition freshGame : Game := default noGame (initializeGame 0 "s").

(** A service that holds the one session [g], at address 0, under the
    key [ID g]. *)
Definition holding (g : Game) (r : Rng) : Service :=
  mkService {[ID g := 0%nat]} {[0%nat := g]} 1%nat r.

(** The fresh session with a single ghost, on the cell to the right of
    the player. *)
Definition cornered : Game :=
  withGhosts [mkGhost (mkPosition 2 1) DirectionLeft] freshGame.

(** [cornered] after one tick at time 1 on the tape [99]: the ghost has
    chased left onto the player's cell and the collision is recorded. *)
Definition caught : Game :=
  setUpdatedAt 1
    (setGameOver (withGhosts [mkGhost (mkPosition 1 1) DirectionLeft] freshGame)).

(** A service with no session and no loop. *)
Definition idle : System := mkSystem (mkService ∅ ∅ 0%nat []) ∅ ∅ 0%nat.

(** Three start requests for the session ["s"] (the handler calls
    [CreateGame], then [StartGameLoop]), the first loop returning between
    the second and the third; then the two surviving loops each take a
    tick of the ticker. *)
Definition startedThrice : list event :=
  [ EvCreate 1 "s"; EvStart "s";   (* goroutine 0 is registered *)
    EvCreate 2 "s"; EvStart "s";   (* 0 is cancelled, 1 is registered *)
    EvDone 0%nat;                  (* 0 returns: its cleanup deletes the entry of "s" *)
    EvCreate 3 "s"; EvStart "s";   (* nothing is registered: 1 is not cancelled, 2 starts *)
    EvTickBegin 1%nat; EvTickBegin 2%nat ].

(** The fresh session steered right and ticked twice: the player has
    collected two dots. *)
Definition played : Service :=
  default (holding freshGame [])
    (serveAll [ReqSetDir 1 "s" DirectionRight; ReqTick 2 "s"; ReqTick 3 "s"]
       (holding freshGame (repeat 99 20))).

Definition playedGame : Game := default noGame (session played "s").

(** The fresh session ticked twelve times with no heading: a ghost has
    chased the player down. *)
Definition lost : Service :=
  default (holding freshGame [])
    (serveAll (repeat (ReqTick 1 "s") 12) (holding freshGame (repeat 99 40))).

Definition lostGame : Game := default noGame (session lost "s").

(** One session, created at time 1, and its loop, goroutine 0. *)
Definition started : System :=
  default idle (steps [EvCreate 1 "s"; EvStart "s"] idle).

(** The session of [started] is over and its loop is inside a tick. *)
Definition ending : System :=
  mkSystem lost {["s"%string := 0%nat]} {[0%nat := mkLoop "s" false true]} 1%nat.

(** * Properties *)

(** Closed facts about the sample sessions are settled by evaluation. *)
Ltac evaluate :=
  vm_compute; first [reflexivity | congruence | intuition congruence].

Ltac evaluate_board :=
  split; [vm_compute; reflexivity | vm_compute; repeat constructor].


(** ** Machine integers *)

Lemma wrap_id (z : Z) : is_int z -> wrap z = z.
Proof.
  unfold is_int, min_int, max_int, wrap. intros Hz.
  rewrite Z.mod_small; lia.
Qed.

Lemma wrap_is_int (z : Z) : is_int (wrap z).
Proof.
  unfold is_int, min_int, max_int, wrap.
  pose proof (Z.mod_pos_bound (z + 2 ^ 63) (2 ^ 64)). lia.
Qed.

Lemma wrap_wrap_add (a b : Z) : wrap (wrap a + b) = wrap (a + b).
Proof.
  unfold wrap. f_equal.
  replace ((a + 2 ^ 63) mod 2 ^ 64 - 2 ^ 63 + b + 2 ^ 63)
    with ((a + 2 ^ 63) mod 2 ^ 64 + b) by lia.
  rewrite Zplus_mod_idemp_l. f_equal. lia.
Qed.

Lemma wrap_there_and_back (z d : Z) : is_int z -> wrap (wrap (z + d) - d) = z.
Proof.
  intros Hz. unfold Z.sub. rewrite wrap_wrap_add.
  replace (z + d + - d) with z by lia. by apply wrap_id.
Qed.

Lemma abs_small (x : Z) : min_int < x <= max_int -> abs x = Z.abs x.
Proof.
  unfold abs, min_int, max_int. intros Hx.
  destruct (Z.ltb_spec x 0).
  - rewrite wrap_id; [lia | unfold is_int, min_int, max_int; lia].
  - lia.
Qed.

(** ** Position.Move *)

(** C9. Moving one cell in a heading and then one cell in the opposite
    heading gives the starting position back, for every position whose
    coordinates are Go [int]s and every heading ([none] included);
    wrap-around at the ends of the integer range does not break it. *)
Theorem Move_opposite (p : Position) (h : Direction) :
  int_pos p -> Move (Move p h) (opposite h) = p.
Proof.
  intros [Hx Hy]. destruct p as [x y]. simpl in Hx, Hy.
  destruct h; simpl; try reflexivity.
  - f_equal. replace (y - 1) with (y + -1) by lia.
    replace (wrap (y + -1) + 1) with (wrap (y + -1) - -1) by lia.
    by apply wrap_there_and_back.
  - f_equal. by apply wrap_there_and_back.
  - f_equal. replace (x - 1) with (x + -1) by lia.
    replace (wrap (x + -1) + 1) with (wrap (x + -1) - -1) by lia.
    by apply wrap_there_and_back.
  - f_equal. by apply wrap_there_and_back.
Qed.

Lemma Move_opposite_witness :
  int_pos (mkPosition max_int 0) /\
  Move (Move (mkPosition max_int 0) DirectionRight) (opposite DirectionRight)
  = mkPosition max_int 0.
Proof.
  assert (H : int_pos (mkPosition max_int 0))
    by (unfold int_pos, is_int, min_int, max_int; simpl; lia).
  exact (conj H (Move_opposite (mkPosition max_int 0) DirectionRight H)).
Defined.

(** ** IsValidPosition *)

Lemma index_Some {A : Type} (s : list A) (i : Z) :
  0 <= i < Z.of_nat (length s) -> exists a, index s i = Some a.
Proof.
  intros Hi. unfold index. rewrite decide_True by lia.
  apply lookup_lt_is_Some. lia.
Qed.

Lemma cell_board_ok (g : Game) (pos : Position) :
  board_ok (Board g) -> 0 <= X pos < GameWidth -> 0 <= Y pos < GameHeight ->
  exists c, cell g pos = Some c.
Proof.
  intros [Hlen Hrows] Hx Hy. unfold cell.
  destruct (index_Some (Board g) (Y pos)) as [row Hrow]; [lia|].
  rewrite Hrow. simpl.
  apply index_Some.
  unfold index in Hrow. rewrite decide_True in Hrow by lia.
  rewrite Forall_lookup in Hrows. rewrite (Hrows _ _ Hrow). lia.
Qed.

Lemma IsValidPosition_out (g : Game) (pos : Position) (width height : Z) :
  ~ (0 <= X pos < width /\ 0 <= Y pos < height) ->
  IsValidPosition g pos width height = Some false.
Proof.
  intros Hout. unfold IsValidPosition.
  destruct (Z.ltb_spec (X pos) 0); [done|].
  destruct (Z.geb_spec (X pos) width); [done|].
  destruct (Z.ltb_spec (Y pos) 0); [done|].
  destruct (Z.geb_spec (Y pos) height); [done|].
  lia.
Qed.

Lemma IsValidPosition_in (g : Game) (pos : Position) (width height : Z) :
  0 <= X pos < width -> 0 <= Y pos < height ->
  IsValidPosition g pos width height = c ← cell g pos; Some (negb (c =? wall)).
Proof.
  intros Hx Hy. unfold IsValidPosition.
  destruct (Z.ltb_spec (X pos) 0); [lia|].
  destruct (Z.geb_spec (X pos) width); [lia|].
  destruct (Z.ltb_spec (Y pos) 0); [lia|].
  destruct (Z.geb_spec (Y pos) height); [lia|].
  done.
Qed.

Lemma IsValidPosition_total (g : Game) (pos : Position) :
  board_ok (Board g) -> is_Some (IsValidPosition g pos GameWidth GameHeight).
Proof.
  intros Hok.
  destruct (decide (0 <= X pos < GameWidth /\ 0 <= Y pos < GameHeight)) as [[Hx Hy]|Hout].
  - rewrite IsValidPosition_in by done.
    destruct (cell_board_ok g pos Hok Hx Hy) as [c ->]. by eexists.
  - rewrite IsValidPosition_out by done. by eexists.
Qed.

(** C8. Outside [0,width) x [0,height) [IsValidPosition] answers
    [false] on every board, without indexing it (no panic); inside, on a
    cell the board has, it answers [false] exactly when the cell is a
    wall, and [true] on a dot and on an empty cell; and on a board of the
    service's shape it never panics. *)
Theorem IsValidPosition_spec (g : Game) (pos : Position) (width height : Z) :
  (~ (0 <= X pos < width /\ 0 <= Y pos < height) ->
     IsValidPosition g pos width height = Some false) /\
  (0 <= X pos < width -> 0 <= Y pos < height ->
     forall c, cell g pos = Some c ->
       (IsValidPosition g pos width height = Some false <-> c = wall) /\
       (c = dot \/ c = empty_cell -> IsValidPosition g pos width height = Some true)) /\
  (board_ok (Board g) -> is_Some (IsValidPosition g pos GameWidth GameHeight)).
Proof.
  split; [apply IsValidPosition_out|]. split; [|apply IsValidPosition_total].
  intros Hx Hy c Hc. rewrite IsValidPosition_in by done. rewrite Hc. simpl.
  split.
  - destruct (Z.eqb_spec c wall); simpl; split; congruence.
  - intros [-> | ->]; reflexivity.
Qed.

(** ** The chase heuristic *)

Lemma pickDir_chase (game : Game) (r : Rng) (ghost : Ghost) :
  30 <= fst (Intn 100 r) ->
  pickDir game r ghost = (chaseDir (Player game) ghost, snd (Intn 100 r)).
Proof.
  intros Hn. unfold pickDir. destruct (Intn 100 r) as [n r1]. simpl in *.
  destruct (Z.ltb_spec n 30); [lia | done].
Qed.

Lemma chaseDir_near (player : Position) (ghost : Ghost) :
  near player (GhostPosition ghost) ->
  chaseDir player ghost =
    let dx := X player - X (GhostPosition ghost) in
    let dy := Y player - Y (GhostPosition ghost) in
    if Z.abs dx >? Z.abs dy
    then (if dx >? 0 then DirectionRight else DirectionLeft)
    else (if dy >? 0 then DirectionDown else DirectionUp).
Proof.
  intros [Hx Hy]. unfold chaseDir. cbv zeta.
  rewrite !wrap_id by (unfold is_int; lia).
  by rewrite !abs_small by done.
Qed.

(** C4. On a chase step (the draw of [Intn(100)] is not below 30) the
    heading the ghost tries lies on the axis of larger absolute
    difference to the player, a tie going to the vertical axis, with the
    sign that closes the gap: right if dx > 0 else left, down if dy > 0
    else up; and when the cell in that heading is passable the ghost
    takes it. *)
Theorem chase_heading (game : Game) (r : Rng) (ghost : Ghost) :
  near (Player game) (GhostPosition ghost) ->
  30 <= fst (Intn 100 r) ->
  let dx := X (Player game) - X (GhostPosition ghost) in
  let dy := Y (Player game) - Y (GhostPosition ghost) in
  let dir := fst (pickDir game r ghost) in
  (Z.abs dx > Z.abs dy -> dx > 0 -> dir = DirectionRight) /\
  (Z.abs dx > Z.abs dy -> dx <= 0 -> dir = DirectionLeft) /\
  (Z.abs dx <= Z.abs dy -> dy > 0 -> dir = DirectionDown) /\
  (Z.abs dx <= Z.abs dy -> dy <= 0 -> dir = DirectionUp) /\
  (Z.abs dx = Z.abs dy -> dir = DirectionDown \/ dir = DirectionUp) /\
  (passable game (Move (GhostPosition ghost) dir) ->
     moveGhost game r ghost
     = Some (snd (Intn 100 r), mkGhost (Move (GhostPosition ghost) dir) dir)).
Proof.
  intros Hnear Hn dx dy dir.
  assert (Hpick := pickDir_chase game r ghost Hn).
  assert (Hdir : dir = chaseDir (Player game) ghost)
    by (unfold dir; by rewrite Hpick).
  rewrite (chaseDir_near _ _ Hnear) in Hdir. cbv zeta in Hdir.
  fold dx dy in Hdir.
  repeat split.
  - intros Hgt Hpos. rewrite Hdir.
    destruct (Z.gtb_spec (Z.abs dx) (Z.abs dy)); [|lia].
    destruct (Z.gtb_spec dx 0); [done | lia].
  - intros Hgt Hneg. rewrite Hdir.
    destruct (Z.gtb_spec (Z.abs dx) (Z.abs dy)); [|lia].
    destruct (Z.gtb_spec dx 0); [lia | done].
  - intros Hle Hpos. rewrite Hdir.
    destruct (Z.gtb_spec (Z.abs dx) (Z.abs dy)); [lia|].
    destruct (Z.gtb_spec dy 0); [done | lia].
  - intros Hle Hneg. rewrite Hdir.
    destruct (Z.gtb_spec (Z.abs dx) (Z.abs dy)); [lia|].
    destruct (Z.gtb_spec dy 0); [lia | done].
  - intros Htie. rewrite Hdir.
    destruct (Z.gtb_spec (Z.abs dx) (Z.abs dy)); [lia|].
    destruct (dy >? 0); auto.
  - intros Hpass. unfold moveGhost. rewrite Hpick.
    unfold dir in Hpass. rewrite Hpick in Hpass. simpl in Hpass.
    unfold passable in Hpass. rewrite Hpass. simpl.
    unfold dir. by rewrite Hpick.
Qed.

Lemma chase_heading_witness :
  let ghost := mkGhost (mkPosition 18 1) DirectionLeft in
  near (Player freshGame) (GhostPosition ghost) /\
  30 <= fst (Intn 100 [99]) /\
  fst (pickDir freshGame [99] ghost) = DirectionLeft.
Proof.
  assert (Hnear : near (Player freshGame) (mkPosition 18 1))
    by (evaluate).
  assert (Hdraw : 30 <= fst (Intn 100 [99])) by (evaluate).
  refine (conj Hnear (conj Hdraw _)).
  refine (proj1 (proj2 (chase_heading freshGame [99]
                          (mkGhost (mkPosition 18 1) DirectionLeft) Hnear Hdraw)) _ _);
    evaluate.
Defined.

(** ** Cells and [setCell] *)

Lemma cell_Board (g g' : Game) (pos : Position) :
  Board g' = Board g -> cell g' pos = cell g pos.
Proof. unfold cell. by intros ->. Qed.

Lemma IsValidPosition_cell (g g' : Game) (pos : Position) (width height : Z) :
  (forall c, cell g pos = Some c ->
     exists c', cell g' pos = Some c' /\ (c' =? wall) = (c =? wall)) ->
  (cell g pos = None -> cell g' pos = None) ->
  IsValidPosition g' pos width height = IsValidPosition g pos width height.
Proof.
  intros Hsome Hnone. unfold IsValidPosition.
  destruct (_ || _); [done|].
  destruct (cell g pos) as [c|] eqn:Hc.
  - destruct (Hsome c eq_refl) as (c' & -> & Hw). simpl. by rewrite Hw.
  - by rewrite (Hnone eq_refl).
Qed.

Lemma cell_Some_inv (g : Game) (pos : Position) (c : rune) :
  cell g pos = Some c ->
  0 <= X pos /\ 0 <= Y pos /\
  exists row, Board g !! Z.to_nat (Y pos) = Some row /\
              row !! Z.to_nat (X pos) = Some c.
Proof.
  unfold cell, index. intros H.
  destruct (decide (0 <= Y pos)); [|done].
  destruct (Board g !! Z.to_nat (Y pos)) as [row|] eqn:Hrow; [|done].
  simpl in H. destruct (decide (0 <= X pos)); [|done].
  eauto 6.
Qed.

Lemma cell_setCell (g g' : Game) (pos q : Position) (c : rune) :
  Board g' = setCell (Board g) pos c -> is_Some (cell g pos) ->
  cell g' q = if decide (q = pos) then Some c else cell g q.
Proof.
  intros Hb [c0 Hc0].
  destruct (cell_Some_inv _ _ _ Hc0) as (Hx & Hy & row & Hrow & Hcol).
  assert (Hlen : (Z.to_nat (Y pos) < length (Board g))%nat)
    by (by eapply lookup_lt_Some).
  assert (Hlen' : (Z.to_nat (X pos) < length row)%nat)
    by (by eapply lookup_lt_Some).
  unfold cell, index. rewrite Hb. unfold setCell. rewrite Hrow.
  destruct (decide (q = pos)) as [->|Hne].
  - rewrite !decide_True by done.
    rewrite list_lookup_insert_eq by done. simpl.
    rewrite decide_True by done. by rewrite list_lookup_insert_eq.
  - destruct (decide (0 <= Y q)); [|done].
    destruct (decide (Y q = Y pos)) as [Hyq|Hyq].
    + rewrite Hyq. rewrite list_lookup_insert_eq by done. rewrite Hrow. simpl.
      destruct (decide (0 <= X q)); [|done].
      rewrite list_lookup_insert_ne; [done|].
      intros Heq. apply Hne. destruct q, pos; simpl in *. f_equal; lia.
    + rewrite list_lookup_insert_ne by lia. done.
Qed.

Lemma board_ok_setCell (board : list (list rune)) (pos : Position) (c : rune) :
  board_ok board -> board_ok (setCell board pos c).
Proof.
  intros [Hlen Hrows]. unfold setCell.
  destruct (board !! Z.to_nat (Y pos)) as [row|] eqn:Hrow; [|done].
  split.
  - by rewrite length_insert.
  - apply Forall_insert; [done|]. rewrite length_insert.
    rewrite Forall_lookup in Hrows. by eapply Hrows.
Qed.

(** ** movePlayer *)

Lemma passable_cell (g : Game) (pos : Position) :
  passable g pos ->
  exists c, cell g pos = Some c /\ c <> wall /\
            0 <= X pos < GameWidth /\ 0 <= Y pos < GameHeight.
Proof.
  unfold passable. intros H.
  destruct (decide (0 <= X pos < GameWidth /\ 0 <= Y pos < GameHeight)) as [[Hx Hy]|Hout].
  - rewrite IsValidPosition_in in H by done.
    destruct (cell g pos) as [c|]; [|done]. simpl in H.
    exists c. destruct (Z.eqb_spec c wall); [done|]. done.
  - by rewrite IsValidPosition_out in H.
Qed.

Lemma cell_setPlayer (newPos : Position) (g : Game) (q : Position) :
  cell (setPlayer newPos g) q = cell g q.
Proof. reflexivity. Qed.

(** What [movePlayer] can have done, [dest] being the cell the pending
    heading leads to: nothing, a step onto a cell without a dot, or a
    step onto a dot that is collected. *)
Lemma movePlayer_cases (g g1 : Game) :
  movePlayer g = Some g1 ->
  let dest := Move (Player g) (PlayerDir g) in
  g1 = g \/
  (passable g dest /\
     ((exists c, cell g dest = Some c /\ c <> dot /\ g1 = setPlayer dest g) \/
      (cell g dest = Some dot /\ g1 = collectDot (setPlayer dest g)))).
Proof.
  intros H dest. unfold movePlayer in H. fold dest in H.
  destruct (decide (PlayerDir g = DirectionNone)); [left; congruence|].
  destruct (IsValidPosition g dest GameWidth GameHeight) as [[|]|] eqn:Hv;
    simpl in H; [|left; congruence|done].
  right. split; [done|].
  rewrite cell_setPlayer in H.
  destruct (cell g dest) as [c|] eqn:Hc; simpl in H; [|done].
  destruct (Z.eqb_spec c dot) as [->|Hne].
  - right. split; congruence.
  - left. exists c. repeat split; congruence.
Qed.

Lemma movePlayer_collects (g : Game) :
  PlayerDir g <> DirectionNone ->
  let dest := Move (Player g) (PlayerDir g) in
  passable g dest -> cell g dest = Some dot ->
  movePlayer g = Some (collectDot (setPlayer dest g)).
Proof.
  intros Hdir dest Hpass Hdot. unfold movePlayer. fold dest.
  rewrite decide_False by done. unfold passable in Hpass. rewrite Hpass. simpl.
  rewrite cell_setPlayer. by rewrite Hdot.
Qed.

Lemma movePlayer_total (g : Game) :
  board_ok (Board g) -> is_Some (movePlayer g).
Proof.
  intros Hok. unfold movePlayer.
  destruct (decide (PlayerDir g = DirectionNone)); [by eexists|].
  set (dest := Move (Player g) (PlayerDir g)).
  destruct (IsValidPosition g dest GameWidth GameHeight) as [[|]|] eqn:Hv; simpl.
  - rewrite cell_setPlayer.
    destruct (passable_cell g dest Hv) as (c & -> & _). simpl.
    destruct (c =? dot); by eexists.
  - by eexists.
  - destruct (IsValidPosition_total g dest Hok) as [b Hb]. congruence.
Qed.

(** [movePlayer] leaves every field but the player, the board, the
    score and the dot count alone. *)
Lemma movePlayer_frame (g g1 : Game) :
  movePlayer g = Some g1 ->
  ID g1 = ID g /\ Ghosts g1 = Ghosts g /\ GameOver g1 = GameOver g /\
  PlayerDir g1 = PlayerDir g /\ CreatedAt g1 = CreatedAt g /\
  UpdatedAt g1 = UpdatedAt g.
Proof.
  intros H. destruct (movePlayer_cases _ _ H) as [->|[_ [(c & _ & _ & ->)|[_ ->]]]];
    by repeat split.
Qed.

(** A cell changes only from dot to empty. *)
Lemma movePlayer_cell (g g1 : Game) (p : Position) :
  movePlayer g = Some g1 ->
  cell g1 p = cell g p \/ (cell g p = Some dot /\ cell g1 p = Some empty_cell).
Proof.
  intros H. destruct (movePlayer_cases _ _ H) as [->|[_ [(c & _ & _ & ->)|[Hdot ->]]]];
    [by left..|].
  set (dest := Move (Player g) (PlayerDir g)) in *.
  rewrite (cell_setCell (setPlayer dest g) (collectDot (setPlayer dest g))
             dest p empty_cell eq_refl)
    by (rewrite cell_setPlayer; by rewrite Hdot).
  destruct (decide (p = dest)) as [->|_]; [by right | by left].
Qed.

Lemma movePlayer_keeps (g g1 : Game) (p : Position) (c : rune) :
  movePlayer g = Some g1 -> cell g p = Some c -> c <> dot -> cell g1 p = Some c.
Proof.
  intros H Hc Hne. destruct (movePlayer_cell g g1 p H) as [->|[Hd _]]; congruence.
Qed.

Lemma movePlayer_valid (g g1 : Game) (p : Position) (width height : Z) :
  movePlayer g = Some g1 ->
  IsValidPosition g1 p width height = IsValidPosition g p width height.
Proof.
  intros H. apply IsValidPosition_cell.
  - intros c Hc. destruct (movePlayer_cell g g1 p H) as [->|[Hd ->]].
    + by exists c.
    + exists empty_cell. split; [done|]. by replace c with dot by congruence.
  - intros Hc. destruct (movePlayer_cell g g1 p H) as [->|[Hd _]]; congruence.
Qed.

Lemma movePlayer_board_ok (g g1 : Game) :
  movePlayer g = Some g1 -> board_ok (Board g) -> board_ok (Board g1).
Proof.
  intros H Hok. destruct (movePlayer_cases _ _ H) as [->|[_ [(c & _ & _ & ->)|[_ ->]]]];
    [done..|].
  by apply board_ok_setCell.
Qed.

Lemma movePlayer_position (g g1 : Game) :
  movePlayer g = Some g1 -> Player g1 = Player g \/ passable g (Player g1).
Proof.
  intros H. destruct (movePlayer_cases _ _ H) as [->|[Hp [(c & _ & _ & ->)|[_ ->]]]];
    [by left | by right..].
Qed.

Lemma movePlayer_counters (g g1 : Game) :
  movePlayer g = Some g1 ->
  (Score g1 = Score g /\ DotsLeft g1 = DotsLeft g) \/
  (Score g1 = wrap (Score g + ScorePerDot) /\ DotsLeft g1 = wrap (DotsLeft g - 1)).
Proof.
  intros H. destruct (movePlayer_cases _ _ H) as [->|[_ [(c & _ & _ & ->)|[_ ->]]]];
    [by left..| by right].
Qed.

(** ** moveGhosts *)

Lemma tryDirs_ok (game : Game) (ghost : Ghost) (dirs : list Direction) :
  board_ok (Board game) ->
  exists ghost', tryDirs game ghost dirs = Some ghost' /\ ghost_moved game ghost ghost'.
Proof.
  intros Hok. induction dirs as [|d dirs IH]; simpl.
  - exists ghost. split; [done | by left].
  - destruct (IsValidPosition_total game (Move (GhostPosition ghost) d) Hok) as [b Hb].
    rewrite Hb. simpl. destruct b; [|done].
    eexists. split; [done|]. by right.
Qed.

Lemma moveGhost_ok (game : Game) (r : Rng) (ghost : Ghost) :
  board_ok (Board game) ->
  exists r' ghost',
    moveGhost game r ghost = Some (r', ghost') /\ ghost_moved game ghost ghost'.
Proof.
  intros Hok. unfold moveGhost.
  destruct (pickDir game r ghost) as [dir r1].
  destruct (IsValidPosition_total game (Move (GhostPosition ghost) dir) Hok) as [b Hb].
  rewrite Hb. simpl. destruct b.
  - do 2 eexists. split; [done|]. by right.
  - destruct (Shuffle r1 _) as [r2 dirs].
    destruct (tryDirs_ok game ghost dirs Hok) as (ghost' & -> & Hm). simpl.
    by do 2 eexists.
Qed.

Lemma moveGhostList_ok (game : Game) (r : Rng) (ghosts : list Ghost) :
  board_ok (Board game) ->
  exists r' ghosts',
    moveGhostList game r ghosts = Some (r', ghosts') /\
    Forall2 (ghost_moved game) ghosts ghosts'.
Proof.
  intros Hok. revert r. induction ghosts as [|ghost rest IH]; intros r; simpl.
  - do 2 eexists. split; [done | constructor].
  - destruct (moveGhost_ok game r ghost Hok) as (r1 & ghost' & -> & Hm). simpl.
    destruct (IH r1) as (r2 & rest' & -> & Hrest). simpl.
    do 2 eexists. split; [done | by constructor].
Qed.

Lemma moveGhosts_inv (game : Game) (r r' : Rng) (g2 : Game) :
  moveGhosts game r = Some (r', g2) ->
  exists ghosts', moveGhostList game r (Ghosts game) = Some (r', ghosts') /\
                  g2 = withGhosts ghosts' game.
Proof.
  unfold moveGhosts. intros H.
  destruct (moveGhostList game r (Ghosts game)) as [[r1 ghosts']|]; [|done].
  simpl in H. exists ghosts'. split; congruence.
Qed.

(** ** checkCollisions *)

Lemma checkCollisions_frame (g : Game) :
  let g' := checkCollisions g in
  ID g' = ID g /\ Board g' = Board g /\ Player g' = Player g /\
  Ghosts g' = Ghosts g /\ Score g' = Score g /\ DotsLeft g' = DotsLeft g /\
  PlayerDir g' = PlayerDir g /\ CreatedAt g' = CreatedAt g /\
  UpdatedAt g' = UpdatedAt g /\
  GameOver g' =
    GameOver g || existsb (fun ghost => Equals (Player g) (GhostPosition ghost)) (Ghosts g).
Proof.
  unfold checkCollisions. destruct (existsb _ _); simpl; repeat split;
    by rewrite ?orb_true_r, ?orb_false_r.
Qed.

(** ** The tick between its check and its Save *)

Lemma tickBody_inv (now : Z) (r r' : Rng) (g g' : Game) :
  tickBody now r g = Some (r', g') ->
  exists g1 ghosts',
    movePlayer g = Some g1 /\
    moveGhostList g1 r (Ghosts g1) = Some (r', ghosts') /\
    g' = setUpdatedAt now (checkCollisions (withGhosts ghosts' g1)).
Proof.
  unfold tickBody. intros H.
  destruct (movePlayer g) as [g1|]; [|done]. simpl in H.
  destruct (moveGhosts g1 r) as [[r1 g2]|] eqn:Hg; [|done]. simpl in H.
  destruct (moveGhosts_inv _ _ _ _ Hg) as (ghosts' & Hl & ->).
  exists g1, ghosts'. repeat split; congruence.
Qed.

Lemma tickBody_total (now : Z) (r : Rng) (g : Game) :
  board_ok (Board g) ->
  exists r' g1 ghosts',
    movePlayer g = Some g1 /\
    Forall2 (ghost_moved g1) (Ghosts g1) ghosts' /\
    tickBody now r g
    = Some (r', setUpdatedAt now (checkCollisions (withGhosts ghosts' g1))).
Proof.
  intros Hok. unfold tickBody.
  destruct (movePlayer_total g Hok) as [g1 Hg1]. rewrite Hg1. simpl.
  assert (Hok1 := movePlayer_board_ok _ _ Hg1 Hok).
  unfold moveGhosts.
  destruct (moveGhostList_ok g1 r (Ghosts g1) Hok1) as (r' & ghosts' & -> & Hm).
  simpl. by exists r', g1, ghosts'.
Qed.

Lemma tickBody_frame (now : Z) (r r' : Rng) (g g' : Game) :
  tickBody now r g = Some (r', g') ->
  ID g' = ID g /\ PlayerDir g' = PlayerDir g /\ CreatedAt g' = CreatedAt g /\
  UpdatedAt g' = now.
Proof.
  intros H. destruct (tickBody_inv _ _ _ _ _ H) as (g1 & ghosts' & Hp & _ & ->).
  destruct (movePlayer_frame _ _ Hp) as (HID & _ & _ & Hdir & Hc & _).
  destruct (checkCollisions_frame (withGhosts ghosts' g1))
    as (HID' & _ & _ & _ & _ & _ & Hdir' & Hc' & _).
  simpl in *. repeat split; congruence.
Qed.

(** ** The repository *)

Lemma FindByID_Some (id : string) (s : Service) (l : loc) :
  id <> EmptyString -> games s !! id = Some l -> FindByID id s = inl l.
Proof. intros Hid Hl. unfold FindByID. rewrite decide_False by done. by rewrite Hl. Qed.

Lemma FindByID_inl (id : string) (s : Service) (l : loc) :
  FindByID id s = inl l -> id <> EmptyString /\ games s !! id = Some l.
Proof.
  unfold FindByID. destruct (decide (id = EmptyString)); [done|].
  destruct (games s !! id) eqn:H; [|done]. intros [= ->]. done.
Qed.

(** ** gameTick *)

(** The tick of a session that passes the terminal check: the object is
    rewritten in place and saved under its own ID. *)
Lemma gameTick_runs (now : Z) (id : string) (s : Service) (l : loc) (g : Game)
    (r' : Rng) (g' : Game) :
  id <> EmptyString -> games s !! id = Some l -> heap s !! l = Some g ->
  GameOver g = false -> DotsLeft g <> 0 ->
  tickBody now (rng s) g = Some (r', g') ->
  gameTick now id s =
    if decide (ID g = EmptyString)
    then Some (mkService (games s) (<[l := g']> (heap s)) (next s) r',
               Some (ErrWrap "failed to save game" ErrGameIDEmpty))
    else Some (mkService (<[ID g := l]> (games s)) (<[l := g']> (heap s)) (next s) r',
               None).
Proof.
  intros Hid Hl Hg Hover Hdots Hbody. unfold gameTick.
  rewrite (FindByID_Some _ _ _ Hid Hl). rewrite Hg. simpl.
  rewrite Hover. simpl. destruct (Z.eqb_spec (DotsLeft g) 0); [done|].
  rewrite Hbody. simpl. unfold Save. simpl. rewrite lookup_insert_eq. simpl.
  destruct (tickBody_frame _ _ _ _ _ Hbody) as (-> & _).
  by destruct (decide (ID g = EmptyString)).
Qed.

(** Every way [gameTick] can end without a panic. *)
Lemma gameTick_inv (now : Z) (id : string) (s s' : Service) (err : option error) :
  gameTick now id s = Some (s', err) ->
  (s' = s /\ continue err = false) \/
  (exists l g g',
     games s !! id = Some l /\ heap s !! l = Some g /\
     tickBody now (rng s) g = Some (rng s', g') /\
     heap s' = <[l := g']> (heap s)).
Proof.
  unfold gameTick. intros H.
  destruct (FindByID id s) as [l|e] eqn:Hf.
  - destruct (FindByID_inl _ _ _ Hf) as [Hid Hl].
    destruct (heap s !! l) as [g|] eqn:Hg; [|done]. simpl in H.
    destruct (GameOver g || (DotsLeft g =? 0)).
    + left. by inversion H.
    + destruct (tickBody now (rng s) g) as [[r' g']|] eqn:Hbody; [|done].
      simpl in H. unfold Save in H. simpl in H.
      rewrite lookup_insert_eq in H. simpl in H.
      right. exists l, g, g'.
      destruct (decide (ID g' = EmptyString)); simpl in H; inversion H; by subst.
  - left. by inversion H.
Qed.

(** A session that fails the terminal check: nothing is written. *)
Lemma gameTick_stopped (now : Z) (id : string) (s : Service) (g : Game) :
  session s id = Some g ->
  GameOver g = true \/ DotsLeft g = 0 ->
  exists err, gameTick now id s = Some (s, err) /\ continue err = false.
Proof.
  unfold session. intros Hs Hend.
  destruct (games s !! id) as [l|] eqn:Hl; [|done]. simpl in Hs.
  unfold gameTick, FindByID.
  destruct (decide (id = EmptyString)); [by eexists|].
  rewrite Hl, Hs. simpl.
  assert (Hc : GameOver g || (DotsLeft g =? 0) = true).
  { destruct Hend as [-> | ->]; [done | by rewrite orb_true_r]. }
  rewrite Hc. by eexists.
Qed.

(** C2. A session whose terminal flag is set, or whose count of
    remaining dots is 0, is returned by the tick exactly as it was: the
    whole service state (board, player, ghosts, score, count, flag,
    timestamps, random source) is unchanged, and the tick returns an
    error, which stops the loop (continue = false). *)
Theorem tick_terminal_unchanged (now : Z) (id : string) (s : Service) (g : Game) :
  session s id = Some g ->
  GameOver g = true \/ DotsLeft g = 0 ->
  exists err, gameTick now id s = Some (s, err) /\ continue err = false.
Proof.
  intros Hs Hend. destruct (gameTick_stopped now id s g Hs Hend) as (err & Htick & Hc).
  exists err. split; [exact Htick | exact Hc].
Qed.

Lemma tick_terminal_unchanged_witness :
  let s := holding (setGameOver freshGame) [] in
  session s "s" = Some (setGameOver freshGame) /\
  exists err, gameTick 1 "s" s = Some (s, err) /\ continue err = false.
Proof.
  assert (Hs : session (holding (setGameOver freshGame) []) "s"
               = Some (setGameOver freshGame)) by (evaluate).
  exact (conj Hs (tick_terminal_unchanged 1 "s" _ _ Hs (or_introl eq_refl))).
Defined.

(** The tick of a live session on a board of the service's shape always
    completes, and this is what it leaves behind. *)
Lemma gameTick_live (now : Z) (id : string) (s : Service) (l : loc) (g : Game) :
  id <> EmptyString -> games s !! id = Some l -> heap s !! l = Some g ->
  board_ok (Board g) -> GameOver g = false -> DotsLeft g <> 0 ->
  exists s' err g1 ghosts' g',
    gameTick now id s = Some (s', err) /\
    (ID g <> EmptyString -> err = None) /\
    heap s' = <[l := g']> (heap s) /\
    games s' !! id = Some l /\
    movePlayer g = Some g1 /\
    Forall2 (ghost_moved g1) (Ghosts g1) ghosts' /\
    g' = setUpdatedAt now (checkCollisions (withGhosts ghosts' g1)).
Proof.
  intros Hid Hl Hg Hok Hover Hdots.
  destruct (tickBody_total now (rng s) g Hok) as (r' & g1 & ghosts' & Hp & Hm & Hbody).
  rewrite (gameTick_runs _ _ _ _ _ _ _ Hid Hl Hg Hover Hdots Hbody).
  destruct (decide (ID g = EmptyString)) as [He|Hne].
  - do 5 eexists. split; [done|]. repeat split; try done.
  - do 5 eexists. split; [done|]. repeat split; try done. simpl.
    destruct (decide (ID g = id)) as [->|Hd].
    + by rewrite lookup_insert_eq.
    + by rewrite lookup_insert_ne.
Qed.

(** The two ways a tick of a stored session ends, on a board of the
    service's shape: stopped at the check with nothing written, or run to
    its Save. *)
Lemma gameTick_session (now : Z) (id : string) (s : Service) (l : loc) (g : Game) :
  games s !! id = Some l -> heap s !! l = Some g -> board_ok (Board g) ->
  (exists err, gameTick now id s = Some (s, err) /\ continue err = false) \/
  (id <> EmptyString /\ GameOver g = false /\ DotsLeft g <> 0 /\
   exists s' err g1 ghosts' g',
     gameTick now id s = Some (s', err) /\
     (ID g <> EmptyString -> err = None) /\
     heap s' = <[l := g']> (heap s) /\
     games s' !! id = Some l /\
     movePlayer g = Some g1 /\
     Forall2 (ghost_moved g1) (Ghosts g1) ghosts' /\
     g' = setUpdatedAt now (checkCollisions (withGhosts ghosts' g1))).
Proof.
  intros Hl Hg Hok.
  destruct (decide (id <> EmptyString /\ GameOver g = false /\ DotsLeft g <> 0))
    as [(Hid & Hover & Hd)|Hstop].
  - right. repeat split; [done..|]. by apply gameTick_live.
  - left. destruct (decide (id = EmptyString)) as [->|Hid].
    + eexists. unfold gameTick, FindByID. by rewrite decide_True.
    + apply (gameTick_stopped now id s g); [unfold session; by rewrite Hl|].
      destruct (GameOver g); [by left|]. right.
      destruct (decide (DotsLeft g = 0)); [done|]. exfalso. by apply Hstop.
Qed.

(** C1 (as the code has it). A tick that runs its movement steps
    (terminal flag false and a positive count of remaining dots
    beforehand, the session stored under a non-empty ID on a board of the
    service's shape) returns no error, so continue = true, whatever the
    state it leaves; the conjunction "not terminal and dots remaining" of
    that state is evaluated by the next tick's check only: when it is
    false, the next tick returns continue = false and changes nothing. *)
Theorem tick_continue (now : Z) (id : string) (s : Service) (l : loc) (g : Game) :
  id <> EmptyString -> games s !! id = Some l -> heap s !! l = Some g ->
  ID g <> EmptyString -> board_ok (Board g) ->
  GameOver g = false -> 0 < DotsLeft g -> is_int (DotsLeft g) ->
  exists s' g',
    gameTick now id s = Some (s', None) /\
    continue None = true /\
    session s' id = Some g' /\
    (negb (GameOver g') && (0 <? DotsLeft g') = false ->
       forall now', exists err,
         gameTick now' id s' = Some (s', err) /\ continue err = false).
Proof.
  intros Hid Hl Hg HID Hok Hover Hdots Hint.
  destruct (gameTick_live now id s l g Hid Hl Hg Hok Hover)
    as (s' & err & g1 & ghosts' & g' & Htick & Herr & Hheap & Hgames & Hp & _ & Hg');
    [lia|].
  rewrite (Herr HID) in Htick.
  assert (Hs' : session s' id = Some g').
  { unfold session. rewrite Hgames. simpl. rewrite Hheap. apply lookup_insert_eq. }
  exists s', g'. repeat split; [done..|].
  intros Hstop now'. apply (gameTick_stopped now' id s' g' Hs').
  destruct (GameOver g'); [by left|]. simpl in Hstop. right.
  assert (Hdots' : DotsLeft g' = DotsLeft g1).
  { rewrite Hg'. simpl.
    by destruct (checkCollisions_frame (withGhosts ghosts' g1))
      as (_ & _ & _ & _ & _ & -> & _). }
  destruct (Z.ltb_spec 0 (DotsLeft g')); [done|].
  destruct (movePlayer_counters _ _ Hp) as [[_ Hc]|[_ Hc]]; [lia|].
  rewrite Hc, wrap_id in Hdots'; [lia|].
  unfold is_int, min_int, max_int in *. lia.
Qed.

Lemma tick_continue_witness :
  exists s' g',
    gameTick 1 "s" (holding freshGame []) = Some (s', None) /\
    continue None = true /\
    session s' "s" = Some g' /\
    (negb (GameOver g') && (0 <? DotsLeft g') = false ->
       forall now', exists err,
         gameTick now' "s" s' = Some (s', err) /\ continue err = false).
Proof.
  refine (tick_continue 1 "s" (holding freshGame []) 0%nat freshGame _ _ _ _ _ _ _ _).
  - evaluate.
  - evaluate.
  - evaluate.
  - evaluate.
  - evaluate_board.
  - evaluate.
  - evaluate.
  - evaluate.
Defined.

(** C1 as stated fails: on [cornered] the tick runs its movement steps,
    the ghost's move onto the player sets the terminal flag, and the same
    tick still returns no error, so continue = true while "not terminal
    and dots remaining" is false on the state it leaves. *)
Lemma tick_continue_counterexample :
  GameOver cornered = false /\ 0 < DotsLeft cornered /\
  gameTick 1 "s" (holding cornered [99]) = Some (holding caught [], None) /\
  session (holding caught []) "s" = Some caught /\
  continue None = true /\
  negb (GameOver caught) && (0 <? DotsLeft caught) = false.
Proof.
  repeat split; evaluate.
Qed.

(** ** What a tick preserves *)

(** C6. Across a tick the score does not decrease, the count of
    remaining dots does not increase, and a terminal flag that is set
    stays set.  (The score and the count are Go [int]s: the statement is
    for sessions with room for one more dot below the integer bounds,
    which every session built by [initializeGame] has.) *)
Theorem tick_monotone (now : Z) (id : string) (s : Service) (l : loc) (g : Game) :
  games s !! id = Some l -> heap s !! l = Some g -> board_ok (Board g) ->
  is_int (Score g + ScorePerDot) -> is_int (DotsLeft g - 1) ->
  exists s' err g',
    gameTick now id s = Some (s', err) /\ heap s' !! l = Some g' /\
    Score g <= Score g' /\ DotsLeft g' <= DotsLeft g /\
    (GameOver g = true -> GameOver g' = true).
Proof.
  intros Hl Hg Hok Hscore Hdots.
  destruct (gameTick_session now id s l g Hl Hg Hok)
    as [(err & Htick & _)
       |(Hid & Hover & Hd & s' & err & g1 & ghosts' & g' & Htick & _ & Hheap & _ & Hp & _ & Hg')].
  - exists s, err, g. repeat split; [done | done | lia | lia | done].
  - exists s', err, g'. split; [done|]. split; [rewrite Hheap; apply lookup_insert_eq|].
    destruct (checkCollisions_frame (withGhosts ghosts' g1))
      as (_ & _ & _ & _ & Hs & Hdl & _).
    assert (Score g' = Score g1 /\ DotsLeft g' = DotsLeft g1) as [-> ->]
      by (rewrite Hg'; simpl; by rewrite Hs, Hdl).
    split; [|split; [|congruence]].
    + destruct (movePlayer_counters _ _ Hp) as [[-> _]|[-> _]]; [lia|].
      rewrite wrap_id by done. unfold ScorePerDot. lia.
    + destruct (movePlayer_counters _ _ Hp) as [[_ ->]|[_ ->]]; [lia|].
      rewrite wrap_id by done. lia.
Qed.

Lemma tick_monotone_witness :
  exists s' err g',
    gameTick 1 "s" (holding freshGame []) = Some (s', err) /\
    heap s' !! 0%nat = Some g' /\
    Score freshGame <= Score g' /\ DotsLeft g' <= DotsLeft freshGame /\
    (GameOver freshGame = true -> GameOver g' = true).
Proof.
  refine (tick_monotone 1 "s" (holding freshGame []) 0%nat freshGame _ _ _ _ _).
  - evaluate.
  - evaluate.
  - evaluate_board.
  - evaluate.
  - evaluate.
Defined.

(** ** Positions stay passable *)

Lemma passable_Board (g g' : Game) (pos : Position) :
  Board g' = Board g -> passable g pos -> passable g' pos.
Proof.
  unfold passable, IsValidPosition. intros Hb.
  by rewrite (cell_Board g g' pos Hb).
Qed.

(** C10. On a board of the service's shape, if the player and every
    ghost stand on passable cells before a tick they do after it: the
    tick completes, the player is where it was or on the destination
    [IsValidPosition] accepted, and each ghost is as it was or on a cell
    [IsValidPosition] accepted. *)
Theorem tick_keeps_passable (now : Z) (id : string) (s : Service) (l : loc) (g : Game) :
  games s !! id = Some l -> heap s !! l = Some g -> board_ok (Board g) ->
  passable g (Player g) ->
  Forall (fun ghost => passable g (GhostPosition ghost)) (Ghosts g) ->
  exists s' err g',
    gameTick now id s = Some (s', err) /\ heap s' !! l = Some g' /\
    passable g' (Player g') /\
    Forall (fun ghost => passable g' (GhostPosition ghost)) (Ghosts g') /\
    (Player g' = Player g \/ passable g (Player g')) /\
    Forall2 (fun ghost ghost' =>
               ghost' = ghost \/ passable g (GhostPosition ghost'))
      (Ghosts g) (Ghosts g').
Proof.
  intros Hl Hg Hok Hplayer Hghosts.
  destruct (gameTick_session now id s l g Hl Hg Hok)
    as [(err & Htick & _)
       |(Hid & Hover & Hd & s' & err & g1 & ghosts' & g' & Htick & _ & Hheap & _ & Hp & Hm & Hg')].
  - exists s, err, g. repeat split; try done; [by left|].
    clear. induction (Ghosts g); constructor; auto.
  - exists s', err, g'. split; [done|]. split; [rewrite Hheap; apply lookup_insert_eq|].
    destruct (checkCollisions_frame (withGhosts ghosts' g1))
      as (_ & Hb & Hpl & Hgh & _).
    assert (HB : Board g' = Board g1) by (rewrite Hg'; simpl; by rewrite Hb).
    assert (HP : Player g' = Player g1) by (rewrite Hg'; simpl; by rewrite Hpl).
    assert (HG : Ghosts g' = ghosts') by (rewrite Hg'; simpl; by rewrite Hgh).
    assert (Hsame : forall pos, passable g pos <-> passable g1 pos).
    { intros pos. unfold passable. by rewrite (movePlayer_valid _ _ pos _ _ Hp). }
    destruct (movePlayer_frame _ _ Hp) as (_ & Hgs & _).
    rewrite Hgs in Hm. rewrite HP, HG.
    assert (Hpos := movePlayer_position _ _ Hp).
    repeat split.
    + apply (passable_Board g1 g' _ HB). apply Hsame.
      destruct Hpos as [-> | Hq]; done.
    + clear -Hm Hghosts Hsame HB.
      induction Hm as [|gh gh' ghs ghs' Hgh _ IH]; [constructor|].
      inversion Hghosts; subst. constructor; [|by apply IH].
      apply (passable_Board g1 g' _ HB).
      destruct Hgh as [-> | Hq]; [by apply Hsame | done].
    + done.
    + clear -Hm Hsame. induction Hm as [|gh gh' ghs ghs' Hgh _ IH]; constructor; [|done].
      destruct Hgh as [-> | Hq]; [by left | right; by apply Hsame].
Qed.

Lemma tick_keeps_passable_witness :
  exists s' err g',
    gameTick 1 "s" (holding freshGame [99; 99; 99]) = Some (s', err) /\
    heap s' !! 0%nat = Some g' /\
    passable g' (Player g') /\
    Forall (fun ghost => passable g' (GhostPosition ghost)) (Ghosts g') /\
    (Player g' = Player freshGame \/ passable freshGame (Player g')) /\
    Forall2 (fun ghost ghost' =>
               ghost' = ghost \/ passable freshGame (GhostPosition ghost'))
      (Ghosts freshGame) (Ghosts g').
Proof.
  refine (tick_keeps_passable 1 "s" (holding freshGame [99; 99; 99]) 0%nat
            freshGame _ _ _ _ _).
  - evaluate.
  - evaluate.
  - evaluate_board.
  - evaluate.
  - repeat constructor.
Defined.

(** ** Collecting a dot *)

Lemma tickBody_keeps (now : Z) (r r' : Rng) (g g' : Game) (p : Position) (c : rune) :
  tickBody now r g = Some (r', g') ->
  cell g p = Some c -> c <> dot -> cell g' p = Some c.
Proof.
  intros H Hc Hne. destruct (tickBody_inv _ _ _ _ _ H) as (g1 & ghosts' & Hp & _ & ->).
  rewrite <- (movePlayer_keeps _ _ _ _ Hp Hc Hne). apply cell_Board. simpl.
  by destruct (checkCollisions_frame (withGhosts ghosts' g1)) as (_ & -> & _).
Qed.

Lemma SetPlayerDirection_inv (now : Z) (id : string) (dir : Direction)
    (s s' : Service) (err : option error) :
  SetPlayerDirection now id dir s = Some (s', err) ->
  (s' = s /\ continue err = false) \/
  (exists l g,
     games s !! id = Some l /\ heap s !! l = Some g /\
     heap s' = <[l := setPlayerDir dir now g]> (heap s)).
Proof.
  unfold SetPlayerDirection. intros H.
  destruct (FindByID id s) as [l|e] eqn:Hf.
  - destruct (FindByID_inl _ _ _ Hf) as [Hid Hl].
    destruct (heap s !! l) as [g|] eqn:Hg; [|done]. simpl in H.
    unfold Save in H. simpl in H. rewrite lookup_insert_eq in H. simpl in H.
    right. exists l, g.
    destruct (decide (ID g = EmptyString)); simpl in H; inversion H; by subst.
  - left. by inversion H.
Qed.

(** No request ever writes a dot: a cell of a stored session that is not
    a dot keeps its content. *)
Lemma serve_keeps (rq : request) (s s' : Service) (l : loc) (g : Game)
    (p : Position) (c : rune) :
  serve rq s = Some s' -> heap s !! l = Some g ->
  cell g p = Some c -> c <> dot ->
  exists g', heap s' !! l = Some g' /\ cell g' p = Some c.
Proof.
  intros H Hg Hc Hne. destruct rq as [now id|now id dir]; simpl in H.
  - destruct (gameTick now id s) as [[s1 err]|] eqn:Ht; [|done].
    simpl in H. inversion H; subst s1.
    destruct (gameTick_inv _ _ _ _ _ Ht) as [[-> _]|(l0 & g0 & g0' & _ & Hg0 & Hb & Hh)].
    + by exists g.
    + rewrite Hh. destruct (decide (l0 = l)) as [->|Hl].
      * rewrite lookup_insert_eq. exists g0'. split; [done|].
        assert (g0 = g) as -> by congruence. by eapply tickBody_keeps.
      * rewrite lookup_insert_ne by done. by exists g.
  - destruct (SetPlayerDirection now id dir s) as [[s1 err]|] eqn:Ht; [|done].
    simpl in H. inversion H; subst s1.
    destruct (SetPlayerDirection_inv _ _ _ _ _ _ Ht) as [[-> _]|(l0 & g0 & _ & Hg0 & Hh)].
    + by exists g.
    + rewrite Hh. destruct (decide (l0 = l)) as [->|Hl].
      * rewrite lookup_insert_eq. eexists. split; [done|].
        assert (g0 = g) as -> by congruence. done.
      * rewrite lookup_insert_ne by done. by exists g.
Qed.

Lemma serveAll_keeps (rqs : list request) (s s' : Service) (l : loc) (g : Game)
    (p : Position) (c : rune) :
  serveAll rqs s = Some s' -> heap s !! l = Some g ->
  cell g p = Some c -> c <> dot ->
  exists g', heap s' !! l = Some g' /\ cell g' p = Some c.
Proof.
  revert s g. induction rqs as [|rq rqs IH]; intros s g H Hg Hc Hne; simpl in H.
  - inversion H; subst. by exists g.
  - destruct (serve rq s) as [s1|] eqn:Hs; [|done]. simpl in H.
    destruct (serve_keeps _ _ _ _ _ _ _ Hs Hg Hc Hne) as (g1 & Hg1 & Hc1).
    by eapply IH.
Qed.

(** C3. A tick of a live session whose pending heading leads to a
    passable cell holding a dot lowers the count of remaining dots by
    exactly 1, raises the score by exactly [ScorePerDot] = 10 and leaves
    the cell empty; and whatever ticks and heading requests follow, the
    cell reads as empty, never as a dot again.  (The count and the score
    are Go [int]s: the session must have room for one more dot below the
    integer bounds.) *)
Theorem tick_collects_dot (now : Z) (id : string) (s : Service) (l : loc) (g : Game) :
  id <> EmptyString -> games s !! id = Some l -> heap s !! l = Some g ->
  board_ok (Board g) -> GameOver g = false -> DotsLeft g <> 0 ->
  PlayerDir g <> DirectionNone ->
  let dest := Move (Player g) (PlayerDir g) in
  passable g dest -> cell g dest = Some dot ->
  is_int (Score g + ScorePerDot) -> is_int (DotsLeft g - 1) ->
  exists s' err g',
    gameTick now id s = Some (s', err) /\ heap s' !! l = Some g' /\
    DotsLeft g' = DotsLeft g - 1 /\
    Score g' = Score g + 10 /\
    cell g' dest = Some empty_cell /\
    (forall rqs s'', serveAll rqs s' = Some s'' ->
       exists g'', heap s'' !! l = Some g'' /\ cell g'' dest = Some empty_cell).
Proof.
  intros Hid Hl Hg Hok Hover Hd Hdir dest Hpass Hdot Hscore Hdots.
  destruct (gameTick_live now id s l g Hid Hl Hg Hok Hover Hd)
    as (s' & err & g1 & ghosts' & g' & Htick & _ & Hheap & _ & Hp & _ & Hg').
  rewrite (movePlayer_collects g Hdir Hpass Hdot) in Hp. fold dest in Hp.
  inversion Hp as [Hg1]. clear Hp.
  destruct (checkCollisions_frame (withGhosts ghosts' g1))
    as (_ & Hb & _ & _ & Hs & Hdl & _).
  assert (Hl' : heap s' !! l = Some g') by (rewrite Hheap; apply lookup_insert_eq).
  assert (Hcell : cell g' dest = Some empty_cell).
  { rewrite (cell_Board g1 g' dest) by (rewrite Hg'; simpl; by rewrite Hb).
    rewrite <- Hg1.
    rewrite (cell_setCell (setPlayer dest g) (collectDot (setPlayer dest g))
               dest dest empty_cell eq_refl)
      by (rewrite cell_setPlayer; by rewrite Hdot).
    by rewrite decide_True. }
  exists s', err, g'. repeat split; [done | done | | | done |].
  - rewrite Hg'. simpl. rewrite Hdl, <- Hg1. simpl. by apply wrap_id.
  - rewrite Hg'. simpl. rewrite Hs, <- Hg1. simpl. by apply wrap_id.
  - intros rqs s'' Hrun.
    by apply (serveAll_keeps rqs s' s'' l g' dest empty_cell Hrun Hl' Hcell).
Qed.

Lemma tick_collects_dot_witness :
  let g := setPlayerDir DirectionRight 0 freshGame in
  cell g (mkPosition 2 1) = Some dot /\
  exists s' err g',
    gameTick 1 "s" (holding g []) = Some (s', err) /\ heap s' !! 0%nat = Some g' /\
    DotsLeft g' = DotsLeft g - 1 /\
    Score g' = Score g + 10 /\
    cell g' (mkPosition 2 1) = Some empty_cell /\
    (forall rqs s'', serveAll rqs s' = Some s'' ->
       exists g'', heap s'' !! 0%nat = Some g'' /\
                   cell g'' (mkPosition 2 1) = Some empty_cell).
Proof.
  split; [evaluate|].
  refine (tick_collects_dot 1 "s" (holding (setPlayerDir DirectionRight 0 freshGame) [])
            0%nat (setPlayerDir DirectionRight 0 freshGame) _ _ _ _ _ _ _ _ _ _ _).
  - evaluate.
  - evaluate.
  - evaluate.
  - evaluate_board.
  - evaluate.
  - evaluate.
  - evaluate.
  - evaluate.
  - evaluate.
  - evaluate.
  - evaluate.
Defined.

(** ** SetPlayerDirection *)

(** C7 (as the code has it). For an existing session stored under a
    non-empty ID, [SetPlayerDirection] succeeds and rewrites two fields
    of the stored session, the pending heading and the updated-at
    timestamp ([time.Now()]); the board, the player's position, the
    ghosts, the score, the count of remaining dots, the terminal flag,
    the ID and the created-at timestamp are as before, every other
    stored session is untouched, and so is the random source. *)
Theorem SetPlayerDirection_frame (now : Z) (id : string) (dir : Direction)
    (s : Service) (l : loc) (g : Game) :
  id <> EmptyString -> games s !! id = Some l -> heap s !! l = Some g ->
  ID g <> EmptyString ->
  exists s' g',
    SetPlayerDirection now id dir s = Some (s', None) /\
    session s' id = Some g' /\
    PlayerDir g' = dir /\ UpdatedAt g' = now /\
    ID g' = ID g /\ Board g' = Board g /\ Player g' = Player g /\
    Ghosts g' = Ghosts g /\ Score g' = Score g /\ DotsLeft g' = DotsLeft g /\
    GameOver g' = GameOver g /\ CreatedAt g' = CreatedAt g /\
    (forall l', l' <> l -> heap s' !! l' = heap s !! l') /\
    rng s' = rng s.
Proof.
  intros Hid Hl Hg HID. unfold SetPlayerDirection.
  rewrite (FindByID_Some _ _ _ Hid Hl), Hg. simpl.
  unfold Save. simpl. rewrite lookup_insert_eq. simpl.
  rewrite decide_False by done. simpl.
  do 2 eexists. split; [done|]. split.
  - unfold session. simpl.
    destruct (decide (ID g = id)) as [->|Hne].
    + rewrite lookup_insert_eq. simpl. apply lookup_insert_eq.
    + rewrite lookup_insert_ne by done. rewrite Hl. simpl. apply lookup_insert_eq.
  - repeat split; try done. intros l' Hl'. simpl. by rewrite lookup_insert_ne.
Qed.

Lemma SetPlayerDirection_frame_witness :
  exists s' g',
    SetPlayerDirection 5 "s" DirectionUp (holding freshGame []) = Some (s', None) /\
    session s' "s" = Some g' /\
    PlayerDir g' = DirectionUp /\ UpdatedAt g' = 5 /\
    ID g' = ID freshGame /\ Board g' = Board freshGame /\
    Player g' = Player freshGame /\ Ghosts g' = Ghosts freshGame /\
    Score g' = Score freshGame /\ DotsLeft g' = DotsLeft freshGame /\
    GameOver g' = GameOver freshGame /\ CreatedAt g' = CreatedAt freshGame /\
    (forall l', l' <> 0%nat ->
       heap s' !! l' = heap (holding freshGame []) !! l') /\
    rng s' = rng (holding freshGame []).
Proof.
  refine (SetPlayerDirection_frame 5 "s" DirectionUp (holding freshGame [])
            0%nat freshGame _ _ _ _).
  - evaluate.
  - evaluate.
  - evaluate.
  - evaluate.
Defined.

(** C7 as stated fails: the request also rewrites the updated-at
    timestamp of the stored session. *)
Lemma SetPlayerDirection_counterexample :
  session (holding freshGame []) "s" = Some freshGame /\
  SetPlayerDirection 5 "s" DirectionUp (holding freshGame [])
  = Some (holding (setPlayerDir DirectionUp 5 freshGame) [], None) /\
  session (holding (setPlayerDir DirectionUp 5 freshGame) []) "s"
  = Some (setPlayerDir DirectionUp 5 freshGame) /\
  UpdatedAt (setPlayerDir DirectionUp 5 freshGame) <> UpdatedAt freshGame.
Proof.
  repeat split; evaluate.
Qed.

(** ** The loop registry *)

(** Supersession as far as it goes: starting a loop for a session that
    has a registered one cancels that one and registers the new
    goroutine in its place. *)
Lemma StartGameLoop_supersedes (sessionID : string) (sys : System) (h : nat) (l : Loop) :
  Exists sessionID (service sys) = true ->
  gameLoops sys !! sessionID = Some h -> loops sys !! h = Some l ->
  h <> spawned sys ->
  let sys' := fst (StartGameLoop sessionID sys) in
  gameLoops sys' !! sessionID = Some (spawned sys) /\
  loops sys' !! h = Some (mkLoop (loopSession l) true (loopTicking l)) /\
  loops sys' !! spawned sys = Some (mkLoop sessionID false false).
Proof.
  intros Hex Hreg Hl Hfresh. unfold StartGameLoop. rewrite Hex, Hreg. simpl.
  split; [apply lookup_insert_eq|]. split.
  - rewrite lookup_insert_ne by done. unfold cancel.
    rewrite lookup_alter_eq. by rewrite Hl.
  - apply lookup_insert_eq.
Qed.

(** C5 fails on the code. [cleanupGameLoop] deletes the registry entry
    of its session whoever owns it, so a superseded goroutine that
    returns unregisters its successor; the next start finds nothing to
    cancel.  After [startedThrice] the goroutines 1 and 2 both run the
    loop of ["s"], neither is cancelled, only 2 is registered, and both
    are inside [gameTick] at once; both ticks then complete without
    error and both loops go on. *)
Theorem two_loops_tick_one_session :
  exists sys sys',
    steps startedThrice idle = Some sys /\
    loops sys !! 1%nat = Some (mkLoop "s" false true) /\
    loops sys !! 2%nat = Some (mkLoop "s" false true) /\
    gameLoops sys !! "s" = Some 2%nat /\
    ticking "s" sys = [2%nat; 1%nat] /\
    steps [EvTickEnd 4 1%nat; EvTickEnd 5 2%nat] sys = Some sys' /\
    loops sys' !! 1%nat = Some (mkLoop "s" false false) /\
    loops sys' !! 2%nat = Some (mkLoop "s" false false).
Proof.
  destruct (steps startedThrice idle) as [sys|] eqn:Hsys;
    [|vm_compute in Hsys; discriminate].
  destruct (steps [EvTickEnd 4 1%nat; EvTickEnd 5 2%nat] sys) as [sys'|] eqn:Hsys'.
  - exists sys, sys'. split; [done|].
    assert (Hrun : steps (startedThrice ++ [EvTickEnd 4 1%nat; EvTickEnd 5 2%nat]) idle
                   = Some sys').
    { clear -Hsys Hsys'. revert Hsys Hsys'. generalize idle.
      induction startedThrice as [|ev evs IH]; intros s0 Hs Hs'; simpl in *.
      - by inversion Hs; subst.
      - destruct (step ev s0); [|done]. simpl in *. by apply IH. }
    vm_compute in Hsys. inversion Hsys; subst sys. clear Hsys.
    vm_compute in Hrun. inversion Hrun; subst sys'.
    repeat split; evaluate.
  - exfalso. vm_compute in Hsys. inversion Hsys; subst sys.
    vm_compute in Hsys'. discriminate.
Qed.

(** ** Reachable states *)

Lemma dotsIn_nonneg (row : list rune) : 0 <= dotsIn row.
Proof. induction row as [|c row IH]; simpl; [lia|]. destruct (c =? dot); lia. Qed.

Lemma countDots_nonneg (board : list (list rune)) : 0 <= countDots board.
Proof.
  induction board as [|row board IH]; simpl; [lia|].
  pose proof (dotsIn_nonneg row). lia.
Qed.

Lemma dotsIn_insert (row : list rune) (i : nat) (c c' : rune) :
  row !! i = Some c ->
  dotsIn (<[i := c']> row)
  = dotsIn row - (if c =? dot then 1 else 0) + (if c' =? dot then 1 else 0).
Proof.
  revert i. induction row as [|c0 row IH]; intros [|i] H; simpl in *; try done.
  - inversion H; subst. lia.
  - rewrite (IH i H). lia.
Qed.

Lemma countDots_insert (board : list (list rune)) (j : nat) (row row' : list rune) :
  board !! j = Some row ->
  countDots (<[j := row']> board) = countDots board - dotsIn row + dotsIn row'.
Proof.
  revert j. induction board as [|r0 board IH]; intros [|j] H; simpl in *; try done.
  - inversion H; subst. lia.
  - rewrite (IH j H). lia.
Qed.

Lemma countDots_setCell (g : Game) (pos : Position) :
  cell g pos = Some dot ->
  countDots (setCell (Board g) pos empty_cell) = countDots (Board g) - 1.
Proof.
  intros Hc. destruct (cell_Some_inv _ _ _ Hc) as (_ & _ & row & Hrow & Hcol).
  unfold setCell. rewrite Hrow.
  rewrite (countDots_insert _ _ _ _ Hrow), (dotsIn_insert _ _ _ _ Hcol).
  simpl. lia.
Qed.

Lemma passable_near (g : Game) (p q : Position) :
  passable g p -> passable g q -> near p q.
Proof.
  intros Hp Hq.
  destruct (passable_cell _ _ Hp) as (_ & _ & _ & Hpx & Hpy).
  destruct (passable_cell _ _ Hq) as (_ & _ & _ & Hqx & Hqy).
  unfold near, min_int, max_int, GameWidth, GameHeight in *. lia.
Qed.

Lemma consistent_room (g : Game) :
  consistent g ->
  is_int (Score g + ScorePerDot) /\ is_int (DotsLeft g - 1) /\
  is_int (DotsLeft g) /\ 0 <= DotsLeft g.
Proof.
  intros [_ Hd Hs Ht _ _].
  pose proof (countDots_nonneg (Board g)).
  unfold is_int, min_int, max_int, ScorePerDot, GameWidth, GameHeight in *. lia.
Qed.

Lemma movePlayer_consistent (g g1 : Game) :
  movePlayer g = Some g1 -> consistent g -> consistent g1.
Proof.
  intros H Hc. pose proof (consistent_room g Hc) as (Hr1 & Hr2 & _).
  destruct Hc as [Hb Hd Hs Ht Hp Hg].
  assert (Hsame : forall pos, passable g pos -> passable g1 pos).
  { intros pos. unfold passable. by rewrite (movePlayer_valid _ _ pos _ _ H). }
  assert (Hgh : Forall (fun ghost => passable g1 (GhostPosition ghost)) (Ghosts g1)).
  { destruct (movePlayer_frame _ _ H) as (_ & -> & _).
    eapply Forall_impl; [exact Hg|]. intros gh. apply Hsame. }
  assert (Hpl : passable g1 (Player g1)).
  { apply Hsame. destruct (movePlayer_position _ _ H) as [-> | Hq]; done. }
  assert (Hbo := movePlayer_board_ok _ _ H Hb).
  destruct (movePlayer_cases _ _ H) as [->|[_ [(c & _ & _ & Heq)|[Hdot Heq]]]].
  - by constructor.
  - constructor; try done; by rewrite Heq.
  - set (dest := Move (Player g) (PlayerDir g)) in *.
    assert (Hcount := countDots_setCell (setPlayer dest g) dest Hdot).
    simpl in Hcount.
    constructor; try done; rewrite Heq; simpl.
    + rewrite Hcount. rewrite wrap_id by done. lia.
    + rewrite wrap_id by done. unfold ScorePerDot. lia.
    + rewrite !wrap_id by done. unfold ScorePerDot in *. lia.
Qed.

Lemma consistent_Board (g g' : Game) :
  Board g' = Board g -> DotsLeft g' = DotsLeft g -> Score g' = Score g ->
  passable g (Player g') ->
  Forall (fun ghost => passable g (GhostPosition ghost)) (Ghosts g') ->
  consistent g -> consistent g'.
Proof.
  intros Hb Hd Hs Hp Hg [Cb Cd Cs Ct _ _].
  constructor; rewrite ?Hb, ?Hd, ?Hs; try done.
  - by apply (passable_Board g g').
  - eapply Forall_impl; [exact Hg|]. intros gh. by apply (passable_Board g g').
Qed.

Lemma tickBody_consistent (now : Z) (r r' : Rng) (g g' : Game) :
  tickBody now r g = Some (r', g') -> consistent g -> consistent g'.
Proof.
  intros H Hc. destruct (tickBody_inv _ _ _ _ _ H) as (g1 & ghosts' & Hp & Hm & ->).
  assert (Hc1 := movePlayer_consistent _ _ Hp Hc).
  destruct (moveGhostList_ok g1 r (Ghosts g1) (cons_board _ Hc1))
    as (r2 & ghosts2 & Hm2 & Hmoved).
  assert (ghosts2 = ghosts') as -> by congruence.
  destruct (checkCollisions_frame (withGhosts ghosts' g1))
    as (_ & Hb & Hpl & Hgh & Hs & Hd & _).
  apply (consistent_Board g1); simpl; rewrite ?Hb, ?Hpl, ?Hgh, ?Hs, ?Hd; try done.
  - apply (cons_player _ Hc1).
  - pose proof (cons_ghosts _ Hc1) as Hold. clear -Hmoved Hold.
    induction Hmoved as [|gh gh' ghs ghs' Hgh _ IH]; [constructor|].
    inversion Hold; subst. constructor; [|by apply IH].
    destruct Hgh as [-> | Hq]; done.
Qed.

Lemma setPlayerDir_consistent (dir : Direction) (now : Z) (g : Game) :
  consistent g -> consistent (setPlayerDir dir now g).
Proof.
  intros Hc. apply (consistent_Board g); try done.
  - apply (cons_player _ Hc).
  - apply (cons_ghosts _ Hc).
Qed.

Lemma initializeGame_consistent (now : Z) (id : string) (g : Game) :
  initializeGame now id = Some g ->
  consistent g /\ ID g = id /\ DotsLeft g = 164.
Proof.
  unfold initializeGame.
  assert (Hb : buildBoard 0 (Z.to_nat GameHeight) = Some (Board freshGame, 164))
    by (evaluate).
  rewrite Hb. simpl. intros [= <-]. split; [|done].
  assert (Hf : consistent freshGame).
  { constructor.
    - evaluate_board.
    - evaluate.
    - evaluate.
    - evaluate.
    - evaluate.
    - repeat constructor. }
  apply (consistent_Board freshGame);
    [reflexivity | reflexivity | reflexivity
    | exact (cons_player _ Hf) | exact (cons_ghosts _ Hf) | exact Hf].
Qed.

(** Every way [gameTick] can end without a panic, with what it leaves in
    the repository. *)
Lemma gameTick_writes (now : Z) (id : string) (s s' : Service) (err : option error) :
  gameTick now id s = Some (s', err) ->
  s' = s \/
  (exists l g g',
     games s !! id = Some l /\ heap s !! l = Some g /\
     tickBody now (rng s) g = Some (rng s', g') /\
     heap s' = <[l := g']> (heap s) /\ next s' = next s /\
     (games s' = games s \/ games s' = <[ID g' := l]> (games s))).
Proof.
  unfold gameTick. intros H.
  destruct (FindByID id s) as [l|e] eqn:Hf.
  - destruct (FindByID_inl _ _ _ Hf) as [Hid Hl].
    destruct (heap s !! l) as [g|] eqn:Hg; [|done]. simpl in H.
    destruct (GameOver g || (DotsLeft g =? 0)).
    + left. by inversion H.
    + destruct (tickBody now (rng s) g) as [[r' g']|] eqn:Hbody; [|done].
      simpl in H. unfold Save in H. simpl in H.
      rewrite lookup_insert_eq in H. simpl in H.
      right. exists l, g, g'.
      destruct (decide (ID g' = EmptyString)); simpl in H; inversion H; subst;
        simpl; repeat split; auto.
  - left. by inversion H.
Qed.

Lemma SetPlayerDirection_writes (now : Z) (id : string) (dir : Direction)
    (s s' : Service) (err : option error) :
  SetPlayerDirection now id dir s = Some (s', err) ->
  s' = s \/
  (exists l g,
     games s !! id = Some l /\ heap s !! l = Some g /\
     heap s' = <[l := setPlayerDir dir now g]> (heap s) /\ next s' = next s /\
     (games s' = games s \/ games s' = <[ID g := l]> (games s))).
Proof.
  unfold SetPlayerDirection. intros H.
  destruct (FindByID id s) as [l|e] eqn:Hf.
  - destruct (FindByID_inl _ _ _ Hf) as [Hid Hl].
    destruct (heap s !! l) as [g|] eqn:Hg; [|done]. simpl in H.
    unfold Save in H. simpl in H. rewrite lookup_insert_eq in H. simpl in H.
    right. exists l, g.
    destruct (decide (ID g = EmptyString)); simpl in H; inversion H; subst;
      simpl; repeat split; auto.
  - left. by inversion H.
Qed.

(** Rewriting the object at [l] in place by one with the same ID that is
    [consistent], and saving it under that ID, keeps the service well
    formed. *)
Lemma wf_service_update (s s' : Service) (l : loc) (g g' : Game) :
  wf_service s -> heap s !! l = Some g ->
  ID g' = ID g -> consistent g' ->
  heap s' = <[l := g']> (heap s) -> next s' = next s ->
  (games s' = games s \/ games s' = <[ID g' := l]> (games s)) ->
  (exists id, games s !! id = Some l) ->
  wf_service s'.
Proof.
  intros [Hk Hh Hn] Hg HID Hc Hheap Hnext Hgames [id Hid].
  assert (Hsame : games s' = games s).
  { destruct Hgames as [->| ->]; [done|].
    destruct (Hk _ _ Hid) as (_ & g0 & Hg0 & HID0).
    assert (g0 = g) as -> by congruence.
    apply insert_id. congruence. }
  constructor.
  - intros id' l' Hl'. rewrite Hsame in Hl'.
    destruct (Hk _ _ Hl') as (Hne & g0 & Hg0 & HID0). split; [done|].
    rewrite Hheap. destruct (decide (l' = l)) as [->|Hll].
    + rewrite lookup_insert_eq. exists g'. split; [done|]. congruence.
    + rewrite lookup_insert_ne by done. by exists g0.
  - intros l' g0. rewrite Hheap. destruct (decide (l' = l)) as [->|Hll].
    + rewrite lookup_insert_eq. by intros [= <-].
    + rewrite lookup_insert_ne by done. apply Hh.
  - intros l' Hl'. rewrite Hnext in Hl'. rewrite Hheap.
    destruct (decide (l' = l)) as [->|Hll].
    + exfalso. assert (Hno : Some g = None) by (rewrite <- Hg; exact (Hn _ Hl')).
      discriminate.
    + rewrite lookup_insert_ne by done. by apply Hn.
Qed.

Lemma serve_wf (rq : request) (s s' : Service) :
  serve rq s = Some s' -> wf_service s -> wf_service s'.
Proof.
  intros H Hwf. destruct rq as [now id|now id dir]; simpl in H.
  - destruct (gameTick now id s) as [[s1 err]|] eqn:Ht; [|done].
    simpl in H. inversion H; subst s1.
    destruct (gameTick_writes _ _ _ _ _ Ht)
      as [->|(l & g & g' & Hl & Hg & Hb & Hh & Hn & Hgs)]; [done|].
    apply (wf_service_update s s' l g g'); try done.
    + by destruct (tickBody_frame _ _ _ _ _ Hb) as (-> & _).
    + eapply tickBody_consistent; [done|]. by eapply wf_heap.
    + by exists id.
  - destruct (SetPlayerDirection now id dir s) as [[s1 err]|] eqn:Ht; [|done].
    simpl in H. inversion H; subst s1.
    destruct (SetPlayerDirection_writes _ _ _ _ _ _ Ht)
      as [->|(l & g & Hl & Hg & Hh & Hn & Hgs)]; [done|].
    apply (wf_service_update s s' l g (setPlayerDir dir now g)); try done.
    + apply setPlayerDir_consistent. by eapply wf_heap.
    + by exists id.
Qed.

Lemma CreateGame_wf (now : Z) (id : string) (s s' : Service) (err : option error) :
  CreateGame now id s = Some (s', err) -> wf_service s -> wf_service s'.
Proof.
  unfold CreateGame. intros H [Hk Hh Hn].
  destruct (decide (id = EmptyString)) as [|Hid]; [by inversion H; subst|].
  destruct (initializeGame now id) as [g|] eqn:Hi; [|done]. simpl in H.
  destruct (initializeGame_consistent _ _ _ Hi) as (Hc & HID & _).
  unfold Save in H. simpl in H. rewrite lookup_insert_eq in H. simpl in H.
  rewrite HID in H. rewrite decide_False in H by done. simpl in H.
  inversion H; subst s' err. clear H.
  constructor; simpl.
  - intros id' l'. destruct (decide (id' = id)) as [->|Hne].
    + rewrite lookup_insert_eq. intros [= <-]. split; [done|].
      exists g. by rewrite lookup_insert_eq.
    + rewrite lookup_insert_ne by done. intros Hl'.
      destruct (Hk _ _ Hl') as (Hne' & g0 & Hg0 & HID0). split; [done|].
      exists g0. split; [|done]. rewrite lookup_insert_ne; [done|].
      intros <-. rewrite Hn in Hg0; [done | lia].
  - intros l' g0. destruct (decide (l' = next s)) as [->|Hll].
    + rewrite lookup_insert_eq. by intros [= <-].
    + rewrite lookup_insert_ne by done. apply Hh.
  - intros l' Hl'. rewrite lookup_insert_ne by lia. apply Hn. lia.
Qed.

Lemma Delete_wf (id : string) (s : Service) :
  wf_service s -> wf_service (fst (Delete id s)).
Proof.
  intros [Hk Hh Hn]. unfold Delete.
  destruct (decide (id = EmptyString)); [by constructor|].
  constructor; simpl; [|done..].
  intros id' l'. destruct (decide (id' = id)) as [->|Hne].
  - by rewrite lookup_delete_eq.
  - rewrite lookup_delete_ne by done. apply Hk.
Qed.

Lemma reachable_wf (s : Service) : reachable s -> wf_service s.
Proof.
  induction 1 as [r|s s' now id err _ IH H|s s' rq _ IH H|s id _ IH].
  - constructor; simpl; intros *; by rewrite ?lookup_empty.
  - by eapply CreateGame_wf.
  - by eapply serve_wf.
  - by apply Delete_wf.
Qed.

(** In every state the service can reach, a stored session is filed
    under its own non-empty ID, its board has the service's shape, its
    [DotsLeft] is the number of dots on its board, its counters have room
    below the integer bounds, and the player and the ghosts stand on
    passable cells, close enough for the chase arithmetic not to
    overflow: the hypotheses of the tick's properties hold of it. *)
Theorem reachable_session (s : Service) (id : string) (g : Game) :
  reachable s -> session s id = Some g ->
  id <> EmptyString /\ ID g = id /\
  board_ok (Board g) /\
  DotsLeft g = countDots (Board g) /\
  0 <= DotsLeft g /\
  is_int (Score g + ScorePerDot) /\ is_int (DotsLeft g - 1) /\
  passable g (Player g) /\
  Forall (fun ghost => passable g (GhostPosition ghost) /\
                       near (Player g) (GhostPosition ghost)) (Ghosts g).
Proof.
  intros Hr Hs. destruct (reachable_wf s Hr) as [Hk Hh _].
  unfold session in Hs. destruct (games s !! id) as [l|] eqn:Hl; [|done].
  simpl in Hs. destruct (Hk _ _ Hl) as (Hid & g0 & Hg0 & HID).
  assert (g0 = g) as -> by congruence.
  assert (Hc := Hh _ _ Hs).
  destruct (consistent_room g Hc) as (Hr1 & Hr2 & _ & Hr4).
  refine (conj Hid (conj HID (conj (cons_board _ Hc) (conj (cons_dots _ Hc)
           (conj Hr4 (conj Hr1 (conj Hr2 (conj (cons_player _ Hc) _)))))))).
  eapply Forall_impl; [apply (cons_ghosts _ Hc)|].
  intros gh Hp. split; [done|]. eapply passable_near; [apply Hc | done].
Qed.

Lemma reachable_session_witness :
  reachable (holding freshGame []) /\
  session (holding freshGame []) "s" = Some freshGame /\
  DotsLeft freshGame = countDots (Board freshGame).
Proof.
  assert (Hr : reachable (holding freshGame [])).
  { apply (reach_create (mkService ∅ ∅ 0%nat []) _ 0 "s" None); [constructor|].
    evaluate. }
  assert (Hs : session (holding freshGame []) "s" = Some freshGame)
    by (evaluate).
  exact (conj Hr (conj Hs
           (proj1 (proj2 (proj2 (proj2 (reachable_session _ _ _ Hr Hs))))))).
Defined.

(** ** Requests about sessions that do not exist *)

(** A heading for a session that is not stored is refused with "game
    not found" and nothing is written. *)
Theorem SetPlayerDirection_absent (now : Z) (id : string) (dir : Direction) (s : Service) :
  games s !! id = None ->
  exists e, SetPlayerDirection now id dir s
            = Some (s, Some (ErrWrap "game not found" e)).
Proof.
  intros Hnone. unfold SetPlayerDirection, FindByID.
  destruct (decide (id = EmptyString)); [by eexists|].
  rewrite Hnone. by eexists.
Qed.

Lemma SetPlayerDirection_absent_witness :
  exists e, SetPlayerDirection 5 "t" DirectionUp (holding freshGame [])
            = Some (holding freshGame [], Some (ErrWrap "game not found" e)).
Proof.
  refine (SetPlayerDirection_absent 5 "t" DirectionUp (holding freshGame []) _).
  evaluate.
Defined.

(** A loop is not started for a session that is not stored: the request
    fails with "game not found" and neither the registry nor the set of
    goroutines changes. *)
Theorem StartGameLoop_absent (sessionID : string) (sys : System) :
  games (service sys) !! sessionID = None ->
  StartGameLoop sessionID sys = (sys, Some (ErrGameNotFound sessionID)).
Proof.
  intros Hnone. unfold StartGameLoop, Exists.
  destruct (decide (sessionID = EmptyString)); [done|].
  rewrite Hnone. rewrite bool_decide_eq_false_2; [done|].
  by intros [x Hx].
Qed.

Lemma StartGameLoop_absent_witness :
  StartGameLoop "s" idle = (idle, Some (ErrGameNotFound "s")).
Proof.
  refine (StartGameLoop_absent "s" idle _). evaluate.
Defined.

(** [initializeGame] builds, for every identifier and time, the maze
    with its 164 dots, [DotsLeft] counting them, score 0, not terminal,
    no pending heading. *)
Theorem initializeGame_spec (now : Z) (id : string) :
  exists g, initializeGame now id = Some g /\
    ID g = id /\ board_ok (Board g) /\
    DotsLeft g = countDots (Board g) /\ DotsLeft g = 164 /\
    Score g = 0 /\ GameOver g = false /\ PlayerDir g = DirectionNone /\
    Player g = mkPosition 1 1.
Proof.
  destruct (initializeGame now id) as [g|] eqn:Hi.
  - exists g. destruct (initializeGame_consistent _ _ _ Hi) as (Hc & HID & Hd).
    split; [done|]. split; [done|]. split; [apply Hc|]. split; [apply Hc|].
    split; [done|].
    unfold initializeGame in Hi.
    destruct (buildBoard 0 (Z.to_nat GameHeight)) as [[b d]|]; [|done].
    simpl in Hi. by inversion Hi.
  - exfalso. unfold initializeGame in Hi.
    assert (Hb : buildBoard 0 (Z.to_nat GameHeight) = Some (Board freshGame, 164))
      by (evaluate).
    rewrite Hb in Hi. done.
Qed.

(** ** The fallback scan of moveGhosts *)

Lemma swap_Permutation {A : Type} (s : list A) (i j : nat) : swap s i j ≡ₚ s.
Proof.
  unfold swap. destruct (s !! i) as [a|] eqn:Hi; [|done].
  destruct (s !! j) as [b|] eqn:Hj; [|done].
  by apply Permutation_insert_swap.
Qed.

Lemma shuffleFrom_Permutation {A : Type} (i : nat) (r : Rng) (s : list A) :
  snd (shuffleFrom i r s) ≡ₚ s.
Proof.
  revert r s. induction i as [|i IH]; intros r s; simpl; [done|].
  destruct (Intn _ r) as [j r']. rewrite IH. apply swap_Permutation.
Qed.

Lemma Shuffle_Permutation {A : Type} (r : Rng) (s : list A) :
  snd (Shuffle r s) ≡ₚ s.
Proof. apply shuffleFrom_Permutation. Qed.

Lemma four_headings (d : Direction) :
  d ∈ [DirectionUp; DirectionDown; DirectionLeft; DirectionRight]
  <-> d <> DirectionNone.
Proof.
  split.
  - intros H ->. repeat (apply elem_of_cons in H as [H|H]; [done|]).
    by apply elem_of_nil in H.
  - intros Hd. destruct d; [repeat constructor..|done].
Qed.

Lemma Intn_range (n : Z) (r : Rng) : 0 < n -> 0 <= fst (Intn n r) < n.
Proof.
  intros Hn. destruct r as [|x r]; simpl; [lia|]. by apply Z.mod_pos_bound.
Qed.

Lemma pickDir_heading (game : Game) (r : Rng) (ghost : Ghost) :
  fst (pickDir game r ghost) <> DirectionNone.
Proof.
  unfold pickDir. destruct (Intn 100 r) as [n r1].
  destruct (n <? 30).
  - pose proof (Intn_range 4 r1 ltac:(lia)) as Hd.
    destruct (Intn 4 r1) as [d r2]. simpl in *.
    assert (d = 0 \/ d = 1 \/ d = 2 \/ d = 3) as [->|[->|[->| ->]]] by lia; done.
  - simpl. unfold chaseDir. by repeat destruct (_ >? _).
Qed.

(** The scan takes the first heading of [dirs] whose cell is passable;
    with none it leaves the ghost as it is. *)
Lemma tryDirs_first (game : Game) (ghost : Ghost) (dirs : list Direction) :
  board_ok (Board game) ->
  (exists d, d ∈ dirs /\ passable game (Move (GhostPosition ghost) d) /\
             tryDirs game ghost dirs = Some (mkGhost (Move (GhostPosition ghost) d) d)) \/
  ((forall d, d ∈ dirs -> ~ passable game (Move (GhostPosition ghost) d)) /\
   tryDirs game ghost dirs = Some ghost).
Proof.
  intros Hok. induction dirs as [|d dirs IH]; simpl.
  - right. split; [|done]. intros d Hd. by apply elem_of_nil in Hd.
  - destruct (IsValidPosition_total game (Move (GhostPosition ghost) d) Hok) as [b Hb].
    rewrite Hb. simpl. destruct b.
    + left. exists d. split; [by left|]. by split.
    + destruct IH as [(d' & Hin & Hp & Heq)|[Hnone Heq]].
      * left. exists d'. split; [by right|]. by split.
      * right. split; [|done]. intros d' [->|Hin]%elem_of_cons; [|by apply Hnone].
        unfold passable. by rewrite Hb.
Qed.

Lemma moveGhost_turn (game : Game) (r : Rng) (ghost : Ghost) :
  board_ok (Board game) ->
  exists r' ghost',
    moveGhost game r ghost = Some (r', ghost') /\ ghost_turn game ghost ghost'.
Proof.
  intros Hok. unfold moveGhost.
  pose proof (pickDir_heading game r ghost) as Hdir.
  destruct (pickDir game r ghost) as [dir r1]. simpl in Hdir.
  destruct (IsValidPosition_total game (Move (GhostPosition ghost) dir) Hok) as [b Hb].
  rewrite Hb. simpl. destruct b.
  - do 2 eexists. split; [done|]. left. by exists dir.
  - pose proof (Shuffle_Permutation r1
                  [DirectionUp; DirectionDown; DirectionLeft; DirectionRight]) as Hperm.
    destruct (Shuffle r1 _) as [r2 dirs]. simpl in Hperm.
    assert (Hin : forall d, d ∈ dirs <-> d <> DirectionNone).
    { intros d. rewrite Hperm. apply four_headings. }
    destruct (tryDirs_first game ghost dirs Hok) as [(d & Hd & Hp & ->)|[Hnone ->]]; simpl.
    + do 2 eexists. split; [done|]. left. exists d. by rewrite <- Hin.
    + do 2 eexists. split; [done|]. right. split; [|done].
      intros d Hd. apply Hnone. by apply Hin.
Qed.

Lemma moveGhostList_turns (game : Game) (r r' : Rng) (ghosts ghosts' : list Ghost) :
  board_ok (Board game) ->
  moveGhostList game r ghosts = Some (r', ghosts') ->
  Forall2 (ghost_turn game) ghosts ghosts'.
Proof.
  intros Hok. revert r ghosts'.
  induction ghosts as [|ghost rest IH]; intros r ghosts' H; simpl in H.
  - inversion H. constructor.
  - destruct (moveGhost_turn game r ghost Hok) as (r1 & ghost' & Hm & Ht).
    rewrite Hm in H. simpl in H.
    destruct (moveGhostList game r1 rest) as [[r2 rest']|] eqn:Hrest; [|done].
    simpl in H. inversion H; subst. constructor; [done|]. by eapply IH.
Qed.

(** A step onto a passable cell from a cell with Go [int] coordinates
    covers exactly one cell. *)
Lemma Move_distance (g : Game) (p : Position) (d : Direction) :
  int_pos p -> d <> DirectionNone -> passable g (Move p d) ->
  distance (Move p d) p = 1.
Proof.
  intros [Hx Hy] Hd Hp.
  destruct (passable_cell _ _ Hp) as (_ & _ & _ & Hbx & Hby).
  unfold distance, GameWidth, GameHeight in *.
  assert (Hw : forall z k, is_int z -> z - 1 <= k <= z + 1 -> 0 <= wrap k < 20 ->
                           wrap k = k).
  { intros z k Hz Hk Hr. unfold wrap, is_int, min_int, max_int in *.
    destruct (Z_lt_le_dec (k + 2 ^ 63) 0).
    - rewrite <- (Z.mod_add _ 1) in Hr by lia.
      rewrite Z.mod_small in Hr; lia.
    - destruct (Z_lt_le_dec (k + 2 ^ 63) (2 ^ 64)).
      + rewrite Z.mod_small; lia.
      + rewrite <- (Z.mod_add _ (-1)) in Hr by lia.
        rewrite Z.mod_small in Hr; lia. }
  destruct p as [x y]. destruct d; simpl in *; try done.
  - rewrite (Hw y (y - 1)); [lia | done | lia | lia].
  - rewrite (Hw y (y + 1)); [lia | done | lia | lia].
  - rewrite (Hw x (x - 1)); [lia | done | lia | lia].
  - rewrite (Hw x (x + 1)); [lia | done | lia | lia].
Qed.

Lemma ghost_turn_ext (g g1 : Game) (ghost ghost' : Ghost) :
  (forall p, passable g1 p <-> passable g p) ->
  ghost_turn g1 ghost ghost' -> ghost_turn g ghost ghost'.
Proof.
  intros Hsame [(d & Hd & Hp & ->)|[Hnone ->]].
  - left. exists d. split; [done|]. split; [by apply Hsame | done].
  - right. split; [|done]. intros d Hd Hp. apply (Hnone d Hd). by apply Hsame.
Qed.

Lemma movePlayer_player (g g1 : Game) :
  movePlayer g = Some g1 ->
  let dest := Move (Player g) (PlayerDir g) in
  Player g1 = if decide (PlayerDir g <> DirectionNone /\ passable g dest)
              then dest else Player g.
Proof.
  intros H dest. unfold movePlayer in H. fold dest in H.
  destruct (decide (PlayerDir g = DirectionNone)) as [Hn|Hn].
  - inversion H; subst. rewrite decide_False; [done|]. by intros [? _].
  - destruct (IsValidPosition g dest GameWidth GameHeight) as [[|]|] eqn:Hv;
      simpl in H; [| |done].
    + rewrite decide_True by (split; [done | exact Hv]).
      rewrite cell_setPlayer in H.
      destruct (cell g dest) as [c|]; simpl in H; [|done].
      destruct (c =? dot); by inversion H.
    + inversion H; subst. rewrite decide_False; [done|].
      intros [_ Hp]. unfold passable in Hp. congruence.
Qed.

(** Every way [gameTick] can end without a panic: stopped with nothing
    written, or run on a live session. *)
Lemma gameTick_ran (now : Z) (id : string) (s s' : Service) (err : option error) :
  gameTick now id s = Some (s', err) ->
  (s' = s /\ continue err = false) \/
  (exists l g g',
     id <> EmptyString /\ games s !! id = Some l /\ heap s !! l = Some g /\
     GameOver g = false /\ DotsLeft g <> 0 /\
     tickBody now (rng s) g = Some (rng s', g') /\
     heap s' = <[l := g']> (heap s)).
Proof.
  unfold gameTick. intros H.
  destruct (FindByID id s) as [l|e] eqn:Hf.
  - destruct (FindByID_inl _ _ _ Hf) as [Hid Hl].
    destruct (heap s !! l) as [g|] eqn:Hg; [|done]. simpl in H.
    destruct (GameOver g) eqn:Hover; simpl in H; [left; by inversion H|].
    destruct (Z.eqb_spec (DotsLeft g) 0) as [Hz|Hz]; [left; by inversion H|].
    destruct (tickBody now (rng s) g) as [[r' g']|] eqn:Hbody; [|done].
    simpl in H. unfold Save in H. simpl in H.
    rewrite lookup_insert_eq in H. simpl in H.
    right. exists l, g, g'.
    destruct (decide (ID g' = EmptyString)); simpl in H; inversion H; by subst.
  - left. by inversion H.
Qed.

(** The tick of a live session on a board of the service's shape, with
    the intermediate state after the player's move. *)
Lemma gameTick_steps (now : Z) (id : string) (s : Service) (l : loc) (g : Game) :
  id <> EmptyString -> games s !! id = Some l -> heap s !! l = Some g ->
  board_ok (Board g) -> GameOver g = false -> DotsLeft g <> 0 ->
  exists s' err g1 g',
    gameTick now id s = Some (s', err) /\ heap s' !! l = Some g' /\
    movePlayer g = Some g1 /\
    Forall2 (ghost_turn g) (Ghosts g) (Ghosts g') /\
    g' = setUpdatedAt now (checkCollisions (withGhosts (Ghosts g') g1)).
Proof.
  intros Hid Hl Hg Hok Hover Hd.
  destruct (tickBody_total now (rng s) g Hok) as (r' & g1 & ghosts0 & Hp & _ & Hbody).
  destruct (tickBody_inv _ _ _ _ _ Hbody) as (g1' & ghosts' & Hp' & Hm & Heq).
  assert (g1' = g1) as -> by congruence.
  assert (Hturns : Forall2 (ghost_turn g) (Ghosts g) ghosts').
  { destruct (movePlayer_frame _ _ Hp) as (_ & Hgs & _). rewrite <- Hgs.
    eapply Forall2_impl;
      [exact (moveGhostList_turns g1 _ _ _ _ (movePlayer_board_ok _ _ Hp Hok) Hm)|].
    intros gh gh'. apply ghost_turn_ext. intros p. unfold passable.
    by rewrite (movePlayer_valid _ _ p _ _ Hp). }
  set (g' := setUpdatedAt now (checkCollisions (withGhosts ghosts' g1))).
  assert (HG : Ghosts g' = ghosts').
  { unfold g'. simpl.
    by destruct (checkCollisions_frame (withGhosts ghosts' g1)) as (_ & _ & _ & -> & _). }
  assert (Hbody' : tickBody now (rng s) g = Some (r', g')) by (rewrite Hbody; by rewrite Heq).
  pose proof (gameTick_runs _ _ _ _ _ _ _ Hid Hl Hg Hover Hd Hbody') as Htick.
  destruct (decide (ID g = EmptyString)).
  - do 2 eexists. exists g1, g'. split; [exact Htick|].
    split; [simpl; apply lookup_insert_eq|]. rewrite HG. by repeat split.
  - do 2 eexists. exists g1, g'. split; [exact Htick|].
    split; [simpl; apply lookup_insert_eq|]. rewrite HG. by repeat split.
Qed.

(** In a tick of a live session the player takes the cell its
    pending heading leads to exactly when there is a pending heading and
    that cell is passable, and otherwise stays; the heading stays pending
    either way; and every ghost, in the list's order, steps one cell onto
    a passable cell, or stays as it is when all four of its neighbours
    are impassable. *)
Theorem tick_moves (now : Z) (id : string) (s : Service) (l : loc) (g : Game) :
  id <> EmptyString -> games s !! id = Some l -> heap s !! l = Some g ->
  board_ok (Board g) -> GameOver g = false -> DotsLeft g <> 0 ->
  exists s' err g',
    gameTick now id s = Some (s', err) /\ heap s' !! l = Some g' /\
    Player g' = (if decide (PlayerDir g <> DirectionNone /\
                            passable g (Move (Player g) (PlayerDir g)))
                 then Move (Player g) (PlayerDir g) else Player g) /\
    PlayerDir g' = PlayerDir g /\
    Forall2 (ghost_turn g) (Ghosts g) (Ghosts g').
Proof.
  intros Hid Hl Hg Hok Hover Hd.
  destruct (gameTick_steps now id s l g Hid Hl Hg Hok Hover Hd)
    as (s' & err & g1 & g' & Htick & Hheap & Hp & Hturns & Hg').
  exists s', err, g'. split; [done|]. split; [done|].
  destruct (checkCollisions_frame (withGhosts (Ghosts g') g1))
    as (_ & _ & Hpl & _ & _ & _ & Hdir & _).
  split; [|split; [|done]].
  - rewrite <- (movePlayer_player _ _ Hp). rewrite Hg'. simpl. by rewrite Hpl.
  - destruct (movePlayer_frame _ _ Hp) as (_ & _ & _ & <- & _).
    rewrite Hg'. simpl. by rewrite Hdir.
Qed.

(** Nobody jumps: in a tick of a live session the player and every
    ghost end at most one cell away from where they were. *)
Theorem tick_one_cell (now : Z) (id : string) (s : Service) (l : loc) (g : Game) :
  id <> EmptyString -> games s !! id = Some l -> heap s !! l = Some g ->
  board_ok (Board g) -> GameOver g = false -> DotsLeft g <> 0 ->
  int_pos (Player g) ->
  Forall (fun ghost => int_pos (GhostPosition ghost)) (Ghosts g) ->
  exists s' err g',
    gameTick now id s = Some (s', err) /\ heap s' !! l = Some g' /\
    distance (Player g') (Player g) <= 1 /\
    Forall2 (fun ghost ghost' =>
               distance (GhostPosition ghost') (GhostPosition ghost) <= 1)
      (Ghosts g) (Ghosts g').
Proof.
  intros Hid Hl Hg Hok Hover Hd Hpl Hgh.
  destruct (gameTick_steps now id s l g Hid Hl Hg Hok Hover Hd)
    as (s' & err & g1 & g' & Htick & Hheap & Hp & Hturns & Hg').
  exists s', err, g'. split; [done|]. split; [done|].
  assert (Hzero : forall p, distance p p = 0) by (intros p; unfold distance; lia).
  split.
  - destruct (checkCollisions_frame (withGhosts (Ghosts g') g1)) as (_ & _ & Hpl' & _).
    assert (HP : Player g' = Player g1) by (rewrite Hg'; simpl; by rewrite Hpl').
    rewrite HP, (movePlayer_player _ _ Hp).
    destruct (decide _) as [[Hdir Hpass]|_]; [|rewrite Hzero; lia].
    by rewrite (Move_distance g _ _ Hpl Hdir Hpass).
  - clear -Hturns Hgh Hzero.
    induction Hturns as [|gh gh' ghs ghs' Ht _ IH]; [constructor|].
    inversion Hgh; subst. constructor; [|by apply IH].
    destruct Ht as [(d & Hd & Hp & ->)|[_ ->]]; simpl; [|rewrite Hzero; lia].
    by rewrite (Move_distance g _ _ ltac:(done) Hd Hp).
Qed.

Lemma Equals_eq (p q : Position) : Equals p q = true <-> p = q.
Proof.
  unfold Equals. rewrite andb_true_iff, !Z.eqb_eq.
  destruct p, q; simpl. split; [intros [-> ->]; done | by intros [= -> ->]].
Qed.

(** The terminal flag a tick of a live session leaves is set exactly
    when, after all the moves, a ghost is on the player's cell. *)
Theorem tick_collision (now : Z) (id : string) (s : Service) (l : loc) (g : Game) :
  id <> EmptyString -> games s !! id = Some l -> heap s !! l = Some g ->
  board_ok (Board g) -> GameOver g = false -> DotsLeft g <> 0 ->
  exists s' err g',
    gameTick now id s = Some (s', err) /\ heap s' !! l = Some g' /\
    (GameOver g' = true <->
     exists ghost, ghost ∈ Ghosts g' /\ GhostPosition ghost = Player g').
Proof.
  intros Hid Hl Hg Hok Hover Hd.
  destruct (gameTick_steps now id s l g Hid Hl Hg Hok Hover Hd)
    as (s' & err & g1 & g' & Htick & Hheap & Hp & Hturns & Hg').
  exists s', err, g'. split; [done|]. split; [done|].
  destruct (checkCollisions_frame (withGhosts (Ghosts g') g1))
    as (_ & _ & Hpl & _ & _ & _ & _ & _ & _ & Hover').
  assert (HP : Player g' = Player g1) by (rewrite Hg'; simpl; by rewrite Hpl).
  assert (HO : GameOver g' =
               existsb (fun ghost => Equals (Player g1) (GhostPosition ghost)) (Ghosts g')).
  { rewrite Hg' at 1. simpl. rewrite Hover'. simpl.
    destruct (movePlayer_frame _ _ Hp) as (_ & _ & -> & _). by rewrite Hover. }
  rewrite HO, HP, existsb_exists. split.
  - intros (gh & Hin & Heq). exists gh. split; [by apply list_elem_of_In|].
    symmetry. by apply Equals_eq.
  - intros (gh & Hin & Heq). exists gh. split; [by apply list_elem_of_In|].
    apply Equals_eq. by symmetry.
Qed.

Lemma tick_moves_witness :
  let s := holding (setPlayerDir DirectionRight 0 freshGame) [99; 99; 99] in
  exists s' err g',
    gameTick 1 "s" s = Some (s', err) /\ heap s' !! 0%nat = Some g' /\
    Player g' = mkPosition 2 1 /\
    PlayerDir g' = DirectionRight /\
    Forall2 (ghost_turn (setPlayerDir DirectionRight 0 freshGame))
      (Ghosts freshGame) (Ghosts g').
Proof.
  refine (tick_moves 1 "s" (holding (setPlayerDir DirectionRight 0 freshGame) [99; 99; 99])
            0%nat (setPlayerDir DirectionRight 0 freshGame) _ _ _ _ _ _).
  - evaluate.
  - evaluate.
  - evaluate.
  - evaluate_board.
  - evaluate.
  - evaluate.
Defined.

Lemma tick_one_cell_witness :
  let s := holding (setPlayerDir DirectionRight 0 freshGame) [99; 99; 99] in
  exists s' err g',
    gameTick 1 "s" s = Some (s', err) /\ heap s' !! 0%nat = Some g' /\
    distance (Player g') (Player freshGame) <= 1 /\
    Forall2 (fun ghost ghost' =>
               distance (GhostPosition ghost') (GhostPosition ghost) <= 1)
      (Ghosts freshGame) (Ghosts g').
Proof.
  refine (tick_one_cell 1 "s" (holding (setPlayerDir DirectionRight 0 freshGame) [99; 99; 99])
            0%nat (setPlayerDir DirectionRight 0 freshGame) _ _ _ _ _ _ _ _).
  - evaluate.
  - evaluate.
  - evaluate.
  - evaluate_board.
  - evaluate.
  - evaluate.
  - evaluate.
  - repeat constructor; evaluate.
Defined.

Lemma tick_collision_witness :
  exists s' err g',
    gameTick 1 "s" (holding cornered [99]) = Some (s', err) /\
    heap s' !! 0%nat = Some g' /\
    (GameOver g' = true <->
     exists ghost, ghost ∈ Ghosts g' /\ GhostPosition ghost = Player g').
Proof.
  refine (tick_collision 1 "s" (holding cornered [99]) 0%nat cornered _ _ _ _ _ _).
  - evaluate.
  - evaluate.
  - evaluate.
  - evaluate_board.
  - evaluate.
  - evaluate.
Defined.

(** ** Headings as text *)

Lemma ParseDirection_ok (s : string) (d : Direction) :
  ParseDirection s = (d, true) -> d <> DirectionNone /\ DirectionString d = s.
Proof.
  unfold ParseDirection.
  repeat (destruct (decide _) as [->|?]; [intros [= <-]; by split|]).
  done.
Qed.

(** A heading is read back from the text [DirectionString] prints for
    it; ["none"] is not accepted as a heading, and whatever
    [ParseDirection] accepts is one of the four headings, printed as the
    text that was read. *)
Theorem ParseDirection_String (d : Direction) (s : string) :
  ParseDirection (DirectionString d)
  = (d, if decide (d = DirectionNone) then false else true) /\
  (snd (ParseDirection s) = true ->
     fst (ParseDirection s) <> DirectionNone /\
     DirectionString (fst (ParseDirection s)) = s) /\
  (snd (ParseDirection s) = false -> fst (ParseDirection s) = DirectionNone).
Proof.
  split; [by destruct d|]. split.
  - intros Hok. apply ParseDirection_ok.
    destruct (ParseDirection s) as [d' b]. simpl in *. by subst.
  - unfold ParseDirection. by repeat (destruct (decide _); [done|]).
Qed.

(** ** The score *)

Lemma initializeGame_fields (now : Z) (id : string) (g : Game) :
  initializeGame now id = Some g ->
  Score g = 0 /\ DotsLeft g = mazeDots /\ GameOver g = false /\
  PlayerDir g = DirectionNone /\ Player g = mkPosition 1 1 /\
  CreatedAt g = now /\ UpdatedAt g = now.
Proof.
  unfold initializeGame.
  assert (Hb : buildBoard 0 (Z.to_nat GameHeight) = Some (Board freshGame, 164))
    by (vm_compute; reflexivity).
  rewrite Hb. simpl. by intros [= <-].
Qed.

Lemma tickBody_accounted (now : Z) (r r' : Rng) (g g' : Game) :
  tickBody now r g = Some (r', g') -> consistent g -> accounted g -> accounted g'.
Proof.
  intros H Hc Ha. destruct (tickBody_inv _ _ _ _ _ H) as (g1 & ghosts' & Hp & _ & ->).
  destruct (consistent_room g Hc) as (Hr1 & Hr2 & _).
  destruct (checkCollisions_frame (withGhosts ghosts' g1))
    as (_ & _ & _ & _ & Hs & Hd & _).
  unfold accounted in *. simpl. rewrite Hs, Hd. simpl.
  destruct (movePlayer_counters _ _ Hp) as [[-> ->]|[-> ->]]; [done|].
  rewrite !wrap_id by done. unfold ScorePerDot in *. lia.
Qed.

Lemma reachable_accounted (s : Service) :
  reachable s -> forall l g, heap s !! l = Some g -> accounted g.
Proof.
  induction 1 as [r|s s' now id err Hr IH H|s s' rq Hr IH H|s id Hr IH];
    intros l g Hg.
  - simpl in Hg. by rewrite lookup_empty in Hg.
  - unfold CreateGame in H.
    destruct (decide (id = EmptyString)); [inversion H; subst; by eapply IH|].
    destruct (initializeGame now id) as [g0|] eqn:Hi; [|done]. simpl in H.
    unfold Save in H. simpl in H. rewrite lookup_insert_eq in H. simpl in H.
    assert (Hh : heap s' = <[next s := g0]> (heap s))
      by (destruct (decide (ID g0 = EmptyString)); simpl in H; inversion H; by subst).
    rewrite Hh in Hg. destruct (decide (l = next s)) as [->|Hne].
    + rewrite lookup_insert_eq in Hg. inversion Hg; subst.
      destruct (initializeGame_fields _ _ _ Hi) as (Hs & Hd & _).
      unfold accounted. rewrite Hs, Hd. lia.
    + rewrite lookup_insert_ne in Hg by done. by eapply IH.
  - destruct rq as [now id|now id dir]; simpl in H.
    + destruct (gameTick now id s) as [[s1 err]|] eqn:Ht; [|done].
      simpl in H. inversion H; subst s1.
      destruct (gameTick_writes _ _ _ _ _ Ht)
        as [->|(l0 & g0 & g0' & _ & Hg0 & Hb & Hh & _)]; [by eapply IH|].
      rewrite Hh in Hg. destruct (decide (l = l0)) as [->|Hne].
      * rewrite lookup_insert_eq in Hg. inversion Hg; subst.
        eapply tickBody_accounted; [done| |by eapply IH].
        by eapply (wf_heap _ (reachable_wf _ Hr)).
      * rewrite lookup_insert_ne in Hg by done. by eapply IH.
    + destruct (SetPlayerDirection now id dir s) as [[s1 err]|] eqn:Ht; [|done].
      simpl in H. inversion H; subst s1.
      destruct (SetPlayerDirection_writes _ _ _ _ _ _ Ht)
        as [->|(l0 & g0 & _ & Hg0 & Hh & _)]; [by eapply IH|].
      rewrite Hh in Hg. destruct (decide (l = l0)) as [->|Hne].
      * rewrite lookup_insert_eq in Hg. inversion Hg; subst.
        unfold accounted. simpl. by eapply IH.
      * rewrite lookup_insert_ne in Hg by done. by eapply IH.
  - unfold Delete in Hg. destruct (decide (id = EmptyString)); by eapply IH.
Qed.

(** In every state the service can reach, the score of a stored session
    is [ScorePerDot] = 10 times the number of dots collected, the dots
    collected and the dots left making up the 164 dots of the maze. *)
Theorem reachable_score (s : Service) (id : string) (g : Game) :
  reachable s -> session s id = Some g ->
  Score g = 10 * (164 - DotsLeft g) /\ 0 <= DotsLeft g <= 164.
Proof.
  intros Hr Hs. unfold session in Hs.
  destruct (games s !! id) as [l|]; [|done]. simpl in Hs.
  pose proof (reachable_accounted s Hr l g Hs) as Ha.
  pose proof (wf_heap _ (reachable_wf _ Hr) l g Hs) as Hc.
  destruct (consistent_room g Hc) as (_ & _ & _ & Hd).
  pose proof (cons_score _ Hc).
  unfold accounted, mazeDots, ScorePerDot in Ha. lia.
Qed.

(** ** Sessions do not interfere, and nothing panics *)

Lemma serve_writes (rq : request) (s s' : Service) :
  serve rq s = Some s' ->
  s' = s \/
  (exists l g g',
     games s !! target rq = Some l /\ heap s !! l = Some g /\ ID g' = ID g /\
     heap s' = <[l := g']> (heap s) /\
     (games s' = games s \/ games s' = <[ID g' := l]> (games s))).
Proof.
  intros H. destruct rq as [now id|now id dir]; simpl in *.
  - destruct (gameTick now id s) as [[s1 err]|] eqn:Ht; [|done].
    simpl in H. inversion H; subst s1.
    destruct (gameTick_writes _ _ _ _ _ Ht)
      as [->|(l & g & g' & Hl & Hg & Hb & Hh & _ & Hgs)]; [by left|].
    right. exists l, g, g'. repeat split; try done.
    by destruct (tickBody_frame _ _ _ _ _ Hb) as (-> & _).
  - destruct (SetPlayerDirection now id dir s) as [[s1 err]|] eqn:Ht; [|done].
    simpl in H. inversion H; subst s1.
    destruct (SetPlayerDirection_writes _ _ _ _ _ _ Ht)
      as [->|(l & g & Hl & Hg & Hh & _ & Hgs)]; [by left|].
    right. exists l, g, (setPlayerDir dir now g). by repeat split.
Qed.

Lemma serve_total (rq : request) (s : Service) :
  wf_service s -> is_Some (serve rq s).
Proof.
  intros [Hk Hh _]. destruct rq as [now id|now id dir]; simpl.
  - destruct (games s !! id) as [l|] eqn:Hl.
    + destruct (Hk _ _ Hl) as (_ & g & Hg & _).
      destruct (gameTick_session now id s l g Hl Hg (cons_board _ (Hh _ _ Hg)))
        as [(err & -> & _)|(_ & _ & _ & s' & err & _ & _ & _ & -> & _)]; by eexists.
    + unfold gameTick, FindByID. destruct (decide _); [by eexists|].
      rewrite Hl. by eexists.
  - unfold SetPlayerDirection, FindByID. destruct (decide _); [by eexists|].
    destruct (games s !! id) as [l|] eqn:Hl; [|by eexists].
    destruct (Hk _ _ Hl) as (_ & g & Hg & _). rewrite Hg. simpl.
    unfold Save. simpl. rewrite lookup_insert_eq. simpl.
    destruct (decide _); by eexists.
Qed.

(** A request leaves the sessions it does not name as they were. *)
Lemma serve_others (rq : request) (s s' : Service) (id : string) :
  wf_service s -> serve rq s = Some s' -> id <> target rq ->
  session s' id = session s id.
Proof.
  intros Hwf Hs Hid.
  destruct (serve_writes _ _ _ Hs)
    as [->|(l & g & g' & Hl & Hg & HID & Hh & Hgs)]; [done|].
  destruct (wf_keys _ Hwf _ _ Hl) as (_ & g0 & Hg0 & HID0).
  assert (g0 = g) as -> by congruence.
  assert (Hgames : games s' !! id = games s !! id).
  { destruct Hgs as [->| ->]; [done|]. rewrite lookup_insert_ne; [done|]. congruence. }
  unfold session. rewrite Hgames.
  destruct (games s !! id) as [l'|] eqn:Hl'; [|done]. simpl.
  rewrite Hh. rewrite lookup_insert_ne; [done|].
  intros <-. destruct (wf_keys _ Hwf _ _ Hl') as (_ & g1 & Hg1 & HID1).
  congruence.
Qed.

(** In every state the service can reach, a tick or a heading request
    completes without a panic, and it leaves every session but the one it
    names exactly as it was. *)
Theorem serve_isolated (rq : request) (s : Service) :
  reachable s ->
  exists s', serve rq s = Some s' /\
    forall id, id <> target rq -> session s' id = session s id.
Proof.
  intros Hr. pose proof (reachable_wf s Hr) as Hwf.
  destruct (serve_total rq s Hwf) as [s' Hs]. exists s'. split; [done|].
  intros id Hid. by apply (serve_others rq).
Qed.

(** ** The repository: what is saved is found *)

(** Saving an object with a non-empty ID files it under that ID: it is
    found and exists there, the other keys and every stored object are
    as before. *)
Theorem Save_FindByID (l : loc) (s : Service) (g : Game) :
  heap s !! l = Some g -> ID g <> EmptyString ->
  exists s',
    Save l s = Some (s', None) /\
    FindByID (ID g) s' = inl l /\ Exists (ID g) s' = true /\
    (forall id, id <> ID g ->
       FindByID id s' = FindByID id s /\ Exists id s' = Exists id s) /\
    heap s' = heap s.
Proof.
  intros Hg HID. unfold Save. rewrite Hg. simpl. rewrite decide_False by done.
  eexists. split; [done|]. unfold FindByID, Exists. simpl.
  rewrite !decide_False by done. rewrite lookup_insert_eq.
  split; [done|]. split; [by rewrite bool_decide_eq_true_2|]. split; [|done].
  intros id Hid. rewrite lookup_insert_ne by done. done.
Qed.

(** Deleting a non-empty ID always succeeds: afterwards the ID is not
    found and does not exist, the other keys are as before, and when the
    ID was not stored nothing changes at all. *)
Theorem Delete_FindByID (id : string) (s : Service) :
  id <> EmptyString ->
  exists s',
    Delete id s = (s', None) /\
    FindByID id s' = inr (ErrGameNotFound id) /\ Exists id s' = false /\
    (forall id', id' <> id ->
       FindByID id' s' = FindByID id' s /\ Exists id' s' = Exists id' s) /\
    (games s !! id = None -> s' = s) /\
    Delete id s' = (s', None).
Proof.
  intros Hid. unfold Delete at 1. rewrite decide_False by done.
  eexists. split; [done|]. unfold FindByID, Exists, Delete. simpl.
  rewrite !decide_False by done. rewrite lookup_delete_eq.
  split; [done|]. split.
  { rewrite bool_decide_eq_false_2; [done|]. by intros [x Hx]. }
  split; [|split].
  - intros id' Hid'. by rewrite lookup_delete_ne.
  - intros Hnone. rewrite (delete_id _ _ Hnone). by destruct s.
  - f_equal. f_equal. apply delete_id. apply lookup_delete_eq.
Qed.

(** ** CreateGame *)

Lemma initializeGame_total (now : Z) (id : string) :
  is_Some (initializeGame now id).
Proof.
  unfold initializeGame.
  assert (Hb : buildBoard 0 (Z.to_nat GameHeight) = Some (Board freshGame, 164))
    by (vm_compute; reflexivity).
  rewrite Hb. by eexists.
Qed.

Lemma CreateGame_fresh (now : Z) (id : string) (s : Service) :
  wf_service s -> id <> EmptyString ->
  exists s' g,
    CreateGame now id s = Some (s', None) /\
    GetGame id s' = inl (next s) /\ heap s' !! next s = Some g /\
    session s' id = Some g /\
    initializeGame now id = Some g /\
    (forall id', id' <> id -> session s' id' = session s id').
Proof.
  intros [Hk Hh Hn] Hid.
  destruct (initializeGame_total now id) as [g Hi].
  destruct (initializeGame_consistent _ _ _ Hi) as (_ & HID & _).
  unfold CreateGame. rewrite decide_False by done. rewrite Hi. simpl.
  unfold Save. simpl. rewrite lookup_insert_eq. simpl.
  rewrite HID. rewrite decide_False by done. simpl.
  eexists _, g. split; [done|].
  unfold GetGame, FindByID, session. simpl. rewrite !decide_False by done.
  rewrite !lookup_insert_eq. simpl. rewrite lookup_insert_eq.
  repeat split; try done.
  intros id' Hid'. rewrite lookup_insert_ne by done.
  destruct (games s !! id') as [l'|] eqn:Hl'; [|done]. simpl.
  rewrite lookup_insert_ne; [done|].
  intros <-. destruct (Hk _ _ Hl') as (_ & g0 & Hg0 & _).
  rewrite Hn in Hg0; [done | lia].
Qed.


(** ** Stopping, deleting and restarting *)

Lemma cancel_lookup (h h' : nat) (ls : gmap nat Loop) :
  cancel h ls !! h' = if decide (h = h') then cancelled <$> ls !! h' else ls !! h'.
Proof.
  unfold cancel. destruct (decide (h = h')) as [->|Hne].
  - by rewrite lookup_alter_eq.
  - by rewrite lookup_alter_ne.
Qed.

(** [stopGameLoop] cancels the registered goroutine of the session and
    drops the entry; other entries, other goroutines and the store are
    untouched; with no entry it does nothing. *)
Lemma stopGameLoop_spec (id : string) (sys : System) :
  let sys' := stopGameLoop id sys in
  service sys' = service sys /\
  gameLoops sys' = delete id (gameLoops sys) /\
  spawned sys' = spawned sys /\
  (forall h, loops sys' !! h =
             if decide (gameLoops sys !! id = Some h)
             then cancelled <$> loops sys !! h else loops sys !! h) /\
  (gameLoops sys !! id = None -> sys' = sys).
Proof.
  unfold stopGameLoop. destruct (gameLoops sys !! id) as [h0|] eqn:Hreg; simpl.
  - repeat split; [|done]. intros h. rewrite cancel_lookup.
    destruct (decide (h0 = h)) as [->|Hne].
    + by rewrite decide_True.
    + rewrite decide_False; [done|]. congruence.
  - repeat split; try done. by rewrite delete_id.
Qed.

(** Deleting a session under a non-empty ID succeeds: the session is
    gone from the store, its registered loop is cancelled and
    unregistered, the other sessions, registrations and goroutines are as
    before, and deleting again changes nothing. *)
Theorem DeleteGame_removes (id : string) (sys : System) :
  id <> EmptyString ->
  exists sys',
    DeleteGame id sys = (sys', None) /\
    FindByID id (service sys') = inr (ErrGameNotFound id) /\
    gameLoops sys' !! id = None /\
    (forall h, loops sys' !! h =
               if decide (gameLoops sys !! id = Some h)
               then cancelled <$> loops sys !! h else loops sys !! h) /\
    (forall id', id' <> id ->
       session (service sys') id' = session (service sys) id' /\
       gameLoops sys' !! id' = gameLoops sys !! id') /\
    DeleteGame id sys' = (sys', None).
Proof.
  intros Hid. unfold DeleteGame, stopGameLoop, Delete, FindByID, session.
  destruct (gameLoops sys !! id) as [h0|] eqn:Hreg; simpl;
    destruct (decide (id = EmptyString)) as [|_]; try done; simpl.
  - eexists. split; [done|]. simpl. rewrite !lookup_delete_eq.
    split; [done|]. split; [done|]. split; [|split].
    + intros h. rewrite cancel_lookup.
      destruct (decide (h0 = h)) as [->|Hne].
      * by rewrite decide_True.
      * rewrite decide_False; [done|]. congruence.
    + intros id' Hid'. by rewrite !lookup_delete_ne.
    + f_equal. f_equal. f_equal. apply delete_id. apply lookup_delete_eq.
  - eexists. split; [done|]. simpl. rewrite Hreg, !lookup_delete_eq.
    split; [done|]. split; [done|]. split; [|split].
    + done.
    + intros id' Hid'. by rewrite !lookup_delete_ne.
    + f_equal. f_equal. f_equal. apply delete_id. apply lookup_delete_eq.
Qed.

(** A loop whose session is gone from the store, or is over or won,
    ends at its next tick: [gameTick] fails, the goroutine returns, the
    registry entry of its session is deleted, and the store is as it
    was. *)
Theorem loop_ends (now : Z) (h : nat) (sys : System) (l : Loop) :
  loops sys !! h = Some l -> loopTicking l = true ->
  games (service sys) !! loopSession l = None \/
  (exists g, session (service sys) (loopSession l) = Some g /\
             (GameOver g = true \/ DotsLeft g = 0)) ->
  exists sys',
    step (EvTickEnd now h) sys = Some sys' /\
    loops sys' !! h = None /\
    gameLoops sys' !! loopSession l = None /\
    service sys' = service sys /\
    (forall h', h' <> h -> loops sys' !! h' = loops sys !! h').
Proof.
  intros Hl Ht Hgone. simpl. rewrite Hl. simpl. rewrite Ht.
  assert (Htick : exists err, gameTick now (loopSession l) (service sys)
                              = Some (service sys, err) /\ continue err = false).
  { destruct Hgone as [Hnone|(g & Hs & Hend)].
    - unfold gameTick, FindByID. destruct (decide _); [by eexists|].
      rewrite Hnone. by eexists.
    - by apply (gameTick_stopped now _ _ g). }
  destruct Htick as (err & -> & Hc). simpl. rewrite Hc.
  eexists. split; [done|]. unfold loopReturns, cleanupGameLoop. simpl.
  rewrite !lookup_delete_eq. repeat split.
  intros h' Hh'. by rewrite lookup_delete_ne.
Qed.

(** After a session with a running, registered loop is deleted, the loop
    ends whichever branch its [select] takes next: on [ctx.Done()] it
    returns at once, and on the ticker its tick fails for want of the
    session and it returns. *)
Theorem DeleteGame_ends_loop (now : Z) (id : string) (h : nat) (sys : System) (l : Loop) :
  id <> EmptyString ->
  gameLoops sys !! id = Some h -> loops sys !! h = Some l ->
  loopSession l = id -> loopTicking l = false ->
  let sys' := fst (DeleteGame id sys) in
  (exists sys1, step (EvDone h) sys' = Some sys1 /\ loops sys1 !! h = None) /\
  (exists sys2, steps [EvTickBegin h; EvTickEnd now h] sys' = Some sys2 /\
                loops sys2 !! h = None).
Proof.
  intros Hid Hreg Hl Hsid Ht sys'.
  assert (Hsys' : sys' = mkSystem
            (mkService (delete id (games (service sys))) (heap (service sys))
               (next (service sys)) (rng (service sys)))
            (delete id (gameLoops sys)) (cancel h (loops sys)) (spawned sys)).
  { unfold sys', DeleteGame, stopGameLoop, Delete. rewrite Hreg. simpl.
    by rewrite decide_False. }
  assert (Hl' : loops sys' !! h = Some (cancelled l)).
  { rewrite Hsys'. simpl. rewrite cancel_lookup, decide_True by done. by rewrite Hl. }
  split.
  - simpl. rewrite Hl'. simpl. rewrite Ht. simpl.
    eexists. split; [done|]. unfold loopReturns, cleanupGameLoop. simpl.
    apply lookup_delete_eq.
  - simpl. rewrite Hl'. simpl. rewrite Ht. simpl.
    rewrite lookup_insert_eq. simpl. rewrite Hsid.
    assert (Htick : gameTick now id (service sys')
                    = Some (service sys',
                            Some (ErrWrap "game not found" (ErrGameNotFound id)))).
    { unfold gameTick, FindByID. rewrite decide_False by done.
      rewrite Hsys'. simpl. by rewrite lookup_delete_eq. }
    rewrite Htick. simpl.
    eexists. split; [done|]. unfold loopReturns, cleanupGameLoop. simpl.
    apply lookup_delete_eq.
Qed.

(** ** abs *)

(** [abs] is the absolute value on every [int] but the least, which it
    returns as it is: the only [int] whose [abs] is negative. *)
Theorem abs_spec (x : Z) :
  is_int x ->
  abs x = (if decide (x = min_int) then min_int else Z.abs x) /\
  (abs x < 0 <-> x = min_int).
Proof.
  intros Hx. unfold abs, is_int, min_int, max_int in *.
  assert (Hmin : wrap (2 ^ 63) = - 2 ^ 63) by (vm_compute; reflexivity).
  destruct (decide (x = - 2 ^ 63)) as [->|Hne].
  - change (- 2 ^ 63 <? 0) with true. simpl (if true then _ else _).
    rewrite Z.opp_involutive, Hmin. split; [done|]. split; [done|lia].
  - destruct (Z.ltb_spec x 0).
    + rewrite wrap_id by (unfold is_int, min_int, max_int; lia).
      split; [lia|]. split; [lia|done].
    + split; [lia|]. split; [lia|done].
Qed.

(** ** The snapshot of a session *)

Lemma mapM_seq {A B : Type} (f : nat -> option B) (h : A -> B) (l : list A) (k n : nat) :
  (forall j x, l !! j = Some x -> (k <= j < k + n)%nat -> f j = Some (h x)) ->
  (k + n <= length l)%nat ->
  mapM f (seq k n) = Some (map h (take n (drop k l))).
Proof.
  revert k. induction n as [|n IH]; intros k Hf Hlen; simpl; [done|].
  destruct (lookup_lt_is_Some_2 l k ltac:(lia)) as [x Hx].
  rewrite (Hf k x Hx ltac:(lia)). simpl.
  rewrite (IH (S k)); [|intros j y Hy Hj; apply (Hf j y Hy); lia|lia]. simpl.
  by rewrite (drop_S _ _ _ Hx).
Qed.

Lemma byte_inj (a b : Z) :
  0 <= a < 256 -> 0 <= b < 256 -> byte a = byte b -> a = b.
Proof.
  intros Ha Hb H. unfold byte in H.
  assert (HN : Z.to_N a = Z.to_N b).
  { rewrite <- (Ascii.N_ascii_embedding (Z.to_N a)) by lia.
    rewrite <- (Ascii.N_ascii_embedding (Z.to_N b)) by lia. by rewrite H. }
  lia.
Qed.

(** A cell is shown as ["."] exactly when it holds a dot. *)
Lemma encodeRune_dot (c : rune) : encodeRune c = "."%string <-> c = dot.
Proof.
  split; [|by intros ->].
  unfold encodeRune.
  destruct (_ || _) eqn:Hbad; [done|].
  destruct (Z.ltb_spec c 128) as [Hc|Hc].
  - intros [= H]. apply orb_false_elim in Hbad as [Hbad _].
    apply orb_false_elim in Hbad as [Hneg _].
    apply Z.ltb_ge in Hneg.
    change "."%char with (byte 46) in H.
    apply byte_inj in H; [done|lia|lia].
  - by repeat destruct (_ <? _).
Qed.

Lemma shownDotsIn_map (row : list rune) :
  shownDotsIn (map encodeRune row) = dotsIn row.
Proof.
  induction row as [|c row IH]; simpl; [done|]. rewrite IH. f_equal.
  destruct (Z.eqb_spec c dot) as [->|Hne]; [done|].
  rewrite decide_False; [done|]. by rewrite encodeRune_dot.
Qed.

Lemma shownDots_map (board : list (list rune)) :
  shownDots (map (map encodeRune) board) = countDots board.
Proof.
  induction board as [|row board IH]; simpl; [done|].
  by rewrite IH, shownDotsIn_map.
Qed.

(** [ToGameState] copies the window of [width] columns and [height] rows
    at the top left of the board, cell by cell. *)
Lemma ToGameState_window (g : Game) (width height : Z) :
  0 <= width -> 0 <= height ->
  (Z.to_nat height <= length (Board g))%nat ->
  Forall (fun row : list rune => (Z.to_nat width <= length row)%nat)
    (take (Z.to_nat height) (Board g)) ->
  ToGameState g width height
  = Some (mkGameState
            (map (fun row => map encodeRune (take (Z.to_nat width) row))
               (take (Z.to_nat height) (Board g)))
            (Player g) (map GhostPosition (Ghosts g))
            (Score g) (DotsLeft g) (GameOver g) (DotsLeft g =? 0)).
Proof.
  intros Hw Hh Hrows Hcols. unfold ToGameState.
  destruct (Z.ltb_spec height 0); [lia|].
  rewrite (mapM_seq (stateRow g width)
             (fun row => map encodeRune (take (Z.to_nat width) row)) (Board g));
    [done| |lia].
  intros i row Hrow Hi. unfold stateRow.
  destruct (Z.ltb_spec width 0); [lia|].
  rewrite (mapM_seq _ encodeRune row); [done| |].
  - intros j c Hc _. by rewrite Hrow; simpl; rewrite Hc.
  - simpl. eapply (Forall_lookup_1 _ _ i row) in Hcols; [done|].
    rewrite lookup_take_lt by lia. done.
Qed.

Lemma ToGameState_board_ok (g : Game) :
  board_ok (Board g) ->
  ToGameState g GameWidth GameHeight
  = Some (mkGameState (map (map encodeRune) (Board g))
            (Player g) (map GhostPosition (Ghosts g))
            (Score g) (DotsLeft g) (GameOver g) (DotsLeft g =? 0)).
Proof.
  intros [Hrows Hcols].
  rewrite ToGameState_window; [|done|done|lia|].
  - rewrite <- Hrows, firstn_all. do 2 f_equal.
    apply map_ext_Forall. eapply Forall_impl; [exact Hcols|].
    intros row Hrow. simpl. by rewrite <- Hrow, firstn_all.
  - apply Forall_take. eapply Forall_impl; [exact Hcols|]. intros row. simpl. lia.
Qed.

(** [ToGameState] copies the top-left window of the board cell by cell,
    each cell as the text of its rune, with the positions and counters
    as they are and [Won] set exactly when no dot is left; and it panics
    when a size is negative or a cell of the window is missing from the
    board. *)
Theorem ToGameState_spec (g : Game) (width height : Z) :
  (0 <= width -> 0 <= height ->
   (Z.to_nat height <= length (Board g))%nat ->
   Forall (fun row : list rune => (Z.to_nat width <= length row)%nat)
     (take (Z.to_nat height) (Board g)) ->
   exists st,
     ToGameState g width height = Some st /\
     StateBoard st = map (fun row => map encodeRune (take (Z.to_nat width) row))
                       (take (Z.to_nat height) (Board g)) /\
     StatePlayer st = Player g /\
     StateGhosts st = map GhostPosition (Ghosts g) /\
     StateScore st = Score g /\ StateDotsLeft st = DotsLeft g /\
     StateGameOver st = GameOver g /\
     (StateWon st = true <-> DotsLeft g = 0)) /\
  (height < 0 \/ (0 < height /\ width < 0) \/
   (exists x y, 0 <= x < width /\ 0 <= y < height /\
                cell g (mkPosition x y) = None) ->
   ToGameState g width height = None).
Proof.
  split.
  - intros Hw Hh Hrows Hcols. eexists.
    split; [by apply ToGameState_window|]. simpl.
    repeat split; try done; by apply Z.eqb_eq.
  - intros Hbad. unfold ToGameState.
    destruct (Z.ltb_spec height 0) as [|Hh]; [done|].
    destruct (mapM (stateRow g width) (seq 0 (Z.to_nat height))) as [board|] eqn:Hm;
      [|done].
    exfalso. assert (Hs : is_Some (mapM (stateRow g width) (seq 0 (Z.to_nat height))))
      by (by eexists).
    apply mapM_is_Some in Hs. rewrite Forall_forall in Hs.
    destruct Hbad as [?|[[Hh' Hw]|(x & y & Hx & Hy & Hc)]]; [lia| |].
    + destruct (Hs 0%nat) as [row Hrow].
      { apply elem_of_seq. lia. }
      unfold stateRow in Hrow. by destruct (Z.ltb_spec width 0); [|lia].
    + destruct (Hs (Z.to_nat y)) as [row Hrow].
      { apply elem_of_seq. lia. }
      unfold stateRow in Hrow. destruct (Z.ltb_spec width 0); [done|].
      assert (Hs' : is_Some (mapM (fun j : nat =>
                                     row ← Board g !! Z.to_nat y; encodeRune <$> row !! j)
                               (seq 0 (Z.to_nat width)))) by (by eexists).
      apply mapM_is_Some in Hs'. rewrite Forall_forall in Hs'.
      destruct (Hs' (Z.to_nat x)) as [c Hcell].
      { apply elem_of_seq. lia. }
      unfold cell, index in Hc. simpl in *.
      rewrite !decide_True in Hc by lia.
      destruct (Board g !! Z.to_nat y) as [r|]; simpl in *; [|done].
      rewrite decide_True in Hc by lia. by rewrite Hc in Hcell.
Qed.

(** In every state the service can reach, the state of a stored session
    is returned without a panic: the board cell by cell as text, the
    positions, the counters and the terminal flag as stored.  The cells
    shown as ["."] are as many as [dotsLeft] says, the score is 10 for
    each of the maze's 164 dots that is no longer shown, and [won] is set
    exactly when no dot is shown. *)
Theorem GetGameState_reachable (s : Service) (id : string) (g : Game) :
  reachable s -> session s id = Some g ->
  exists st,
    GetGameState id s = Some (inl st) /\
    StateBoard st = map (map encodeRune) (Board g) /\
    StatePlayer st = Player g /\
    StateGhosts st = map GhostPosition (Ghosts g) /\
    StateGameOver st = GameOver g /\
    shownDots (StateBoard st) = StateDotsLeft st /\
    StateScore st = 10 * (164 - shownDots (StateBoard st)) /\
    (StateWon st = true <-> shownDots (StateBoard st) = 0).
Proof.
  intros Hr Hs. pose proof (reachable_wf s Hr) as Hwf. unfold session in Hs.
  destruct (games s !! id) as [l|] eqn:Hl; [|done]. simpl in Hs.
  destruct (wf_keys _ Hwf _ _ Hl) as (Hid & _).
  pose proof (wf_heap _ Hwf _ _ Hs) as Hc.
  pose proof (reachable_accounted s Hr l g Hs) as Ha.
  unfold GetGameState, FindByID. rewrite decide_False by done.
  rewrite Hl, Hs. simpl. rewrite (ToGameState_board_ok g (cons_board _ Hc)). simpl.
  eexists. split; [done|]. simpl. rewrite shownDots_map, <- (cons_dots _ Hc).
  unfold accounted, mazeDots, ScorePerDot in Ha.
  repeat split; try done; by apply Z.eqb_eq.
Qed.

(** ** RestartGame *)

(** Restarting a session under a non-empty ID, in any state the service
    can reach, succeeds whether or not the session was stored: the
    session found afterwards is the one [initializeGame] builds, whatever
    was stored before; the loop registered for the session is cancelled
    and unregistered, so that no loop is registered for it; the other
    sessions, registrations and goroutines are as they were. *)
Theorem RestartGame_fresh (now : Z) (id : string) (sys : System) :
  reachable (service sys) -> id <> EmptyString ->
  exists sys' l g,
    RestartGame now id sys = Some (sys', None) /\
    GetGame id (service sys') = inl l /\ heap (service sys') !! l = Some g /\
    initializeGame now id = Some g /\
    gameLoops sys' !! id = None /\
    (forall h, loops sys' !! h =
               if decide (gameLoops sys !! id = Some h)
               then cancelled <$> loops sys !! h else loops sys !! h) /\
    (forall id', id' <> id ->
       session (service sys') id' = session (service sys) id' /\
       gameLoops sys' !! id' = gameLoops sys !! id').
Proof.
  intros Hr Hid. unfold RestartGame.
  destruct (stopGameLoop_spec id sys) as (Hsv & Hgl & _ & Hls & _).
  rewrite Hsv.
  pose proof (Delete_wf id _ (reachable_wf _ Hr)) as Hwf.
  destruct (CreateGame_fresh now id _ Hwf Hid)
    as (s3 & g & Hc & Hget & Hg & _ & Hi & Hothers).
  rewrite Hc. simpl. eexists _, _, g. split; [done|]. simpl.
  split; [exact Hget|]. split; [exact Hg|]. split; [done|].
  split; [by rewrite Hgl, lookup_delete_eq|]. split; [exact Hls|].
  intros id' Hid'. split.
  - rewrite (Hothers id' Hid'). unfold Delete, session.
    rewrite decide_False by done. simpl. by rewrite lookup_delete_ne.
  - by rewrite Hgl, lookup_delete_ne.
Qed.

(** ** A session over a sequence of requests *)

(** What one request does to a stored session: nothing, a new heading,
    or a tick of the session while it is live. *)
Lemma serve_step (rq : request) (s s' : Service) (id : string) (g : Game) :
  wf_service s -> serve rq s = Some s' -> session s id = Some g ->
  exists g', session s' id = Some g' /\
    (g' = g \/
     (exists dir now, g' = setPlayerDir dir now g) \/
     (GameOver g = false /\ DotsLeft g <> 0 /\
      exists now r r', tickBody now r g = Some (r', g'))).
Proof.
  intros Hwf Hs Hg.
  destruct (decide (id = target rq)) as [->|Hne];
    [|exists g; split; [by rewrite (serve_others rq s s' id)|by left]].
  unfold session in Hg.
  destruct (games s !! target rq) as [l|] eqn:Hl; [|done]. simpl in Hg.
  destruct (wf_keys _ Hwf _ _ Hl) as (Hid & g0 & Hg0 & HID).
  assert (g0 = g) as -> by congruence.
  destruct rq as [now id|now id dir]; simpl in *.
  - destruct (gameTick now id s) as [[s1 err]|] eqn:Ht; [|done].
    simpl in Hs. inversion Hs; subst s1.
    destruct (gameTick_ran _ _ _ _ _ Ht)
      as [[-> _]|(l1 & g1 & g' & _ & Hl1 & Hg1 & Hover & Hd & Hb & Hh)].
    { exists g. split; [|by left]. unfold session. by rewrite Hl. }
    assert (l1 = l) as -> by congruence. assert (g1 = g) as -> by congruence.
    assert (Hk : games s' !! id = Some l).
    { destruct (gameTick_writes _ _ _ _ _ Ht)
        as [->|(l2 & g2 & g2' & Hl2 & Hg2 & Hb2 & _ & _ & Hgs)]; [done|].
      assert (l2 = l) as -> by congruence. assert (g2 = g) as -> by congruence.
      destruct Hgs as [->| ->]; [done|].
      destruct (tickBody_frame _ _ _ _ _ Hb2) as (-> & _).
      rewrite HID. apply lookup_insert_eq. }
    exists g'. split.
    + unfold session. rewrite Hk. simpl. rewrite Hh. apply lookup_insert_eq.
    + right. right. split; [done|]. split; [done|]. by eexists _, _, _.
  - destruct (SetPlayerDirection now id dir s) as [[s1 err]|] eqn:Ht; [|done].
    simpl in Hs. inversion Hs; subst s1.
    destruct (SetPlayerDirection_writes _ _ _ _ _ _ Ht)
      as [->|(l2 & g2 & Hl2 & Hg2 & Hh & _ & Hgs)].
    { exists g. split; [|by left]. unfold session. by rewrite Hl. }
    assert (l2 = l) as -> by congruence. assert (g2 = g) as -> by congruence.
    exists (setPlayerDir dir now g). split.
    + unfold session.
      assert (Hk : games s' !! id = Some l).
      { destruct Hgs as [->| ->]; [done|]. rewrite HID. apply lookup_insert_eq. }
      rewrite Hk. simpl. rewrite Hh. apply lookup_insert_eq.
    + right. left. by eexists _, _.
Qed.

Lemma serveAll_total (rqs : list request) (s : Service) :
  wf_service s -> exists s', serveAll rqs s = Some s' /\ wf_service s'.
Proof.
  revert s. induction rqs as [|rq rqs IH]; intros s Hwf; simpl; [by eexists|].
  destruct (serve_total rq s Hwf) as [s1 Hs1]. rewrite Hs1. simpl.
  apply IH. by eapply serve_wf.
Qed.

(** However many ticks and heading requests follow, for whatever
    sessions, a session that is over or won keeps its board, its
    positions, its score and its count of dots: only its pending heading
    and its time stamp can change. *)
Theorem finished_stays (rqs : list request) (s : Service) (id : string) (g : Game) :
  reachable s -> session s id = Some g ->
  GameOver g = true \/ DotsLeft g = 0 ->
  exists s' g',
    serveAll rqs s = Some s' /\ session s' id = Some g' /\ same_play g g'.
Proof.
  intros Hr. pose proof (reachable_wf s Hr) as Hwf. clear Hr.
  revert s g Hwf. induction rqs as [|rq rqs IH]; intros s g Hwf Hg Hend; simpl.
  - exists s, g. by repeat split.
  - destruct (serve_total rq s Hwf) as [s1 Hs1]. rewrite Hs1. simpl.
    destruct (serve_step rq s s1 id g Hwf Hs1 Hg) as (g1 & Hg1 & Hcase).
    assert (Hsame : same_play g g1).
    { destruct Hcase as [->|[(dir & now & ->)|(Hover & Hd & _)]].
      - by repeat split.
      - by repeat split.
      - destruct Hend; congruence. }
    destruct Hsame as (H1 & H2 & H3 & H4 & H5 & H6 & H7 & H8).
    destruct (IH s1 g1 (serve_wf _ _ _ Hs1 Hwf) Hg1) as (s' & g' & Hall & Hg' & Hsame').
    { by rewrite H7, H6. }
    exists s', g'. split; [done|]. split; [done|].
    destruct Hsame' as (K1 & K2 & K3 & K4 & K5 & K6 & K7 & K8).
    unfold same_play. by rewrite K1, K2, K3, K4, K5, K6, K7, K8.
Qed.

Lemma tickBody_cell (now : Z) (r r' : Rng) (g g' : Game) (p : Position) :
  tickBody now r g = Some (r', g') ->
  cell g' p = cell g p \/ (cell g p = Some dot /\ cell g' p = Some empty_cell).
Proof.
  intros H. destruct (tickBody_inv _ _ _ _ _ H) as (g1 & ghosts' & Hp & _ & ->).
  assert (Hb : cell (setUpdatedAt now (checkCollisions (withGhosts ghosts' g1))) p
               = cell g1 p).
  { apply cell_Board. simpl.
    by destruct (checkCollisions_frame (withGhosts ghosts' g1)) as (_ & -> & _). }
  rewrite Hb. by apply movePlayer_cell.
Qed.

(** However many ticks and heading requests are served, for whatever
    sessions, a session stored before is stored after under the same ID,
    and on its board every cell is as it was or has turned from a dot
    into an empty cell: walls do not move and dots do not come back.  Its
    score has not gone down and its count of dots has not gone up. *)
Theorem session_progress (rqs : list request) (s : Service) (id : string) (g : Game) :
  reachable s -> session s id = Some g ->
  exists s' g',
    serveAll rqs s = Some s' /\ session s' id = Some g' /\ ID g' = ID g /\
    (forall p, cell g' p = cell g p \/
               (cell g p = Some dot /\ cell g' p = Some empty_cell)) /\
    Score g <= Score g' /\ DotsLeft g' <= DotsLeft g.
Proof.
  intros Hr. pose proof (reachable_wf s Hr) as Hwf. clear Hr.
  revert s g Hwf. induction rqs as [|rq rqs IH]; intros s g Hwf Hg; simpl.
  - exists s, g. repeat split; try done; try lia. by left.
  - destruct (serve_total rq s Hwf) as [s1 Hs1]. rewrite Hs1. simpl.
    destruct (serve_step rq s s1 id g Hwf Hs1 Hg) as (g1 & Hg1 & Hcase).
    assert (Hc : consistent g).
    { unfold session in Hg. destruct (games s !! id) as [l|]; [|done].
      simpl in Hg. by eapply (wf_heap _ Hwf). }
    assert (Hone : ID g1 = ID g /\
                   (forall p, cell g1 p = cell g p \/
                              (cell g p = Some dot /\ cell g1 p = Some empty_cell)) /\
                   Score g <= Score g1 /\ DotsLeft g1 <= DotsLeft g).
    { destruct Hcase as [->|[(dir & now & ->)|(_ & _ & now & r & r' & Hb)]].
      - repeat split; try done; try lia. by left.
      - repeat split; try done; simpl; try lia. by left.
      - destruct (tickBody_frame _ _ _ _ _ Hb) as (HID & _).
        split; [done|]. split; [intros p; by eapply tickBody_cell|].
        destruct (tickBody_inv _ _ _ _ _ Hb) as (g2 & ghosts' & Hp & _ & ->).
        destruct (checkCollisions_frame (withGhosts ghosts' g2))
          as (_ & _ & _ & _ & Hsc & Hd & _).
        simpl. rewrite Hsc, Hd. simpl.
        destruct (consistent_room g Hc) as (Hr1 & Hr2 & _).
        destruct (movePlayer_counters _ _ Hp) as [[-> ->]|[-> ->]]; [lia|].
        rewrite !wrap_id by done. unfold ScorePerDot. lia. }
    destruct Hone as (HID & Hcells & Hsc & Hd).
    destruct (IH s1 g1 (serve_wf _ _ _ Hs1 Hwf) Hg1)
      as (s' & g' & Hall & Hg' & HID' & Hcells' & Hsc' & Hd').
    exists s', g'. split; [done|]. split; [done|]. split; [congruence|].
    split; [|lia].
    intros p. destruct (Hcells p) as [H1|[H1 H2]], (Hcells' p) as [H3|[H3 H4]].
    + left. congruence.
    + right. split; congruence.
    + right. split; congruence.
    + rewrite H2 in H3. done.
Qed.

(** ** The running system *)

Lemma StartGameLoop_service (id : string) (sys : System) :
  service (fst (StartGameLoop id sys)) = service sys.
Proof. unfold StartGameLoop. by destruct (negb _). Qed.

Lemma DeleteGame_service (id : string) (sys : System) :
  service (fst (DeleteGame id sys)) = fst (Delete id (service sys)).
Proof.
  unfold DeleteGame. destruct (stopGameLoop_spec id sys) as (-> & _).
  by destruct (Delete id (service sys)) as [s2 [e|]].
Qed.

Lemma running_reachable (sys : System) : running sys -> reachable (service sys).
Proof.
  induction 1 as [r|sys sys' ev _ IH H|sys now id dir s' err _ IH H
                 |sys sys' now id err _ IH H|sys id _ IH].
  - constructor.
  - destruct ev as [now id|id|id|h|now h|h]; simpl in H.
    + destruct (CreateGame now id (service sys)) as [[s1 err]|] eqn:Hc; [|done].
      simpl in H. inversion H; subst. simpl. by eapply reach_create.
    + inversion H; subst. by rewrite StartGameLoop_service.
    + inversion H; subst. by destruct (stopGameLoop_spec id sys) as (-> & _).
    + destruct (loops sys !! h) as [l|]; [|done]. simpl in H.
      destruct (loopTicking l); [done|]. by inversion H; subst.
    + destruct (loops sys !! h) as [l|]; [|done]. simpl in H.
      destruct (loopTicking l); [|done].
      destruct (gameTick now (loopSession l) (service sys)) as [[s1 err]|] eqn:Ht;
        [|done].
      simpl in H.
      assert (Hs1 : reachable s1).
      { apply (reach_serve (service sys) s1 (ReqTick now (loopSession l)) IH).
        simpl. by rewrite Ht. }
      destruct (continue err); by inversion H; subst.
    + destruct (loops sys !! h) as [l|]; [|done]. simpl in H.
      destruct (_ && _); [|done]. by inversion H; subst.
  - simpl. apply (reach_serve (service sys) s' (ReqSetDir now id dir) IH).
    simpl. by rewrite H.
  - unfold RestartGame in H.
    destruct (stopGameLoop_spec id sys) as (Hsv & _). rewrite Hsv in H.
    destruct (CreateGame now id (fst (Delete id (service sys)))) as [[s3 e]|] eqn:Hc;
      [|done].
    simpl in H. inversion H; subst. simpl.
    eapply reach_create; [|exact Hc]. by apply reach_delete.
  - rewrite DeleteGame_service. by apply reach_delete.
Qed.

Lemma registry_ok_service (sys : System) (s' : Service) :
  registry_ok sys ->
  (forall id h, gameLoops sys !! id = Some h -> is_Some (session s' id)) ->
  registry_ok (mkSystem s' (gameLoops sys) (loops sys) (spawned sys)).
Proof. intros [Hl _ Hn] Hs. by constructor. Qed.

Lemma registry_ok_update (h : nat) (l l' : Loop) (sys : System) :
  registry_ok sys -> loops sys !! h = Some l ->
  loopSession l' = loopSession l -> loopCancelled l' = loopCancelled l ->
  registry_ok (mkSystem (service sys) (gameLoops sys) (<[h := l']> (loops sys))
                 (spawned sys)).
Proof.
  intros [Hl Hs Hn] Hh Hsid Hc. constructor; simpl; [|done|].
  - intros id h0 Hreg. destruct (Hl _ _ Hreg) as (l0 & Hl0 & Hid & Hc0).
    destruct (decide (h0 = h)) as [->|Hne].
    + rewrite lookup_insert_eq. exists l'.
      assert (l0 = l) as -> by congruence. split; [done|]. split; congruence.
    + rewrite lookup_insert_ne by done. by exists l0.
  - intros h0 l0. destruct (decide (h0 = h)) as [->|Hne].
    + intros _. by eapply Hn.
    + rewrite lookup_insert_ne by done. apply Hn.
Qed.

Lemma registry_ok_stopGameLoop (id : string) (sys : System) :
  registry_ok sys -> registry_ok (stopGameLoop id sys).
Proof.
  intros [Hl Hs Hn]. destruct (stopGameLoop_spec id sys) as (Hsv & Hgl & Hsp & Hls & _).
  constructor.
  - intros id' h'. rewrite Hgl. intros Hreg.
    destruct (decide (id' = id)) as [->|Hne]; [by rewrite lookup_delete_eq in Hreg|].
    rewrite lookup_delete_ne in Hreg by done.
    destruct (Hl _ _ Hreg) as (l' & Hl' & Hid' & Hc'). exists l'.
    split; [|done]. rewrite Hls. rewrite decide_False; [done|].
    intros Hreg0. destruct (Hl _ _ Hreg0) as (l0 & Hl0 & Hid0 & _). congruence.
  - intros id' h'. rewrite Hgl, Hsv. intros Hreg.
    destruct (decide (id' = id)) as [->|Hne]; [by rewrite lookup_delete_eq in Hreg|].
    rewrite lookup_delete_ne in Hreg by done. by eapply Hs.
  - intros h' l'. rewrite Hls, Hsp. destruct (decide _).
    + destruct (loops sys !! h') as [l0|] eqn:Hl0; [|done]. intros _. by eapply Hn.
    + apply Hn.
Qed.

Lemma registry_ok_loopReturns (h : nat) (l : Loop) (sys : System) :
  registry_ok sys -> loops sys !! h = Some l ->
  registry_ok (loopReturns h l sys).
Proof.
  intros [Hl Hs Hn] Hh. unfold loopReturns, cleanupGameLoop. constructor; simpl.
  - intros id' h' Hreg.
    destruct (decide (id' = loopSession l)) as [->|Hne];
      [by rewrite lookup_delete_eq in Hreg|].
    rewrite lookup_delete_ne in Hreg by done.
    destruct (Hl _ _ Hreg) as (l' & Hl' & Hid' & Hc'). exists l'.
    split; [|done]. rewrite lookup_delete_ne; [done|]. intros <-. congruence.
  - intros id' h' Hreg.
    destruct (decide (id' = loopSession l)) as [->|Hne];
      [by rewrite lookup_delete_eq in Hreg|].
    rewrite lookup_delete_ne in Hreg by done. by eapply Hs.
  - intros h' l' Hl'. destruct (decide (h' = h)) as [->|Hne];
      [by rewrite lookup_delete_eq in Hl'|].
    rewrite lookup_delete_ne in Hl' by done. by eapply Hn.
Qed.

Lemma registry_ok_StartGameLoop (id : string) (sys : System) :
  wf_service (service sys) -> registry_ok sys ->
  registry_ok (fst (StartGameLoop id sys)).
Proof.
  intros Hwf [Hl Hs Hn]. unfold StartGameLoop.
  destruct (Exists id (service sys)) eqn:He; simpl; [|done].
  assert (Hfree : loops sys !! spawned sys = None).
  { destruct (loops sys !! spawned sys) as [l|] eqn:Hsp; [|done].
    apply Hn in Hsp. lia. }
  assert (Hold : forall h' l', loops sys !! h' = Some l' -> loopSession l' <> id ->
            match gameLoops sys !! id with
            | Some existingCancel => cancel existingCancel (loops sys)
            | None => loops sys
            end !! h' = Some l').
  { intros h' l' Hl' Hsid. destruct (gameLoops sys !! id) as [h0|] eqn:Hreg; [|done].
    rewrite cancel_lookup. rewrite decide_False; [done|]. intros ->.
    destruct (Hl _ _ Hreg) as (l0 & Hl0 & Hid0 & _). congruence. }
  constructor; simpl.
  - intros id' h' Hreg. destruct (decide (id' = id)) as [->|Hne].
    + rewrite lookup_insert_eq in Hreg. inversion Hreg; subst.
      rewrite lookup_insert_eq. by eexists.
    + rewrite lookup_insert_ne in Hreg by done.
      destruct (Hl _ _ Hreg) as (l' & Hl' & Hid' & Hc'). exists l'.
      split; [|done]. rewrite lookup_insert_ne; [|intros <-; congruence].
      apply Hold; [done|congruence].
  - intros id' h' Hreg. destruct (decide (id' = id)) as [->|Hne].
    + unfold Exists in He. destruct (decide (id = EmptyString)); [done|].
      apply bool_decide_eq_true_1 in He as [l0 Hl0].
      destruct (wf_keys _ Hwf _ _ Hl0) as (_ & g & Hg & _).
      exists g. unfold session. by rewrite Hl0.
    + rewrite lookup_insert_ne in Hreg by done. by eapply Hs.
  - intros h' l'. destruct (decide (h' = spawned sys)) as [->|Hne]; [lia|].
    rewrite lookup_insert_ne by done. intros Hl'.
    assert (is_Some (loops sys !! h')) as [l0 Hl0].
    { destruct (gameLoops sys !! id) as [h0|]; [|by eexists].
      rewrite cancel_lookup in Hl'. destruct (decide _); [|by eexists].
      destruct (loops sys !! h'); [by eexists|done]. }
    apply Hn in Hl0. lia.
Qed.

Lemma CreateGame_keeps (now : Z) (id id' : string) (s s' : Service) (err : option error) :
  wf_service s -> CreateGame now id s = Some (s', err) ->
  is_Some (session s id') -> is_Some (session s' id').
Proof.
  intros Hwf Hc Hs. destruct (decide (id = EmptyString)) as [->|Hid].
  - inversion Hc; by subst.
  - destruct (CreateGame_fresh now id s Hwf Hid) as (s1 & g & Hc1 & _ & _ & Hg & _ & Ho).
    rewrite Hc1 in Hc. inversion Hc; subst.
    destruct (decide (id' = id)) as [->|Hne]; [by eexists|]. by rewrite Ho.
Qed.

Lemma running_registry (sys : System) : running sys -> registry_ok sys.
Proof.
  induction 1 as [r|sys sys' ev Hrun IH H|sys now id dir s' err Hrun IH H
                 |sys sys' now id err Hrun IH H|sys id Hrun IH].
  - constructor; simpl; intros *; by rewrite lookup_empty.
  - pose proof (reachable_wf _ (running_reachable _ Hrun)) as Hwf.
    destruct ev as [now id|id|id|h|now h|h]; simpl in H.
    + destruct (CreateGame now id (service sys)) as [[s1 err]|] eqn:Hc; [|done].
      simpl in H. inversion H; subst. apply registry_ok_service; [done|].
      intros id' h' Hreg. eapply CreateGame_keeps; [done..|]. by eapply reg_session.
    + inversion H; subst. by apply registry_ok_StartGameLoop.
    + inversion H; subst. by apply registry_ok_stopGameLoop.
    + destruct (loops sys !! h) as [l|] eqn:Hl; [|done]. simpl in H.
      destruct (loopTicking l); [done|]. inversion H; subst.
      by apply (registry_ok_update h l).
    + destruct (loops sys !! h) as [l|] eqn:Hl; [|done]. simpl in H.
      destruct (loopTicking l); [|done].
      destruct (gameTick now (loopSession l) (service sys)) as [[s1 err]|] eqn:Ht;
        [|done].
      simpl in H.
      assert (Hs1 : registry_ok (mkSystem s1 (gameLoops sys) (loops sys) (spawned sys))).
      { apply registry_ok_service; [done|]. intros id' h' Hreg.
        destruct (reg_session _ IH _ _ Hreg) as [g Hg].
        destruct (serve_step (ReqTick now (loopSession l)) (service sys) s1 id' g Hwf)
          as (g' & Hg' & _); [simpl; by rewrite Ht|done|by eexists]. }
      destruct (continue err); inversion H; subst.
      * by apply (registry_ok_update h l _ _ Hs1).
      * by apply registry_ok_loopReturns.
    + destruct (loops sys !! h) as [l|] eqn:Hl; [|done]. simpl in H.
      destruct (_ && _); [|done]. inversion H; subst.
      by apply registry_ok_loopReturns.
  - pose proof (reachable_wf _ (running_reachable _ Hrun)) as Hwf.
    apply registry_ok_service; [done|]. intros id' h' Hreg.
    destruct (reg_session _ IH _ _ Hreg) as [g Hg].
    destruct (serve_step (ReqSetDir now id dir) (service sys) s' id' g Hwf)
      as (g' & Hg' & _); [simpl; by rewrite H|done|by eexists].
  - pose proof (reachable_wf _ (running_reachable _ Hrun)) as Hwf.
    unfold RestartGame in H.
    pose proof (registry_ok_stopGameLoop id sys IH) as Hstop.
    destruct (stopGameLoop_spec id sys) as (Hsv & Hgl & _).
    destruct (CreateGame now id (fst (Delete id (service (stopGameLoop id sys)))))
      as [[s3 e]|] eqn:Hc; [|done].
    simpl in H. inversion H; subst.
    apply registry_ok_service; [done|]. intros id' h' Hreg.
    eapply CreateGame_keeps; [|exact Hc|].
    { apply Delete_wf. by rewrite Hsv. }
    assert (Hne : id' <> id).
    { intros ->. rewrite Hgl in Hreg. by rewrite lookup_delete_eq in Hreg. }
    destruct (reg_session _ Hstop _ _ Hreg) as [g Hg]. exists g.
    unfold Delete, session in *. destruct (decide (id = EmptyString)); [done|].
    simpl. by rewrite lookup_delete_ne.
  - pose proof (registry_ok_stopGameLoop id sys IH) as Hstop.
    destruct (stopGameLoop_spec id sys) as (Hsv & Hgl & _).
    unfold DeleteGame.
    assert (Hkeep : forall id' h', gameLoops (stopGameLoop id sys) !! id' = Some h' ->
              is_Some (session (fst (Delete id (service (stopGameLoop id sys)))) id')).
    { intros id' h' Hreg.
      assert (Hne : id' <> id).
      { intros ->. rewrite Hgl in Hreg. by rewrite lookup_delete_eq in Hreg. }
      destruct (reg_session _ Hstop _ _ Hreg) as [g Hg]. exists g.
      unfold Delete, session in *. destruct (decide (id = EmptyString)); [done|].
      simpl. by rewrite lookup_delete_ne. }
    destruct (Delete id (service (stopGameLoop id sys))) as [s2 [e|]]; simpl in *;
      by apply registry_ok_service.
Qed.

(** In every state of the running system, a loop registered for a
    session has not returned, runs for that session and is not cancelled,
    and the session it is to tick is stored; so the loop a stop, a delete
    or a restart cancels is a live loop of that very session. *)
Theorem registry_sound (sys : System) (id : string) (h : nat) :
  running sys -> gameLoops sys !! id = Some h ->
  exists l g,
    loops sys !! h = Some l /\ loopSession l = id /\ loopCancelled l = false /\
    session (service sys) id = Some g /\ (h < spawned sys)%nat.
Proof.
  intros Hrun Hreg. destruct (running_registry sys Hrun) as [Hl Hs Hn].
  destruct (Hl _ _ Hreg) as (l & Hl' & Hid & Hc).
  destruct (Hs _ _ Hreg) as [g Hg].
  exists l, g. repeat split; try done. by eapply Hn.
Qed.

(** Nothing panics in the running system: every request completes, and
    so does every iteration a loop can take. *)
Theorem running_total (sys : System) :
  running sys ->
  (forall ev, enabled ev sys <-> is_Some (step ev sys)) /\
  (forall now id dir, is_Some (SetPlayerDirection now id dir (service sys))) /\
  (forall id, is_Some (GetGameState id (service sys))) /\
  (forall now id, is_Some (RestartGame now id sys)).
Proof.
  intros Hrun. pose proof (running_reachable _ Hrun) as Hr.
  pose proof (reachable_wf _ Hr) as Hwf.
  split; [|split; [|split]].
  - intros ev. destruct ev as [now id|id|id|h|now h|h]; simpl.
    + split; [intros _|done].
      destruct (decide (id = EmptyString)) as [->|Hid]; [by eexists|].
      destruct (CreateGame_fresh now id _ Hwf Hid) as (s1 & g & -> & _). by eexists.
    + split; [by eexists|done].
    + split; [by eexists|done].
    + split.
      * intros (l & -> & Ht). simpl. rewrite Ht. by eexists.
      * destruct (loops sys !! h) as [l|]; simpl; [|by intros [? ?]].
        destruct (loopTicking l) eqn:Ht; [by intros [? ?]|]. by exists l.
    + split.
      * intros (l & -> & Ht). simpl. rewrite Ht.
        destruct (serve_total (ReqTick now (loopSession l)) _ Hwf) as [s1 Hs1].
        simpl in Hs1.
        destruct (gameTick now (loopSession l) (service sys)) as [[s2 err]|]; [|done].
        simpl. destruct (continue err); by eexists.
      * destruct (loops sys !! h) as [l|]; simpl; [|by intros [? ?]].
        destruct (loopTicking l) eqn:Ht; [|by intros [? ?]]. by exists l.
    + split.
      * intros (l & -> & Hc & Ht). simpl. rewrite Hc, Ht. by eexists.
      * destruct (loops sys !! h) as [l|]; simpl; [|by intros [? ?]].
        destruct (loopCancelled l) eqn:Hc, (loopTicking l) eqn:Ht; simpl;
          try (by intros [? ?]). by exists l.
  - intros now id dir.
    destruct (serve_total (ReqSetDir now id dir) _ Hwf) as [s1 Hs1]. simpl in Hs1.
    destruct (SetPlayerDirection now id dir (service sys)); [by eexists|done].
  - intros id. unfold GetGameState. destruct (FindByID id (service sys)) as [l|e] eqn:Hf;
      [|by eexists].
    destruct (FindByID_inl _ _ _ Hf) as [Hid Hl].
    destruct (wf_keys _ Hwf _ _ Hl) as (_ & g & Hg & _). rewrite Hg. simpl.
    rewrite (ToGameState_board_ok g (cons_board _ (wf_heap _ Hwf _ _ Hg))). by eexists.
  - intros now id. unfold RestartGame.
    destruct (stopGameLoop_spec id sys) as (Hsv & _). rewrite Hsv.
    pose proof (Delete_wf id _ Hwf) as Hwf2.
    destruct (decide (id = EmptyString)) as [->|Hid]; [by eexists|].
    destruct (CreateGame_fresh now id _ Hwf2 Hid) as (s1 & g & -> & _). by eexists.
Qed.

(** ** The handlers *)

Lemma sessionOf_nonempty (header : string) (nanos : Z) :
  GameHandler.sessionOf header nanos <> EmptyString.
Proof. unfold GameHandler.sessionOf. by destruct (decide _). Qed.

(** [CreateGame] under a non-empty ID, on any state: the new object is
    allocated at [next] and filed under the ID. *)
Lemma CreateGame_alloc (now : Z) (id : string) (s : Service) :
  id <> EmptyString ->
  exists g,
    initializeGame now id = Some g /\
    CreateGame now id s
    = Some (mkService (<[id := next s]> (games s)) (<[next s := g]> (heap s))
              (S (next s)) (rng s), None).
Proof.
  intros Hid. destruct (initializeGame_total now id) as [g Hi].
  destruct (initializeGame_consistent _ _ _ Hi) as (_ & HID & _).
  exists g. split; [done|].
  unfold CreateGame. rewrite decide_False by done. rewrite Hi. simpl.
  unfold Save. simpl. rewrite lookup_insert_eq. simpl.
  rewrite HID. by rewrite decide_False.
Qed.

(** What [StartGame] does on any state. *)
Lemma StartGame_runs (nanos now : Z) (header : string) (sys : System) :
  let id := GameHandler.sessionOf header nanos in
  exists g st,
    initializeGame now id = Some g /\
    ToGameState g 20 15 = Some st /\
    GameHandler.StartGame nanos now header sys
    = Some (mkSystem
              (mkService (<[id := next (service sys)]> (games (service sys)))
                 (<[next (service sys) := g]> (heap (service sys)))
                 (S (next (service sys))) (rng (service sys)))
              (<[id := spawned sys]> (gameLoops sys))
              (<[spawned sys := mkLoop id false false]>
                 (match gameLoops sys !! id with
                  | Some existingCancel => cancel existingCancel (loops sys)
                  | None => loops sys
                  end))
              (S (spawned sys)),
            GameHandler.mkResponse 200 (GameHandler.StartGameResponse id st)).
Proof.
  intros id. pose proof (sessionOf_nonempty header nanos) as Hid. fold id in Hid.
  destruct (CreateGame_alloc now id (service sys) Hid) as (g & Hi & Hc).
  destruct (initializeGame_consistent _ _ _ Hi) as (Hcons & _).
  pose proof (ToGameState_board_ok g (cons_board _ Hcons)) as Hst.
  exists g. eexists. split; [done|]. split; [exact Hst|].
  unfold GameHandler.StartGame. fold id. rewrite Hc. simpl.
  unfold StartGameLoop, Exists. simpl. rewrite decide_False by done.
  rewrite lookup_insert_eq. rewrite bool_decide_eq_true_2 by (by eexists). simpl.
  rewrite lookup_insert_eq. simpl.
  change (ToGameState g 20 15) with (ToGameState g GameWidth GameHeight).
  by rewrite Hst.
Qed.

(** [POST /api/game/restart] does what [POST /api/game/start] does: on
    every state and for every header and time, the two handlers send the
    same response and leave the same sessions, registry and loops. *)
Theorem RestartGame_as_StartGame (nanos now : Z) (header : string) (sys : System) :
  GameHandler.RestartGame nanos now header sys
  = GameHandler.StartGame nanos now header sys.
Proof.
  destruct (StartGame_runs nanos now header sys) as (g & st & Hi & Hst & ->).
  pose proof (sessionOf_nonempty header nanos) as Hid.
  set (id := GameHandler.sessionOf header nanos) in *.
  unfold GameHandler.RestartGame, RestartGame. fold id.
  destruct (stopGameLoop_spec id sys) as (Hsv & Hgl & Hsp & _ & Hnone).
  rewrite Hsv. unfold Delete at 1. rewrite decide_False by done. simpl.
  destruct (CreateGame_alloc now id
              (mkService (delete id (games (service sys))) (heap (service sys))
                 (next (service sys)) (rng (service sys))) Hid) as (g' & Hi' & Hc).
  assert (g' = g) as -> by congruence.
  rewrite Hc. simpl. rewrite insert_delete_eq.
  unfold StartGameLoop, Exists. simpl. rewrite decide_False by done.
  rewrite lookup_insert_eq. rewrite bool_decide_eq_true_2 by (by eexists). simpl.
  rewrite Hgl, lookup_delete_eq, insert_delete_eq, Hsp.
  rewrite lookup_insert_eq. simpl. rewrite Hst. simpl.
  do 3 f_equal. unfold stopGameLoop. by destruct (gameLoops sys !! id).
Qed.

(** Starting a game can not fail: the handler answers 200 with the ID
    of the session, the header's if there is one, and the state of a new
    game, the state a state request would return right after; the
    session is stored, whatever was stored under the ID before, and the
    one loop registered for it is a new goroutine, not cancelled; the
    other sessions are as they were. *)
Theorem StartGame_serves (nanos now : Z) (header : string) (sys : System) :
  running sys ->
  let id := GameHandler.sessionOf header nanos in
  exists sys' st g,
    GameHandler.StartGame nanos now header sys
    = Some (sys', GameHandler.mkResponse 200 (GameHandler.StartGameResponse id st)) /\
    (header <> EmptyString -> id = header) /\
    session (service sys') id = Some g /\ initializeGame now id = Some g /\
    GetGameState id (service sys') = Some (inl st) /\
    StateScore st = 0 /\ StateDotsLeft st = 164 /\
    shownDots (StateBoard st) = 164 /\
    StateGameOver st = false /\ StateWon st = false /\
    StatePlayer st = mkPosition 1 1 /\
    gameLoops sys' !! id = Some (spawned sys) /\
    loops sys' !! spawned sys = Some (mkLoop id false false) /\
    (forall id', id' <> id ->
       session (service sys') id' = session (service sys) id').
Proof.
  intros Hrun id. pose proof (sessionOf_nonempty header nanos) as Hid. fold id in Hid.
  pose proof (reachable_wf _ (running_reachable _ Hrun)) as Hwf.
  destruct (StartGame_runs nanos now header sys) as (g & st & Hi & Hst & Hrunning).
  fold id in Hi, Hrunning.
  destruct (initializeGame_consistent _ _ _ Hi) as (Hcons & HID & _).
  destruct (initializeGame_fields _ _ _ Hi) as (Hs & Hd & Ho & _ & Hp & _).
  change (ToGameState g 20 15) with (ToGameState g GameWidth GameHeight) in Hst.
  rewrite (ToGameState_board_ok g (cons_board _ Hcons)) in Hst.
  inversion Hst as [Hst']. clear Hst.
  eexists _, st, g. split; [exact Hrunning|].
  split; [intros Hh; unfold id, GameHandler.sessionOf; by rewrite decide_False|].
  assert (Hsess : session
            (mkService (<[id := next (service sys)]> (games (service sys)))
               (<[next (service sys) := g]> (heap (service sys)))
               (S (next (service sys))) (rng (service sys))) id = Some g).
  { unfold session. simpl. rewrite lookup_insert_eq. simpl. apply lookup_insert_eq. }
  split; [exact Hsess|]. split; [done|].
  split.
  { unfold GetGameState, FindByID. simpl. rewrite decide_False by done.
    rewrite lookup_insert_eq, lookup_insert_eq. simpl.
    by rewrite (ToGameState_board_ok g (cons_board _ Hcons)), Hst'. }
  rewrite <- Hst'. simpl. rewrite shownDots_map, <- (cons_dots _ Hcons).
  unfold mazeDots in Hd. rewrite Hs, Hd, Ho, Hp.
  repeat (split; [done|]). simpl.
  split; [apply lookup_insert_eq|]. split; [apply lookup_insert_eq|].
  intros id' Hid'. unfold session. simpl. rewrite lookup_insert_ne by done.
  destruct (games (service sys) !! id') as [l'|] eqn:Hl'; [|done]. simpl.
  rewrite lookup_insert_ne; [done|].
  intros <-. destruct (wf_keys _ Hwf _ _ Hl') as (_ & g0 & Hg0 & _).
  rewrite (wf_next _ Hwf) in Hg0; [done|lia].
Qed.

(** A move request, in any state the service can reach: without a
    session header, or with a body that does not bind, it is refused with
    400 and nothing is written; for a session that is not stored it is
    refused with 404 and nothing is written; otherwise it is answered 200,
    the session gets the heading the body names and the time of the
    request, and the other sessions are as they were.  What binds is a
    heading: the handler never answers "Invalid direction". *)
Theorem MovePlayer_serves (now : Z) (header : string) (body : option string) (s : Service) :
  reachable s ->
  exists s' r,
    GameHandler.MovePlayer now header body s = Some (s', r) /\
    r <> GameHandler.respondError 400 "Invalid direction" /\
    (header = EmptyString ->
     s' = s /\ r = GameHandler.respondError 400 "Session ID required") /\
    (header <> EmptyString -> GameHandler.bindMove body = None ->
     s' = s /\ r = GameHandler.respondError 400 "Invalid request body") /\
    (forall direction, header <> EmptyString ->
       GameHandler.bindMove body = Some direction ->
       match session s header with
       | None => s' = s /\ r = GameHandler.respondError 404 "Game not found"
       | Some g =>
           r = GameHandler.mkResponse 200 GameHandler.OkResponse /\
           exists dir, dir <> DirectionNone /\ DirectionString dir = direction /\
                       body = Some direction /\
                       session s' header = Some (setPlayerDir dir now g)
       end /\
       forall id, id <> header -> session s' id = session s id).
Proof.
  intros Hr. pose proof (reachable_wf s Hr) as Hwf.
  unfold GameHandler.MovePlayer.
  destruct (decide (header = EmptyString)) as [Hh|Hh].
  { eexists _, _. split; [done|]. split; [done|]. by repeat split. }
  destruct (GameHandler.bindMove body) as [direction|] eqn:Hbind.
  2:{ eexists _, _. split; [done|]. split; [done|]. by repeat split. }
  assert (Hdir : exists dir, dir <> DirectionNone /\ DirectionString dir = direction /\
                             body = Some direction /\
                             ParseDirection direction = (dir, true)).
  { unfold GameHandler.bindMove in Hbind. destruct body as [d|]; [|done].
    simpl in Hbind. destruct (decide (d = EmptyString)); [done|].
    destruct (decide (d ∈ _)) as [Hin|]; [|done]. inversion Hbind; subst.
    repeat (apply elem_of_cons in Hin as [->|Hin];
            [eexists; split; [|split; [|split; [done|reflexivity]]]; done|]).
    by apply elem_of_nil in Hin. }
  destruct Hdir as (dir & Hnone & Hstr & Hbody & ->). simpl.
  destruct (serve_total (ReqSetDir now header dir) s Hwf) as [s' Hs'].
  simpl in Hs'.
  destruct (SetPlayerDirection now header dir s) as [[s1 err]|] eqn:Hset; [|done].
  simpl in Hs'. inversion Hs'; subst s1. simpl.
  assert (Hothers : forall id, id <> header -> session s' id = session s id).
  { intros id Hid. apply (serve_others (ReqSetDir now header dir)); try done.
    simpl. by rewrite Hset. }
  destruct (session s header) as [g|] eqn:Hg.
  - unfold session in Hg. destruct (games s !! header) as [l|] eqn:Hl; [|done].
    simpl in Hg. destruct (wf_keys _ Hwf _ _ Hl) as (_ & g0 & Hg0 & HID).
    assert (g0 = g) as -> by congruence.
    unfold SetPlayerDirection, FindByID in Hset. rewrite decide_False in Hset by done.
    rewrite Hl, Hg in Hset. simpl in Hset. unfold Save in Hset. simpl in Hset.
    rewrite lookup_insert_eq in Hset. simpl in Hset.
    rewrite HID, decide_False in Hset by done. simpl in Hset.
    inversion Hset; subst. eexists _, _. split; [done|]. split; [done|].
    split; [done|]. split; [done|]. intros d _ [= <-]. split; [|done].
    split; [done|]. exists dir. repeat split; try done.
    unfold session. simpl. rewrite lookup_insert_eq. simpl. apply lookup_insert_eq.
  - assert (Hl : games s !! header = None).
    { unfold session in Hg. destruct (games s !! header) as [l|] eqn:Hl; [|done].
      simpl in Hg. destruct (wf_keys _ Hwf _ _ Hl) as (_ & g0 & Hg0 & _). congruence. }
    unfold SetPlayerDirection, FindByID in Hset. rewrite decide_False in Hset by done.
    rewrite Hl in Hset. inversion Hset; subst.
    eexists _, _. split; [done|]. split; [done|]. split; [done|]. split; [done|].
    intros d _ _. by repeat split.
Qed.

(** A state request, in any state the service can reach: 400 without a
    session header, 404 for a session that is not stored, and 200 with
    the state of the session otherwise. *)
Theorem GetGameState_serves (header : string) (s : Service) :
  reachable s ->
  exists r,
    GameHandler.GetGameState header s = Some r /\
    (header = EmptyString -> r = GameHandler.respondError 400 "Session ID required") /\
    (header <> EmptyString -> session s header = None ->
     r = GameHandler.respondError 404 "Game not found") /\
    (forall g, header <> EmptyString -> session s header = Some g ->
       exists st, r = GameHandler.mkResponse 200 (GameHandler.StateResponse st) /\
                  ToGameState g GameWidth GameHeight = Some st).
Proof.
  intros Hr. pose proof (reachable_wf s Hr) as Hwf.
  unfold GameHandler.GetGameState.
  destruct (decide (header = EmptyString)) as [Hh|Hh].
  { eexists. split; [done|]. by repeat split. }
  unfold GetGameState, FindByID. rewrite decide_False by done. unfold session.
  destruct (games s !! header) as [l|] eqn:Hl; simpl.
  - destruct (wf_keys _ Hwf _ _ Hl) as (_ & g & Hg & _). rewrite Hg. simpl.
    rewrite (ToGameState_board_ok g (cons_board _ (wf_heap _ Hwf _ _ Hg))). simpl.
    eexists. split; [done|]. split; [intros ?; contradiction|].
    split; [intros _ [=]|]. intros g' _ [= <-]. eexists. split; [done|].
    apply ToGameState_board_ok, (cons_board _ (wf_heap _ Hwf _ _ Hg)).
  - eexists. split; [done|]. by repeat split.
Qed.

(** ** The configuration *)

Lemma getEnv_nonempty (env : gmap string string) (key defaultValue : string) :
  defaultValue <> EmptyString -> Config.getEnv env key defaultValue <> EmptyString.
Proof. intros Hd. unfold Config.getEnv. by destruct (decide _). Qed.

Lemma getEnv_unset (env : gmap string string) (key defaultValue : string) :
  Config.Getenv env key = EmptyString -> Config.getEnv env key defaultValue = defaultValue.
Proof. intros H. unfold Config.getEnv. rewrite H. by rewrite decide_False by (by intros ?). Qed.

(** Whatever the environment and however durations are parsed:
    [Load] never fails for an empty port, since a [PORT] that is unset or
    empty falls back to 8080; a configuration it returns passes
    [Validate], with a non-empty port, a log level among debug, info,
    warn and error, a format json or text and a mode debug or release;
    and with [LOG_LEVEL], [LOG_FORMAT] and [GIN_MODE] unset or empty it
    succeeds with info, json and release, whatever the other variables
    hold, unparsable timeouts and flags included. *)
Theorem Load_spec (ParseDuration : string -> option Z) (env : gmap string string) :
  Config.Load ParseDuration env <> inr (Config.ErrInvalid Config.ErrPortEmpty) /\
  (forall c, Config.Load ParseDuration env = inl c ->
     Config.Validate c = None /\
     Config.Port (Config.Server c) <> EmptyString /\
     Config.Level (Config.Logging c) ∈ ["debug"; "info"; "warn"; "error"]%string /\
     Config.Format (Config.Logging c) ∈ ["json"; "text"]%string /\
     Config.Mode (Config.Server c) ∈ ["debug"; "release"]%string) /\
  (Config.Getenv env "LOG_LEVEL" = EmptyString ->
   Config.Getenv env "LOG_FORMAT" = EmptyString ->
   Config.Getenv env "GIN_MODE" = EmptyString ->
   exists c, Config.Load ParseDuration env = inl c /\
     Config.Level (Config.Logging c) = "info"%string /\
     Config.Format (Config.Logging c) = "json"%string /\
     Config.Mode (Config.Server c) = "release"%string).
Proof.
  assert (Hport : Config.getEnv env "PORT" "8080" <> EmptyString)
    by (by apply getEnv_nonempty).
  unfold Config.Load. set (c0 := Config.mkConfig _ _ _).
  split; [|split].
  - unfold Config.Validate. simpl. rewrite decide_False by done.
    by repeat destruct (decide _).
  - intros c Hc. destruct (Config.Validate c0) as [e|] eqn:Hv; [done|].
    inversion Hc; subst c. split; [done|].
    unfold Config.Validate in Hv. destruct (decide _) as [|Hp]; [done|].
    destruct (decide _) as [|Hl]; [done|]. destruct (decide _) as [|Hf]; [done|].
    destruct (decide _) as [|Hm]; [done|]. clear Hv.
    split; [done|].
    split; [|split].
    + destruct (decide (Config.Level (Config.Logging c0) = "debug"%string)) as [->|];
        [repeat constructor|].
      destruct (decide (Config.Level (Config.Logging c0) = "info"%string)) as [->|];
        [repeat constructor|].
      destruct (decide (Config.Level (Config.Logging c0) = "warn"%string)) as [->|];
        [repeat constructor|].
      destruct (decide (Config.Level (Config.Logging c0) = "error"%string)) as [->|];
        [repeat constructor|].
      by destruct Hl.
    + destruct (decide (Config.Format (Config.Logging c0) = "json"%string)) as [->|];
        [repeat constructor|].
      destruct (decide (Config.Format (Config.Logging c0) = "text"%string)) as [->|];
        [repeat constructor|].
      by destruct Hf.
    + destruct (decide (Config.Mode (Config.Server c0) = "debug"%string)) as [->|];
        [repeat constructor|].
      destruct (decide (Config.Mode (Config.Server c0) = "release"%string)) as [->|];
        [repeat constructor|].
      by destruct Hm.
  - intros Hl Hf Hm. exists c0.
    assert (HL : Config.Level (Config.Logging c0) = "info"%string)
      by (by apply getEnv_unset).
    assert (HF : Config.Format (Config.Logging c0) = "json"%string)
      by (by apply getEnv_unset).
    assert (HM : Config.Mode (Config.Server c0) = "release"%string)
      by (by apply getEnv_unset).
    split; [|done].
    unfold Config.Validate. rewrite HL, HF, HM.
    rewrite decide_False by done.
    rewrite decide_False by (intros (_ & ? & _); done).
    rewrite decide_False by (intros (? & _); done).
    by rewrite decide_False by (intros (_ & ?); done).
Qed.

(** ** The sample sessions can be reached *)

Lemma serveAll_reachable (rqs : list request) (s s' : Service) :
  reachable s -> serveAll rqs s = Some s' -> reachable s'.
Proof.
  revert s. induction rqs as [|rq rqs IH]; intros s Hr H; simpl in H.
  - by inversion H; subst.
  - destruct (serve rq s) as [s1|] eqn:Hs; [|done]. simpl in H.
    eapply IH; [|exact H]. by eapply reach_serve.
Qed.

Lemma holding_reachable (r : Rng) : reachable (holding freshGame r).
Proof.
  apply (reach_create (mkService ∅ ∅ 0%nat r) _ 0 "s" None); [constructor|].
  reflexivity.
Qed.

Lemma played_reachable : reachable played.
Proof.
  apply (serveAll_reachable
           [ReqSetDir 1 "s" DirectionRight; ReqTick 2 "s"; ReqTick 3 "s"]
           (holding freshGame (repeat 99 20)) played (holding_reachable _)).
  vm_compute. reflexivity.
Qed.

Lemma lost_reachable : reachable lost.
Proof.
  apply (serveAll_reachable (repeat (ReqTick 1 "s") 12)
           (holding freshGame (repeat 99 40)) lost (holding_reachable _)).
  vm_compute. reflexivity.
Qed.

Lemma started_running : running started.
Proof.
  apply (run_step (default idle (step (EvCreate 1 "s") idle)) _ (EvStart "s")).
  - apply (run_step idle _ (EvCreate 1 "s")); [apply run_idle|].
    vm_compute. reflexivity.
  - vm_compute. reflexivity.
Qed.

(** ** Instances *)

Lemma reachable_score_witness :
  session played "s" = Some playedGame /\
  Score playedGame = 20 /\ DotsLeft playedGame = 162 /\
  (Score playedGame = 10 * (164 - DotsLeft playedGame) /\
   0 <= DotsLeft playedGame <= 164).
Proof.
  assert (Hs : session played "s" = Some playedGame) by evaluate.
  refine (conj Hs (conj _ (conj _ (reachable_score played "s" playedGame
                                     played_reachable Hs)))).
  - evaluate.
  - evaluate.
Defined.

Lemma serve_isolated_witness :
  exists s', serve (ReqTick 4 "s") played = Some s' /\
    forall id, id <> "s"%string -> session s' id = session played id.
Proof.
  exact (serve_isolated (ReqTick 4 "s") played played_reachable).
Defined.

Lemma Save_FindByID_witness :
  exists s',
    Save 0%nat (holding freshGame []) = Some (s', None) /\
    FindByID "s" s' = inl 0%nat /\ Exists "s" s' = true /\
    (forall id, id <> "s"%string ->
       FindByID id s' = FindByID id (holding freshGame []) /\
       Exists id s' = Exists id (holding freshGame [])) /\
    heap s' = heap (holding freshGame []).
Proof.
  refine (Save_FindByID 0%nat (holding freshGame []) freshGame _ _).
  - evaluate.
  - evaluate.
Defined.

Lemma Delete_FindByID_witness :
  exists s',
    Delete "s" played = (s', None) /\
    FindByID "s" s' = inr (ErrGameNotFound "s") /\ Exists "s" s' = false /\
    (forall id', id' <> "s"%string ->
       FindByID id' s' = FindByID id' played /\ Exists id' s' = Exists id' played) /\
    (games played !! "s"%string = None -> s' = played) /\
    Delete "s" s' = (s', None).
Proof.
  refine (Delete_FindByID "s" played _). evaluate.
Defined.


Lemma DeleteGame_removes_witness :
  exists sys',
    DeleteGame "s" started = (sys', None) /\
    FindByID "s" (service sys') = inr (ErrGameNotFound "s") /\
    gameLoops sys' !! "s"%string = None /\
    loops sys' !! 0%nat = Some (mkLoop "s" true false).
Proof.
  destruct (DeleteGame_removes "s" started ltac:(evaluate))
    as (sys' & Hd & Hf & Hg & Hl & _).
  exists sys'. refine (conj Hd (conj Hf (conj Hg _))).
  rewrite (Hl 0%nat). evaluate.
Defined.

Lemma loop_ends_witness :
  exists sys',
    step (EvTickEnd 9 0%nat) ending = Some sys' /\
    loops sys' !! 0%nat = None /\
    gameLoops sys' !! "s"%string = None /\
    service sys' = lost.
Proof.
  destruct (loop_ends 9 0%nat ending (mkLoop "s" false true)) as (sys' & H1 & H2 & H3 & H4 & _).
  - evaluate.
  - evaluate.
  - right. exists lostGame. split; [evaluate|]. left. evaluate.
  - exists sys'. exact (conj H1 (conj H2 (conj H3 H4))).
Defined.

Lemma DeleteGame_ends_loop_witness :
  (exists sys1, step (EvDone 0%nat) (fst (DeleteGame "s" started)) = Some sys1 /\
                loops sys1 !! 0%nat = None) /\
  (exists sys2, steps [EvTickBegin 0%nat; EvTickEnd 9 0%nat]
                  (fst (DeleteGame "s" started)) = Some sys2 /\
                loops sys2 !! 0%nat = None).
Proof.
  refine (DeleteGame_ends_loop 9 "s" 0%nat started (mkLoop "s" false false) _ _ _ _ _).
  - evaluate.
  - evaluate.
  - evaluate.
  - evaluate.
  - evaluate.
Defined.

Lemma abs_spec_witness :
  abs min_int = min_int /\ (abs min_int < 0 <-> min_int = min_int).
Proof.
  refine (abs_spec min_int _). unfold is_int, min_int, max_int. lia.
Defined.

Lemma GetGameState_reachable_witness :
  exists st,
    GetGameState "s" played = Some (inl st) /\
    StateBoard st = map (map encodeRune) (Board playedGame) /\
    StatePlayer st = Player playedGame /\
    StateGhosts st = map GhostPosition (Ghosts playedGame) /\
    StateGameOver st = GameOver playedGame /\
    shownDots (StateBoard st) = StateDotsLeft st /\
    StateScore st = 10 * (164 - shownDots (StateBoard st)) /\
    (StateWon st = true <-> shownDots (StateBoard st) = 0).
Proof.
  refine (GetGameState_reachable played "s" playedGame played_reachable _). evaluate.
Defined.

Lemma RestartGame_fresh_witness :
  exists sys' l g,
    RestartGame 7 "s" started = Some (sys', None) /\
    GetGame "s" (service sys') = inl l /\ heap (service sys') !! l = Some g /\
    initializeGame 7 "s" = Some g /\
    gameLoops sys' !! "s"%string = None /\
    loops sys' !! 0%nat = Some (mkLoop "s" true false).
Proof.
  destruct (RestartGame_fresh 7 "s" started (running_reachable _ started_running)
              ltac:(evaluate)) as (sys' & l & g & H1 & H2 & H3 & H4 & H5 & H6 & _).
  exists sys', l, g. refine (conj H1 (conj H2 (conj H3 (conj H4 (conj H5 _))))).
  rewrite (H6 0%nat). evaluate.
Defined.

Lemma finished_stays_witness :
  GameOver lostGame = true /\
  exists s' g',
    serveAll [ReqTick 2 "s"; ReqSetDir 3 "s" DirectionRight; ReqTick 4 "s"] lost
    = Some s' /\
    session s' "s" = Some g' /\ same_play lostGame g'.
Proof.
  assert (Hover : GameOver lostGame = true) by evaluate.
  refine (conj Hover
            (finished_stays [ReqTick 2 "s"; ReqSetDir 3 "s" DirectionRight; ReqTick 4 "s"]
               lost "s" lostGame lost_reachable _ (or_introl Hover))).
  evaluate.
Defined.

Lemma session_progress_witness :
  exists s' g',
    serveAll [ReqSetDir 1 "s" DirectionRight; ReqTick 2 "s"; ReqTick 3 "s"]
      (holding freshGame (repeat 99 20)) = Some s' /\
    session s' "s" = Some g' /\ ID g' = ID freshGame /\
    (forall p, cell g' p = cell freshGame p \/
               (cell freshGame p = Some dot /\ cell g' p = Some empty_cell)) /\
    Score freshGame <= Score g' /\ DotsLeft g' <= DotsLeft freshGame.
Proof.
  refine (session_progress
            [ReqSetDir 1 "s" DirectionRight; ReqTick 2 "s"; ReqTick 3 "s"]
            (holding freshGame (repeat 99 20)) "s" freshGame
            (holding_reachable _) _).
  evaluate.
Defined.

Lemma registry_sound_witness :
  exists l g,
    loops started !! 0%nat = Some l /\ loopSession l = "s"%string /\
    loopCancelled l = false /\
    session (service started) "s" = Some g /\ (0 < spawned started)%nat.
Proof.
  refine (registry_sound started "s" 0%nat started_running _). evaluate.
Defined.

Lemma running_total_witness :
  (forall ev, enabled ev started <-> is_Some (step ev started)) /\
  (forall now id dir, is_Some (SetPlayerDirection now id dir (service started))) /\
  (forall id, is_Some (GetGameState id (service started))) /\
  (forall now id, is_Some (RestartGame now id started)).
Proof.
  exact (running_total started started_running).
Defined.

Lemma StartGame_serves_witness :
  exists sys' st g,
    GameHandler.StartGame 42 1 EmptyString started
    = Some (sys', GameHandler.mkResponse 200
                    (GameHandler.StartGameResponse "session-42" st)) /\
    session (service sys') "session-42" = Some g /\
    StateScore st = 0 /\ StateDotsLeft st = 164 /\
    gameLoops sys' !! "session-42"%string = Some 1%nat /\
    session (service sys') "s" = session (service started) "s".
Proof.
  destruct (StartGame_serves 42 1 EmptyString started started_running)
    as (sys' & st & g & H1 & _ & H3 & _ & _ & H6 & H7 & _ & _ & _ & _ & H12 & _ & H14).
  exists sys', st, g.
  refine (conj H1 (conj H3 (conj H6 (conj H7 (conj H12 (H14 "s"%string _)))))).
  evaluate.
Defined.

Lemma MovePlayer_serves_witness :
  exists s' r,
    GameHandler.MovePlayer 5 "s" (Some "left"%string) played = Some (s', r) /\
    r = GameHandler.mkResponse 200 GameHandler.OkResponse /\
    exists dir, dir <> DirectionNone /\ DirectionString dir = "left"%string /\
                session s' "s" = Some (setPlayerDir dir 5 playedGame).
Proof.
  destruct (MovePlayer_serves 5 "s" (Some "left"%string) played played_reachable)
    as (s' & r & H1 & _ & _ & _ & H5).
  destruct (H5 "left"%string ltac:(evaluate) ltac:(evaluate)) as [H6 _].
  assert (Hs : session played "s" = Some playedGame) by evaluate.
  rewrite Hs in H6. destruct H6 as (Hr & dir & Hd1 & Hd2 & _ & Hd4).
  exists s', r. refine (conj H1 (conj Hr _)). exists dir. exact (conj Hd1 (conj Hd2 Hd4)).
Defined.

Lemma GetGameState_serves_witness :
  exists r,
    GameHandler.GetGameState "s" played = Some r /\
    exists st, r = GameHandler.mkResponse 200 (GameHandler.StateResponse st) /\
               ToGameState playedGame GameWidth GameHeight = Some st.
Proof.
  destruct (GetGameState_serves "s" played played_reachable) as (r & H1 & _ & _ & H4).
  exists r. refine (conj H1 (H4 playedGame _ _)).
  - evaluate.
  - evaluate.
Defined.
